(** * PayTracker extension: extraction, identifier repair and cache

    A shallow embedding of the TypeScript sources of the extension
    ([transactionScraper.ts] and [storage.ts], then [utils.ts] and the
    hand-over between the windows of the popup component) together with
    the properties stated about them.

    JavaScript strings are sequences of UTF-16 code units; they are modelled
    as lists of code units.  Regular-expression literals of the source are
    values of a small abstract syntax, run by a backtracking matcher written
    in the continuation style of the ECMAScript specification. *)

From Stdlib Require Import String Ascii ZArith NArith List Bool Lia.
From Stdlib Require Import Permutation Sorted.
Import ListNotations.

Set Implicit Arguments.

(* ================================================================== *)
(** ** JavaScript strings *)

Module Js.

(** A UTF-16 code unit. *)
Definition code := N.

Local Open Scope N_scope.

Definition jsstring := list code.

(** An ASCII literal of the source, as a list of code units. *)
Definition lit (s : string) : jsstring :=
  List.map N_of_ascii (list_ascii_of_string s).

Fixpoint eqb (a b : jsstring) : bool :=
  match a, b with
  | [], [] => true
  | x :: a', y :: b' => N.eqb x y && eqb a' b'
  | _, _ => false
  end.

(** [s.startsWith(p)] *)
Fixpoint startsWith (p s : jsstring) : bool :=
  match p, s with
  | [], _ => true
  | x :: p', y :: s' => N.eqb x y && startsWith p' s'
  | _ :: _, [] => false
  end.

(** [s.includes(p)] *)
Fixpoint includes (p s : jsstring) : bool :=
  startsWith p s ||
  match s with
  | [] => false
  | _ :: s' => includes p s'
  end.

(** Truthiness of a string: only the empty string is falsy. *)
Definition truthy (s : jsstring) : bool :=
  match s with [] => false | _ => true end.

(** [a || b] on strings. *)
Definition or_else (a b : jsstring) : jsstring :=
  if truthy a then a else b.

Definition in_range (lo hi c : code) : bool := (N.leb lo c && N.leb c hi)%bool.

(** The class [[A-Z0-9]]. *)
Definition upper_alnum (c : code) : bool :=
  in_range 65 90 c || in_range 48 57 c.

(** The class [[a-zA-Z0-9]]. *)
Definition alnum (c : code) : bool :=
  in_range 97 122 c || in_range 65 90 c || in_range 48 57 c.

(** The class [\d]. *)
Definition digit (c : code) : bool := in_range 48 57 c.

(** LineTerminator: LF, CR, LS, PS. *)
Definition line_terminator (c : code) : bool :=
  N.eqb c 10 || N.eqb c 13 || N.eqb c 8232 || N.eqb c 8233.

(** The atom [.] (no [s] flag, no [u] flag): one code unit that is not a
    line terminator. *)
Definition dot (c : code) : bool := negb (line_terminator c).

(** WhiteSpace and LineTerminator code units, as stripped by
    [String.prototype.trim]. *)
Definition white_space (c : code) : bool :=
  N.eqb c 9 || N.eqb c 11 || N.eqb c 12 || N.eqb c 32 || N.eqb c 160 ||
  N.eqb c 65279 || N.eqb c 5760 || in_range 8192 8202 c ||
  N.eqb c 8239 || N.eqb c 8287 || N.eqb c 12288 || line_terminator c.

Fixpoint trim_start (s : jsstring) : jsstring :=
  match s with
  | c :: s' => if white_space c then trim_start s' else s
  | [] => []
  end.

(** [s.trim()] *)
Definition trim (s : jsstring) : jsstring :=
  rev (trim_start (rev (trim_start s))).

(** [String.fromCharCode(n)]: the argument goes through ToUint16. *)
Definition fromCharCode (n : Z) : jsstring := [Z.to_N (n mod 65536)].

(** [n] copies of the code unit [c]. *)
Definition repeat1 (c : code) (n : nat) : jsstring := List.repeat c n.

(** [s.repeat(n)] *)
Definition repeat_string (s : jsstring) (n : nat) : jsstring :=
  concat (List.repeat s n).

End Js.

Import Js.

(* ================================================================== *)
(** ** Regular expressions *)

Module RegExp.

(** The fragment of the pattern syntax used by the sources. [Quant lo hi r]
    is the greedy quantifier [r{lo,hi}]; [hi = None] stands for no upper
    bound. *)
Inductive regex : Type :=
| Empty
| CharSet (p : code -> bool)
| Cat (r1 r2 : regex)
| Group (n : nat) (r : regex)
| BackRef (n : nat)
| Quant (lo : nat) (hi : option nat) (r : regex)
| Bol
| Eol.

Definition captures := nat -> option jsstring.

Definition no_captures : captures := fun _ => None.

Definition set_capture (n : nat) (w : jsstring) (cs : captures) : captures :=
  fun k => if Nat.eqb k n then Some w else cs k.

Definition clear_captures (ns : list nat) (cs : captures) : captures :=
  fun k => if existsb (Nat.eqb k) ns then None else cs k.

(** A match state: the index reached in the input, the input that is left
    from there on, and the captures so far. *)
Record mstate : Type := MState {
  pos : nat;
  rest : jsstring;
  caps : captures
}.

Definition cont := mstate -> option mstate.

Fixpoint groups (r : regex) : list nat :=
  match r with
  | Cat r1 r2 => groups r1 ++ groups r2
  | Group n r' => n :: groups r'
  | Quant _ _ r' => groups r'
  | _ => []
  end.

Definition advance (n : nat) (x : mstate) : mstate :=
  MState (pos x + n) (skipn n (rest x)) (caps x).

(** RepeatMatcher of the specification.  Every iteration after the first
    [lo] ones has to consume input, so [S (lo + length (rest x))] calls are
    always enough; [fuel] counts them. *)
Fixpoint repeat_matcher (m : mstate -> cont -> option mstate)
    (inner : list nat) (fuel lo : nat) (hi : option nat)
    (x : mstate) (c : cont) : option mstate :=
  match fuel with
  | O => None
  | S fuel' =>
    match hi with
    | Some O => c x
    | _ =>
      let d : cont := fun y =>
        if Nat.eqb lo 0 && Nat.eqb (pos y) (pos x) then None
        else repeat_matcher m inner fuel' (Nat.pred lo)
               (option_map Nat.pred hi) y c in
      let xr := MState (pos x) (rest x) (clear_captures inner (caps x)) in
      if Nat.eqb lo 0 then
        match m xr d with
        | Some z => Some z
        | None => c x
        end
      else m xr d
    end
  end.

Fixpoint matcher (r : regex) : mstate -> cont -> option mstate :=
  match r with
  | Empty => fun x c => c x
  | CharSet p => fun x c =>
      match rest x with
      | ch :: _ => if p ch then c (advance 1 x) else None
      | [] => None
      end
  | Cat r1 r2 => fun x c => matcher r1 x (fun y => matcher r2 y c)
  | Group n r' => fun x c =>
      matcher r' x (fun y =>
        c (MState (pos y) (rest y)
             (set_capture n (firstn (pos y - pos x) (rest x)) (caps y))))
  | BackRef n => fun x c =>
      match caps x n with
      | None => c x
      | Some w => if startsWith w (rest x) then c (advance (length w) x)
                  else None
      end
  | Quant lo hi r' => fun x c =>
      repeat_matcher (matcher r') (groups r')
        (S (lo + length (rest x))) lo hi x c
  | Bol => fun x c => if Nat.eqb (pos x) 0 then c x else None
  | Eol => fun x c => match rest x with [] => c x | _ => None end
  end.

(** The result of a successful match: where it starts, the matched text and
    the captures. *)
Record mresult : Type := MResult {
  m_index : nat;
  m_text : jsstring;
  m_caps : captures;
  m_after : jsstring
}.

Definition m_end (m : mresult) : nat := m_index m + length (m_text m).

(** One attempt at index [i], where [s] is the input from [i] on. *)
Definition match_at (r : regex) (i : nat) (s : jsstring) : option mresult :=
  match matcher r (MState i s no_captures) (fun y => Some y) with
  | Some y => Some (MResult i (firstn (pos y - i) s) (caps y) (rest y))
  | None => None
  end.

(** RegExpBuiltinExec without the [g] flag, from index [i]: the leftmost
    index at which the pattern matches. *)
Fixpoint exec_from (r : regex) (i : nat) (s : jsstring) : option mresult :=
  match match_at r i s with
  | Some m => Some m
  | None =>
    match s with
    | [] => None
    | _ :: s' => exec_from r (S i) s'
    end
  end.

(** [r.exec(s)] and [s.match(r)] for a pattern without the [g] flag. *)
Definition exec (r : regex) (s : jsstring) : option mresult := exec_from r 0 s.

(** [r.test(s)] for a pattern without the [g] flag. *)
Definition test (r : regex) (s : jsstring) : bool :=
  match exec r s with Some _ => true | None => false end.

(** All matches of a pattern with the [g] flag, left to right.  After an
    empty match the search resumes one code unit further on. *)
Fixpoint matches_from (fuel : nat) (r : regex) (i : nat) (s : jsstring)
  : list mresult :=
  match fuel with
  | O => []
  | S fuel' =>
    match exec_from r i s with
    | None => []
    | Some m =>
      m :: match m_text m, m_after m with
           | [], [] => []
           | [], _ :: s' => matches_from fuel' r (S (m_end m)) s'
           | _ :: _, s' => matches_from fuel' r (m_end m) s'
           end
    end
  end.

Definition matches (r : regex) (s : jsstring) : list mresult :=
  matches_from (S (length s)) r 0 s.

(** [s.match(r)] for a pattern with the [g] flag: the matched texts
    ([null] when there is none, here the empty list). *)
Definition match_all (r : regex) (s : jsstring) : list jsstring :=
  List.map m_text (matches r s).

(** Splices the replacements into the input; [i] is the index of the first
    code unit of [s]. *)
Fixpoint splice (f : mresult -> jsstring) (ms : list mresult) (i : nat)
    (s : jsstring) : jsstring :=
  match ms with
  | [] => s
  | m :: ms' =>
    firstn (m_index m - i) s ++ f m ++
    splice f ms' (m_end m) (skipn (m_end m - i) s)
  end.

(** [s.replace(r, f)] for a pattern with the [g] flag. *)
Definition replace_all (r : regex) (f : mresult -> jsstring) (s : jsstring)
  : jsstring :=
  splice f (matches r s) 0 s.

(** [s.replace(r, f)] for a pattern without the [g] flag. *)
Definition replace_first (r : regex) (f : mresult -> jsstring) (s : jsstring)
  : jsstring :=
  match exec r s with
  | Some m => splice f [m] 0 s
  | None => s
  end.

Definition capture (m : mresult) (n : nat) : jsstring :=
  match m_caps m n with Some w => w | None => [] end.

(** *** What a successful run of the matcher establishes

    [rep_rel R inner lo hi x y]: [y] is reached from [x] by iterating [R]
    as the quantifier [{lo,hi}] allows. *)
Inductive rep_rel (R : mstate -> mstate -> Prop) (inner : list nat)
  : nat -> option nat -> mstate -> mstate -> Prop :=
| rep_stop lo hi x :
    lo = 0 \/ hi = Some 0 -> rep_rel R inner lo hi x x
| rep_step lo hi x y z :
    hi <> Some 0 ->
    R (MState (pos x) (rest x) (clear_captures inner (caps x))) y ->
    (lo = 0 -> pos y <> pos x) ->
    rep_rel R inner (Nat.pred lo) (option_map Nat.pred hi) y z ->
    rep_rel R inner lo hi x z.

(** [run r x y]: the pattern [r] can take the state [x] to the state [y]. *)
Fixpoint run (r : regex) (x y : mstate) : Prop :=
  match r with
  | Empty => y = x
  | CharSet p =>
      exists ch tl, rest x = ch :: tl /\ p ch = true /\ y = advance 1 x
  | Cat r1 r2 => exists m, run r1 x m /\ run r2 m y
  | Group n r' =>
      exists m, run r' x m /\
        y = MState (pos m) (rest m)
              (set_capture n (firstn (pos m - pos x) (rest x)) (caps m))
  | BackRef n =>
      match caps x n with
      | None => y = x
      | Some w => startsWith w (rest x) = true /\ y = advance (length w) x
      end
  | Quant lo hi r' => rep_rel (run r') (groups r') lo hi x y
  | Bol => pos x = 0 /\ y = x
  | Eol => rest x = [] /\ y = x
  end.

End RegExp.

Import RegExp.

Declare Scope regex_scope.
Delimit Scope regex_scope with regex.
Infix "+++" := Cat (at level 60, right associativity) : regex_scope.

(* ================================================================== *)
(** ** transactionScraper.ts: identifier repair *)

Module Scraper.

Local Open Scope regex_scope.

Definition UA : regex := CharSet upper_alnum.

(** [/^([A-Z0-9]{3,6})([A-Z0-9])\2{10,}([A-Z0-9]{3,6})$/] *)
Definition re_repeated : regex :=
  Bol +++ Group 1 (Quant 3 (Some 6) UA) +++ Group 2 UA +++
  Quant 10 None (BackRef 2) +++ Group 3 (Quant 3 (Some 6) UA) +++ Eol.

(** [/^([A-Z0-9]{1,3})([A-Z0-9])\2{10,}([A-Z0-9]{7,10})$/] *)
Definition re_flood : regex :=
  Bol +++ Group 1 (Quant 1 (Some 3) UA) +++ Group 2 UA +++
  Quant 10 None (BackRef 2) +++ Group 3 (Quant 7 (Some 10) UA) +++ Eol.

(** [/^[A-Z0-9]+$/] *)
Definition re_clean : regex := Bol +++ Quant 1 None UA +++ Eol.

(** [/^0{6,}/] *)
Definition re_zeros6 : regex := Bol +++ Quant 6 None (CharSet (N.eqb 48%N)).

(** [/^0+/] *)
Definition re_zeros : regex := Bol +++ Quant 1 None (CharSet (N.eqb 48%N)).

(** [/[A-Z0-9]{13}/g] and [/([A-Z0-9]{13})/] *)
Definition re_id13 : regex := Quant 13 (Some 13) UA.
Definition re_id13_group : regex := Group 1 re_id13.

(** [/(.)\1{5,}/] *)
Definition re_run6 : regex :=
  Group 1 (CharSet dot) +++ Quant 5 None (BackRef 1).

Definition commonMiddles : list jsstring :=
  [lit "61C"; lit "556"; lit "86"; lit "123"; lit "001"; lit "999"].

(** Pattern 1 of [fixCorruptedTransactionId]. *)
Definition fix_repeated (rawId : jsstring) : option jsstring :=
  match exec re_repeated rawId with
  | Some m =>
    let prefix := capture m 1 in
    let repeatedChar := capture m 2 in
    let suffix := capture m 3 in
    if Js.eqb repeatedChar (lit "6") && Js.eqb prefix (lit "EEP8") &&
       Js.eqb suffix (lit "NRJ4C")
    then Some (lit "EEP86556NRJ4C")
    else
      let likelyChar :=
        fromCharCode (Z.of_N (hd 0%N repeatedChar) - 1) in
      let reconstructed := prefix ++ likelyChar ++ suffix in
      if Nat.eqb (length reconstructed) 13 && test re_clean reconstructed
      then Some reconstructed
      else None
  | None => None
  end.

(** Pattern 2 of [fixCorruptedTransactionId]. *)
Definition fix_flood (rawId : jsstring) : option jsstring :=
  match exec re_flood rawId with
  | Some m =>
    let prefix := capture m 1 in
    let suffix := capture m 3 in
    let neededLength :=
      (13 - Z.of_nat (length prefix) - Z.of_nat (length suffix))%Z in
    match
      find (fun middle =>
              Z.eqb (Z.of_nat (length middle)) neededLength &&
              Nat.eqb (length (prefix ++ middle ++ suffix)) 13)
           commonMiddles
    with
    | Some middle => Some (prefix ++ middle ++ suffix)
    | None => None
    end
  | None => None
  end.

(** Pattern 3 of [fixCorruptedTransactionId]. *)
Definition fix_zeros (rawId : jsstring) : option jsstring :=
  if test re_zeros6 rawId then
    let cleaned := replace_first re_zeros (fun _ => lit "08") rawId in
    if Nat.eqb (length cleaned) 13 then Some cleaned else None
  else None.

(** Pattern 4 of [fixCorruptedTransactionId]; also the scan of method 3. *)
Definition first_valid_id (text : jsstring) : option jsstring :=
  find (fun m => negb (test re_run6 m)) (match_all re_id13 text).

Definition or_try {A} (a : option A) (b : option A) : option A :=
  match a with Some _ => a | None => b end.

Definition fixCorruptedTransactionId (rawId : jsstring) : option jsstring :=
  if negb (truthy rawId) || Nat.ltb (length rawId) 13 then None
  else
    or_try (fix_repeated rawId)
   (or_try (fix_flood rawId)
   (or_try (fix_zeros rawId)
           (first_valid_id rawId))).

End Scraper.

Import Scraper.


(* ================================================================== *)
(** ** transactionScraper.ts: the page extractor *)

Module Extractor.

Record Transaction : Type := {
  customer : jsstring;
  date : jsstring;
  amount : jsstring;
  transactionId : jsstring
}.

(** What the extractor reads from the link element
    [a.sc-goYhtw.bhMCZg] of a container.  An attribute that is not set
    reads as [null]. *)
Record Anchor : Type := {
  a_href : option jsstring;
  a_textContent : option jsstring;
  a_innerText : option jsstring;
  (** the text nodes under the element, in the order of the tree walker *)
  a_textNodes : list jsstring;
  a_data_id : option jsstring;
  a_id : option jsstring;
  a_value : option jsstring
}.

(** What the extractor reads from one container [div.sc-ijXkgg.ewERsg]:
    the text of each [p.sc-kAFUCS.kxJkvp[type='subtitle']] in document
    order, the text of the first [p.sc-dibcMh.bnjRCI[type='success']] if
    there is one, the link element if there is one, and the text of the
    container. *)
Record Container : Type := {
  c_subtitles : list (option jsstring);
  c_success : option (option jsstring);
  c_anchor : option Anchor;
  c_textContent : option jsstring
}.

Definition NA : jsstring := lit "N/A".

(** [e?.textContent?.trim() || fallback] *)
Definition text_or (e : option (option jsstring)) (fallback : jsstring)
  : jsstring :=
  match e with
  | Some (Some t) => or_else (trim t) fallback
  | _ => fallback
  end.

(** [a || b] on values that are a string or [null]. *)
Definition attr_or (a b : option jsstring) : option jsstring :=
  match a with
  | Some s => if truthy s then a else b
  | None => b
  end.

(** Method 1: the first 13-character run of the [href] attribute. *)
Definition from_href (el : Anchor) : option jsstring :=
  let href := match attr_or (a_href el) (Some []) with
              | Some h => h
              | None => []
              end in
  if truthy href then
    match exec re_id13_group href with
    | Some hrefMatch => Some (capture hrefMatch 1)
    | None => None
    end
  else None.

(** The four text extraction methods of method 2, in the order tried. *)
Definition extractionMethods (el : Anchor) : list (option jsstring) :=
  [ option_map trim (a_textContent el);
    option_map trim (a_innerText el);
    Some (trim (concat (a_textNodes el)));
    attr_or (a_data_id el) (attr_or (a_id el) (a_value el)) ].

(** What one extracted text contributes: itself when it is a clean
    identifier, otherwise its repair. *)
Definition from_text (extractedText : option jsstring) : option jsstring :=
  match extractedText with
  | Some t =>
    if truthy t then
      if Nat.eqb (length t) 13 && test re_clean t then Some t
      else
        match fixCorruptedTransactionId t with
        | Some cleanId => if truthy cleanId then Some cleanId else None
        | None => None
        end
    else None
  | None => None
  end.

(** The loop over the methods: the first that yields an identifier. *)
Fixpoint first_from_text (methods : list (option jsstring))
  : option jsstring :=
  match methods with
  | [] => None
  | extractedText :: methods' =>
    match from_text extractedText with
    | Some id => Some id
    | None => first_from_text methods'
    end
  end.

(** Method 3: the scan of the text of the container. *)
Definition from_container (c : Container) : option jsstring :=
  first_valid_id (match c_textContent c with Some t => t | None => [] end).

Definition assign (transactionId : jsstring) (found : option jsstring)
  : jsstring :=
  match found with Some id => id | None => transactionId end.

Definition extractTransactionId (c : Container) : jsstring :=
  let transactionId := NA in
  match c_anchor c with
  | Some transactionElement =>
    let transactionId := assign transactionId (from_href transactionElement) in
    let transactionId :=
      if Js.eqb transactionId NA
      then assign transactionId
             (first_from_text (extractionMethods transactionElement))
      else transactionId in
    let transactionId :=
      if Js.eqb transactionId NA
      then assign transactionId (from_container c)
      else transactionId in
    transactionId
  | None => transactionId
  end.

(** The body of the [map] callback. *)
Definition extractRecord (c : Container) : Transaction :=
  {| customer := text_or (nth_error (c_subtitles c) 0)
                   (lit "No customer selected");
     date := text_or (nth_error (c_subtitles c) 1) NA;
     amount := text_or (c_success c) NA;
     transactionId := extractTransactionId c |}.

(** [extractTransactionDataFromPage], on the containers that
    [document.querySelectorAll('div.sc-ijXkgg.ewERsg')] returns, which come
    in document order. *)
Definition extractTransactionDataFromPage (containers : list Container)
  : list Transaction :=
  List.map extractRecord containers.

End Extractor.

Import Extractor.

(* ================================================================== *)
(** ** transactionScraper.ts: the extraction orchestrator *)

Module Orchestrator.

(** A JavaScript [Error] with its message. *)
Inductive js_error : Type := Error (message : jsstring).

(** How a promise settles. *)
Inductive outcome (A : Type) : Type :=
| Fulfilled (a : A)
| Rejected (e : js_error).

Arguments Fulfilled {A} a.
Arguments Rejected {A} e.

Definition bind {A B} (p : outcome A) (f : A -> outcome B) : outcome B :=
  match p with
  | Fulfilled a => f a
  | Rejected e => Rejected e
  end.

(** The fields of [chrome.tabs.Tab] that are read. *)
Record Tab : Type := {
  tab_id : option Z;
  tab_url : option jsstring;
  tab_title : option jsstring
}.

Record InjectionResult : Type := {
  result : option (list Transaction)
}.

(** What the host answers to the calls of the orchestrator. *)
Record Host : Type := {
  location_search : jsstring;
  (** [chrome.tabs.query({})] *)
  query_all : outcome (list Tab);
  (** [chrome.tabs.query({ active: true, currentWindow: true })] *)
  query_active : outcome (list Tab);
  (** [chrome.scripting.executeScript] on the tab of that id *)
  executeScript : Z -> outcome (list InjectionResult)
}.

Definition no_tab_error : js_error :=
  Error (lit "No suitable tab found for data extraction").

Section WithBuiltins.

(** [String.prototype.toLowerCase] *)
Variable toLowerCase : jsstring -> jsstring.

(** The predicate of [allTabs.find]. *)
Definition looks_like_paytracker (t : Tab) : bool :=
  match tab_url t with
  | Some u =>
    truthy u &&
    (includes (lit "paytracker") u || includes (lit "app.") u ||
     match tab_title t with
     | Some title => includes (lit "paytracker") (toLowerCase title)
     | None => false
     end)
  | None => false
  end.

(** The predicate of [allTabs.filter]. *)
Definition is_regular (t : Tab) : bool :=
  match tab_url t with
  | Some u => truthy u && negb (startsWith (lit "chrome-extension://") u)
  | None => false
  end.

Definition isDetachedWindow (h : Host) : bool :=
  includes (lit "detached=true") (location_search h).

(** The tab the extraction runs in; [None] stands for [undefined]. *)
Definition resolve_tab (h : Host) : outcome (option Tab) :=
  if isDetachedWindow h then
    bind (query_all h) (fun allTabs =>
      match find looks_like_paytracker allTabs with
      | Some tab => Fulfilled (Some tab)
      | None =>
        let regularTabs := filter is_regular allTabs in
        Fulfilled (nth_error regularTabs (length regularTabs - 1))
      end)
  else
    bind (query_active h) (fun tabs => Fulfilled (nth_error tabs 0)).

(** [tab?.id] when it is truthy. *)
Definition usable_id (tab : option Tab) : option Z :=
  match tab with
  | Some t =>
    match tab_id t with
    | Some i => if Z.eqb i 0 then None else Some i
    | None => None
    end
  | None => None
  end.

Definition extractTransactionData (h : Host) : outcome (list Transaction) :=
  bind (resolve_tab h) (fun tab =>
    match usable_id tab with
    | None => Rejected no_tab_error
    | Some id =>
      bind (executeScript h id) (fun results =>
        Fulfilled
          match nth_error results 0 with
          | Some r => match result r with Some l => l | None => [] end
          | None => []
          end)
    end).

End WithBuiltins.

End Orchestrator.

Import Orchestrator.

(* ================================================================== *)
(** ** storage.ts: the transaction cache *)

Module Storage.

Local Open Scope regex_scope.

(** *** Numbers and JSON text *)

Local Open Scope N_scope.

Definition digit_char (d : N) : code :=
  if N.ltb d 10 then (48 + d)%N else (87 + d)%N.

Fixpoint digits_of (fuel : nat) (radix n : N) (acc : jsstring) : jsstring :=
  match fuel with
  | O => acc
  | S fuel' =>
    let acc' := digit_char (n mod radix) :: acc in
    if N.eqb (n / radix) 0 then acc'
    else digits_of fuel' radix (n / radix) acc'
  end.

(** [n.toString(radix)] for a non-negative integer. *)
Definition to_radix (radix n : N) : jsstring :=
  digits_of (S (N.to_nat (N.log2 n))) radix n [].

(** The decimal text of an integer, as template literals and
    [JSON.stringify] print it (integers below 1e21). *)
Definition number_text (z : Z) : jsstring :=
  if Z.ltb z 0 then 45%N :: to_radix 10 (Z.to_N (- z))
  else to_radix 10 (Z.to_N z).

(** [parseInt] on a string of decimal digits. *)
Definition parseInt_digits (s : jsstring) : N :=
  fold_left (fun acc c => (acc * 10 + (c - 48))%N) s 0%N.

Definition hex4 (c : code) : jsstring :=
  [digit_char (c / 4096 mod 16); digit_char (c / 256 mod 16);
   digit_char (c / 16 mod 16); digit_char (c mod 16)]%N.

(** [\uXXXX] *)
Definition unicode_escape (c : code) : jsstring :=
  92%N :: 117%N :: hex4 c.

Definition high_surrogate (c : code) : bool := in_range 55296 56319 c.
Definition low_surrogate (c : code) : bool := in_range 56320 57343 c.

(** The body of QuoteJSONString. *)
Fixpoint quote_units (s : jsstring) : jsstring :=
  match s with
  | [] => []
  | c :: s' =>
    if N.eqb c 8 then lit "\b" ++ quote_units s'
    else if N.eqb c 9 then lit "\t" ++ quote_units s'
    else if N.eqb c 10 then lit "\n" ++ quote_units s'
    else if N.eqb c 12 then lit "\f" ++ quote_units s'
    else if N.eqb c 13 then lit "\r" ++ quote_units s'
    else if N.eqb c 34 then [92; 34]%N ++ quote_units s'
    else if N.eqb c 92 then [92; 92]%N ++ quote_units s'
    else if N.ltb c 32 then unicode_escape c ++ quote_units s'
    else if high_surrogate c then
      match s' with
      | d :: s'' =>
        if low_surrogate d then c :: d :: quote_units s''
        else unicode_escape c ++ quote_units s'
      | [] => unicode_escape c
      end
    else if low_surrogate c then unicode_escape c ++ quote_units s'
    else c :: quote_units s'
  end.

Definition quote (s : jsstring) : jsstring :=
  34%N :: quote_units s ++ [34%N].

Fixpoint join (sep : jsstring) (l : list jsstring) : jsstring :=
  match l with
  | [] => []
  | [x] => x
  | x :: l' => x ++ sep ++ join sep l'
  end.

Definition stringify_transaction (t : Transaction) : jsstring :=
  lit "{" ++
  quote (lit "customer") ++ lit ":" ++ quote (customer t) ++ lit "," ++
  quote (lit "date") ++ lit ":" ++ quote (date t) ++ lit "," ++
  quote (lit "amount") ++ lit ":" ++ quote (amount t) ++ lit "," ++
  quote (lit "transactionId") ++ lit ":" ++ quote (transactionId t) ++
  lit "}".

(** [JSON.stringify(data)] for a list of transactions. *)
Definition JSON_stringify_data (d : list Transaction) : jsstring :=
  lit "[" ++ join (lit ",") (List.map stringify_transaction d) ++ lit "]".

Local Close Scope N_scope.

(** *** Entries and options *)

Record CacheEntry (D : Type) : Type := {
  data : D;
  timestamp : Z;
  url : option jsstring;
  hash : option jsstring
}.

Arguments data {D} c.
Arguments timestamp {D} c.
Arguments url {D} c.
Arguments hash {D} c.

(** [JSON.stringify(entry)]; a property that is [undefined] is left out. *)
Definition JSON_stringify_entry (e : CacheEntry (list Transaction))
  : jsstring :=
  lit "{" ++
  quote (lit "data") ++ lit ":" ++ JSON_stringify_data (data e) ++ lit "," ++
  quote (lit "timestamp") ++ lit ":" ++ number_text (timestamp e) ++
  match url e with
  | Some u => lit "," ++ quote (lit "url") ++ lit ":" ++ quote u
  | None => []
  end ++
  match hash e with
  | Some h => lit "," ++ quote (lit "hash") ++ lit ":" ++ quote h
  | None => []
  end ++
  lit "}".

(** The options as given to the constructor ([None]: not given). *)
Record StorageOptions : Type := {
  ttl : option Z;
  maxEntries : option Z;
  enableCompression : option bool
}.

(** The options once the constructor has filled in the defaults. *)
Record Options : Type := {
  o_ttl : Z;
  o_maxEntries : Z;
  o_enableCompression : bool
}.

Definition defaultTTL : Z := 10 * 60 * 1000.
Definition maxMemoryEntries : Z := 50.
Definition storageKey : jsstring := lit "paytracker_cache".

(** [n || d] on numbers. *)
Definition num_or (n : option Z) (d : Z) : Z :=
  match n with
  | Some v => if Z.eqb v 0 then d else v
  | None => d
  end.

Definition constructor (options : StorageOptions) : Options :=
  {| o_ttl := num_or (ttl options) defaultTTL;
     o_maxEntries := num_or (maxEntries options) maxMemoryEntries;
     o_enableCompression :=
       match enableCompression options with Some b => b | None => false end |}.

(** The built-ins the store calls, beyond strings and patterns. *)
Record Engine : Type := {
  (** [new URL(url).pathname + new URL(url).search]; [None] when the
      constructor throws *)
  URL_path_search : jsstring -> option jsstring;
  (** [JSON.parse] on the text of a list of transactions and on the text
      of an entry; [None] when it throws *)
  JSON_parse_data : jsstring -> option (list Transaction);
  JSON_parse_entry : jsstring -> option (CacheEntry (list Transaction));
  (** the longest string the engine builds; [repeat] throws beyond it *)
  max_string_length : N
}.

(** What the host answers during one call of the store: the clock and the
    query for the active tab.  A call reads the clock once: every
    [Date.now()] of one call of [set], [get] or [cleanup] returns [now]. *)
Record Env : Type := {
  now : Z;
  active_tabs : outcome (list Tab)
}.

(** An object of type [Transaction[]] is known by its address in the
    heap; two references are the same object when the addresses are
    equal. *)
Definition ref := nat.
Definition heap := list (list Transaction).

Definition deref (h : heap) (r : ref) : list Transaction := nth r h [].
Definition alloc (h : heap) (d : list Transaction) : heap * ref :=
  (h ++ [d], length h).

(** A [Map] with string keys, in insertion order. *)
Definition jsmap (V : Type) := list (jsstring * V).

Fixpoint map_set {V} (k : jsstring) (v : V) (m : jsmap V) : jsmap V :=
  match m with
  | [] => [(k, v)]
  | (k', v') :: m' =>
    if Js.eqb k' k then (k, v) :: m' else (k', v') :: map_set k v m'
  end.

Definition map_delete {V} (k : jsstring) (m : jsmap V) : jsmap V :=
  filter (fun kv => negb (Js.eqb (fst kv) k)) m.

Fixpoint map_get {V} (k : jsstring) (m : jsmap V) : option V :=
  match m with
  | [] => None
  | (k', v) :: m' => if Js.eqb k' k then Some v else map_get k m'
  end.

(** The store, the heap of the payloads and the persistent storage of the
    host: [chrome.storage.local], where the keys of the store hold the
    strings it writes and where a write or a removal takes effect. *)
Record State : Type := {
  objects : heap;
  memoryCache : jsmap (CacheEntry ref);
  local : jsmap jsstring
}.

(** [/(.)\1+/g] *)
Definition re_runs : regex :=
  Group 1 (CharSet dot) +++ Quant 1 None (BackRef 1).

(** [/(.)\d+\1/g] *)
Definition re_packed : regex :=
  Group 1 (CharSet dot) +++ Quant 1 None (CharSet digit) +++ BackRef 1.

(** [/[^a-zA-Z0-9]/g] *)
Definition re_not_alnum : regex := CharSet (fun c => negb (alnum c)).

(** [s.split('?')[0]] *)
Fixpoint before_question (s : jsstring) : jsstring :=
  match s with
  | [] => []
  | c :: s' => if N.eqb c 63%N then [] else c :: before_question s'
  end.

(** [s.replace(pat, '')] for a string pattern: the first occurrence goes. *)
Fixpoint remove_first (pat s : jsstring) : jsstring :=
  if startsWith pat s then skipn (length pat) s
  else
    match s with
    | [] => []
    | c :: s' => c :: remove_first pat s'
    end.

(** [hash & hash], that is ToInt32. *)
Definition to_int32 (z : Z) : Z :=
  ((z + 2147483648) mod 4294967296 - 2147483648)%Z.

Section WithEngine.

Variable E : Engine.
Variable options : Options.

Definition generateKey (url : jsstring) (contentHash : option jsstring)
  : jsstring :=
  let suffixed (base : jsstring) :=
    match contentHash with
    | Some h => if truthy h then base ++ lit "_" ++ h else base
    | None => base
    end in
  match URL_path_search E url with
  | Some urlKey => suffixed urlKey
  | None => suffixed (replace_all re_not_alnum (fun _ => lit "_") url)
  end.

Definition generateContentHash (d : list Transaction) : jsstring :=
  let str := JSON_stringify_data d in
  let hash :=
    fold_left
      (fun hash char =>
         to_int32 (to_int32 (hash * 32) - hash + Z.of_N char)%Z)
      str 0%Z in
  to_radix 36 (Z.to_N (Z.abs hash)).

Definition ttl_ms : Z := num_or (Some (o_ttl options)) defaultTTL.
Definition cap : Z := num_or (Some (o_maxEntries options)) maxMemoryEntries.

Definition isExpired {D} (now : Z) (entry : CacheEntry D) : bool :=
  (ttl_ms <? now - timestamp entry)%Z.

Definition compress (text : jsstring) : jsstring :=
  if negb (o_enableCompression options) then text
  else
    replace_all re_runs
      (fun m =>
         if Nat.ltb 3 (length (m_text m))
         then capture m 1 ++ number_text (Z.of_nat (length (m_text m))) ++
              capture m 1
         else m_text m)
      text.

(** The count that [decompress] reads in a match: [match.slice(1, -1)]
    through [parseInt]. *)
Definition packed_count (m : mresult) : N :=
  parseInt_digits (removelast (tl (m_text m))).

(** [None] when [repeat] throws a RangeError. *)
Definition decompress (text : jsstring) : option jsstring :=
  if negb (o_enableCompression options) then Some text
  else
    let ms := matches re_packed text in
    if existsb (fun m => N.ltb (max_string_length E) (packed_count m)) ms
    then None
    else
      Some (splice
              (fun m => repeat_string (capture m 1) (N.to_nat (packed_count m)))
              ms 0 text).

Definition getCurrentUrl (env : Env) : jsstring :=
  match active_tabs env with
  | Fulfilled (tab :: _) =>
    match tab_url tab with
    | Some u => or_else u (lit "default")
    | None => lit "default"
    end
  | _ => lit "default"
  end.

(** The stable sort of [entries.sort((a, b) => a[1].timestamp -
    b[1].timestamp)]. *)
Fixpoint insert_by_timestamp {D} (x : jsstring * CacheEntry D)
    (l : list (jsstring * CacheEntry D)) : list (jsstring * CacheEntry D) :=
  match l with
  | [] => [x]
  | y :: l' =>
    if (timestamp (snd x) <? timestamp (snd y))%Z then x :: l
    else y :: insert_by_timestamp x l'
  end.

Definition sort_by_timestamp {D} (l : list (jsstring * CacheEntry D))
  : list (jsstring * CacheEntry D) :=
  fold_left (fun sorted x => insert_by_timestamp x sorted) l [].

Definition cleanupMemoryCache {D} (now : Z) (m : jsmap (CacheEntry D))
  : jsmap (CacheEntry D) :=
  let m := filter (fun kv => negb (isExpired now (snd kv))) m in
  if (cap <? Z.of_nat (length m))%Z then
    let entries := sort_by_timestamp m in
    let toDelete :=
      firstn (Z.to_nat (Z.of_nat (length entries) - cap)) entries in
    fold_left (fun m kv => map_delete (fst kv) m) toDelete m
  else m.

Definition setStorage (key value : jsstring) (s : jsmap jsstring)
  : jsmap jsstring :=
  map_set key value s.

Definition getStorage (key : jsstring) (s : jsmap jsstring)
  : option jsstring :=
  map_get key s.

Definition removeStorage (key : jsstring) (s : jsmap jsstring)
  : jsmap jsstring :=
  map_delete key s.

Definition getStorageKeys (s : jsmap jsstring) : list jsstring :=
  filter (startsWith storageKey) (List.map fst s).

(** [url || fallback] on a parameter that may be left out. *)
Definition url_or (url : option jsstring) (fallback : jsstring) : jsstring :=
  match url with
  | Some u => or_else u fallback
  | None => fallback
  end.

Definition url_given (url : option jsstring) : bool :=
  match url with Some u => truthy u | None => false end.

(** [set(data, url)]; [None] when the deep clone throws, in which case
    nothing has been written. *)
Definition set (env : Env) (d : ref) (url : option jsstring) (st : State)
  : option State :=
  let currentUrl := or_else (url_or url (getCurrentUrl env)) (lit "default") in
  let contentHash := generateContentHash (deref (objects st) d) in
  let key := generateKey currentUrl (Some contentHash) in
  match JSON_parse_data E (JSON_stringify_data (deref (objects st) d)) with
  | None => None
  | Some clone =>
    let (objects', r) := alloc (objects st) clone in
    let entry := {| data := r; timestamp := now env;
                    url := Some currentUrl; hash := Some contentHash |} in
    let memory := cleanupMemoryCache (now env)
                    (map_set key entry (memoryCache st)) in
    let compressedData :=
      compress (JSON_stringify_entry
                  {| data := clone; timestamp := now env;
                     url := Some currentUrl; hash := Some contentHash |}) in
    let local' :=
      setStorage (storageKey ++ lit "_latest") compressedData
        (setStorage (storageKey ++ lit "_" ++ key) compressedData
           (local st)) in
    Some {| objects := objects'; memoryCache := memory; local := local' |}
  end.

(** [entry.url === currentUrl || !url] *)
Definition url_matches {D} (url : option jsstring) (currentUrl : jsstring)
    (entry : CacheEntry D) : bool :=
  match Storage.url entry with
  | Some u => Js.eqb u currentUrl
  | None => false
  end || negb (url_given url).

(** The loop of [get] over the keys of the persistent storage.  A key
    whose text does not decode makes the loop throw, and [get] answer
    [null]. *)
Fixpoint get_persistent (env : Env) (url : option jsstring)
    (currentUrl : jsstring) (keys : list jsstring) (st : State)
  : option ref * State :=
  match keys with
  | [] => (None, st)
  | key :: keys' =>
    let shouldCheck :=
      if url_given url then includes (before_question currentUrl) key
      else startsWith storageKey key in
    let skip := get_persistent env url currentUrl keys' st in
    if shouldCheck then
      match getStorage key (local st) with
      | Some compressedData =>
        if truthy compressedData then
          match decompress compressedData with
          | None => (None, st)
          | Some text =>
            match JSON_parse_entry E text with
            | None => (None, st)
            | Some entry =>
              if negb (isExpired (now env) entry) &&
                 url_matches url currentUrl entry
              then
                let (objects', r) := alloc (objects st) (data entry) in
                (Some r,
                 {| objects := objects';
                    memoryCache :=
                      map_set (remove_first (storageKey ++ lit "_") key)
                        {| data := r; timestamp := timestamp entry;
                           url := Storage.url entry;
                           hash := hash entry |}
                        (memoryCache st);
                    local := local st |})
              else skip
            end
          end
        else skip
      | None => skip
      end
    else skip
  end.

(** [get(url)]: the reference it returns ([None] for [null]) and the state
    it leaves. *)
Definition get (env : Env) (url : option jsstring) (st : State)
  : option ref * State :=
  let currentUrl := url_or url (getCurrentUrl env) in
  match
    find (fun kv => url_matches url currentUrl (snd kv) &&
                    negb (isExpired (now env) (snd kv)))
         (memoryCache st)
  with
  | Some (_, entry) => (Some (data entry), st)
  | None => get_persistent env url currentUrl (getStorageKeys (local st)) st
  end.

Definition has (env : Env) (url : option jsstring) (st : State)
  : bool * State :=
  match get env url st with
  | (Some _, st') => (true, st')
  | (None, st') => (false, st')
  end.

(** One step of the loop of [cleanup] over the persistent storage. *)
Definition cleanup_key (env : Env) (s : jsmap jsstring) (key : jsstring)
  : jsmap jsstring :=
  match getStorage key s with
  | Some compressedData =>
    if truthy compressedData then
      match decompress compressedData with
      | None => removeStorage key s
      | Some text =>
        match JSON_parse_entry E text with
        | None => removeStorage key s
        | Some entry =>
          if isExpired (now env) entry then removeStorage key s else s
        end
      end
    else s
  | None => s
  end.

Definition cleanup (env : Env) (st : State) : State :=
  {| objects := objects st;
     memoryCache := cleanupMemoryCache (now env) (memoryCache st);
     local := fold_left (cleanup_key env) (getStorageKeys (local st))
                (local st) |}.

End WithEngine.

End Storage.

Import Storage.

(* ================================================================== *)
(** ** storage.ts: clearing the cache *)

Module Clearing.

(** [clear(url)]: with a URL, the entries of the memory tier filed for it
    and the keys of the store that include the URL up to its query; with
    no URL, everything the store owns. *)
Definition clear (url : option jsstring) (st : State) : State :=
  if url_given url then
    let u := match url with Some u => u | None => [] end in
    let keys :=
      filter (fun key =>
                match map_get key (memoryCache st) with
                | Some entry =>
                  match Storage.url entry with
                  | Some eu => Js.eqb eu u
                  | None => false
                  end
                | None => false
                end)
             (List.map fst (memoryCache st)) in
    {| objects := objects st;
       memoryCache :=
         fold_left (fun m key => map_delete key m) keys (memoryCache st);
       local :=
         fold_left
           (fun s key =>
              if includes (before_question u) key then removeStorage key s
              else s)
           (getStorageKeys (local st)) (local st) |}
  else
    {| objects := objects st;
       memoryCache := [];
       local := fold_left (fun s key => removeStorage key s)
                  (getStorageKeys (local st)) (local st) |}.

End Clearing.

Import Clearing.

(* ================================================================== *)
(** ** storage.ts: statistics *)

Module Statistics.

(** A number as [getStats] compares it.  The time stamps of the store are
    integers kept exact; one that is beyond the range of the doubles
    stands for the infinity that [JSON.parse] reads in its digits. *)
Inductive number : Type :=
| NegInfinity
| Finite (z : Z)
| Infinity.

(** [Number.MAX_VALUE] *)
Definition max_double : Z := 2 ^ 1024 - 2 ^ 971.

Definition number_of (t : Z) : number :=
  if (max_double <? t)%Z then Infinity
  else if (t <? - max_double)%Z then NegInfinity
  else Finite t.

(** [a <= b] *)
Definition number_leb (a b : number) : bool :=
  match a, b with
  | NegInfinity, _ => true
  | _, Infinity => true
  | Finite x, Finite y => (x <=? y)%Z
  | _, _ => false
  end.

Definition Math_min (a b : number) : number :=
  if number_leb a b then a else b.

Definition Math_max (a b : number) : number :=
  if number_leb a b then b else a.

(** A [Date]: its time value, or the invalid date. *)
Inductive date_value : Type :=
| Valid_Date (t : Z)
| Invalid_Date.

(** [new Date(n)]: a time value beyond 8.64e15 ms from the epoch, or an
    infinity, gives the invalid date. *)
Definition new_Date (n : number) : date_value :=
  match n with
  | Finite t =>
    if (Z.abs t <=? 8640000000000000)%Z then Valid_Date t else Invalid_Date
  | _ => Invalid_Date
  end.

(** What [getStats] returns; [None] stands for [undefined]. *)
Record Stats : Type := {
  memoryEntries : nat;
  persistentEntries : nat;
  totalSize : nat;
  oldestEntry : option date_value;
  newestEntry : option date_value
}.

Section WithStringify.

(** [JSON.stringify(entry).length] for an entry of the memory tier, whose
    data are in the heap; the text of its time stamp, which need not be an
    integer below 1e21, is the engine's. *)
Variable stringify_length : heap -> CacheEntry ref -> nat.

Definition getStats (st : State) : Stats :=
  let storageKeys := getStorageKeys (local st) in
  let entries := List.map snd (memoryCache st) in
  let totalSize :=
    fold_left
      (fun total entry => total + stringify_length (objects st) entry)
      entries 0 in
  let oldestTimestamp :=
    fold_left
      (fun oldest entry => Math_min oldest (number_of (timestamp entry)))
      entries Infinity in
  let newestTimestamp :=
    fold_left
      (fun newest entry => Math_max newest (number_of (timestamp entry)))
      entries (Finite 0) in
  {| memoryEntries := length (memoryCache st);
     persistentEntries := length storageKeys;
     totalSize := totalSize;
     oldestEntry := match oldestTimestamp with
                    | Infinity => None
                    | n => Some (new_Date n)
                    end;
     newestEntry := if negb (number_leb newestTimestamp (Finite 0))
                    then Some (new_Date newestTimestamp)
                    else None |}.

End WithStringify.

End Statistics.

Import Statistics.

(* ================================================================== *)
(** ** utils.ts *)

Module Utils.

(** The global pattern of one double quote. *)
Definition re_quote : regex := CharSet (N.eqb 34%N).

Definition dquote : jsstring := [34%N].

Definition escapeCSVValue (value : jsstring) : jsstring :=
  if includes (lit ",") value || includes dquote value ||
     includes [10%N] value
  then dquote ++ replace_all re_quote (fun _ => dquote ++ dquote) value ++
       dquote
  else value.

(** [formatCacheAge(date)] at the time [now]; [date] is [date.getTime()].
    The division is floored, the remainder has the sign of the age. *)
Definition ageHours (now date : Z) : Z := ((now - date) / (1000 * 60 * 60))%Z.

Definition ageMinutes (now date : Z) : Z :=
  (Z.rem (now - date) (1000 * 60 * 60) / (1000 * 60))%Z.

Definition formatCacheAge (now date : Z) : jsstring :=
  if (0 <? ageHours now date)%Z
  then number_text (ageHours now date) ++ lit "h " ++
       number_text (ageMinutes now date) ++ lit "m ago"
  else number_text (ageMinutes now date) ++ lit "m ago".

(** The two kinds of window. *)
Inductive surface : Type := popup | detached.


Definition surface_eqb (a b : surface) : bool :=
  match a, b with
  | popup, popup | detached, detached => true
  | _, _ => false
  end.





(** A value that may or may not be a string. *)
Inductive jsvalue : Type :=
| JString (s : jsstring)
| JOther.

(** An object as [isValidTransactionData] reads it: the four properties,
    each of them possibly missing. *)
Record AnyTransaction : Type := {
  any_customer : option jsvalue;
  any_date : option jsvalue;
  any_amount : option jsvalue;
  any_transactionId : option jsvalue
}.

Definition is_string (v : option jsvalue) : bool :=
  match v with Some (JString _) => true | _ => false end.

Definition string_of (v : option jsvalue) : jsstring :=
  match v with Some (JString s) => s | _ => [] end.

(** [isValidTransactionData(data)]; [None] stands for [null] and
    [undefined]. *)
Definition isValidTransactionData (data : option AnyTransaction) : bool :=
  match data with
  | Some d =>
    is_string (any_customer d) && is_string (any_date d) &&
    is_string (any_amount d) && is_string (any_transactionId d)
  | None => false
  end.

Definition sanitizeTransactionData (transactions : list (option AnyTransaction))
  : list Transaction :=
  List.map
    (fun tx =>
       match tx with
       | Some d =>
         {| customer := trim (string_of (any_customer d));
            date := trim (string_of (any_date d));
            amount := trim (string_of (any_amount d));
            transactionId := trim (string_of (any_transactionId d)) |}
       | None => {| customer := []; date := []; amount := [];
                    transactionId := [] |}
       end)
    (filter isValidTransactionData transactions).

Section WithLowerCase.

(** [String.prototype.toLowerCase] *)
Variable toLowerCase : jsstring -> jsstring.

(** The predicate of the [filter] of [filterTransactions]. *)
Definition mentions_term (term : jsstring) (tx : Transaction) : bool :=
  includes term (toLowerCase (customer tx)) ||
  includes term (toLowerCase (amount tx)) ||
  includes term (toLowerCase (transactionId tx)) ||
  includes term (toLowerCase (date tx)).

Definition filterTransactions (transactions : list Transaction)
    (searchTerm : jsstring) : list Transaction :=
  if negb (truthy (trim searchTerm)) then transactions
  else filter (mentions_term (toLowerCase searchTerm)) transactions.

End WithLowerCase.

End Utils.

Import Utils.

(* ================================================================== *)
(** ** The popup component: handing the data over between the windows *)

Module Handoff.

(** A snapshot as stored under [popupModeData] or [detachedModeData];
    a property may be missing. *)
Record ModeData : Type := {
  md_transactions : option (list Transaction);
  md_searchTerm : option jsstring;
  md_privacyMode : option bool;
  md_cloverMode : option bool
}.

(** What [chrome.storage.local] holds for the hand-over. *)
Record SyncData : Type := {
  lastSyncMode : option surface;
  popupModeData : option ModeData;
  detachedModeData : option ModeData
}.

(** The variables of the component that the hand-over sets. *)
Record Ui : Type := {
  transactions : list Transaction;
  searchTerm : jsstring;
  privacyMode : bool;
  cloverMode : bool;
  fromCache : bool
}.

(** [data.transactions && data.transactions.length > 0] *)
Definition has_transactions (data : ModeData) : bool :=
  match md_transactions data with
  | Some (_ :: _) => true
  | _ => false
  end.

Definition transactions_of (data : ModeData) : list Transaction :=
  match md_transactions data with Some l => l | None => [] end.

Definition defined_or (v : option bool) (current : bool) : bool :=
  match v with Some b => b | None => current end.

Definition is_mode (m : option surface) (kind : surface) : bool :=
  match m with Some k => surface_eqb k kind | None => false end.

(** The snapshot taken over as a whole. *)
Definition adopt (data : ModeData) (ui : Ui) : Ui :=
  {| transactions := transactions_of data;
     searchTerm := match md_searchTerm data with
                   | Some s => or_else s []
                   | None => []
                   end;
     privacyMode := defined_or (md_privacyMode data) (privacyMode ui);
     cloverMode := defined_or (md_cloverMode data) (cloverMode ui);
     fromCache := true |}.

(** The fallback of the detached window to its own snapshot. *)
Definition adopt_own (data : ModeData) (ui : Ui) : Ui :=
  {| transactions := if has_transactions data then transactions_of data
                     else transactions ui;
     searchTerm := match md_searchTerm data with
                   | Some s => if truthy s then s else searchTerm ui
                   | None => searchTerm ui
                   end;
     privacyMode := defined_or (md_privacyMode data) (privacyMode ui);
     cloverMode := defined_or (md_cloverMode data) (cloverMode ui);
     fromCache := if has_transactions data then true else fromCache ui |}.

(** The cross-mode part of [onMount]. *)
Definition mount_sync (isDetached : bool) (syncData : SyncData) (ui : Ui)
  : Ui :=
  if isDetached then
    let from_popup :=
      match popupModeData syncData with
      | Some data =>
        is_mode (lastSyncMode syncData) popup && has_transactions data
      | None => false
      end in
    match popupModeData syncData with
    | Some data =>
      if from_popup then adopt data ui
      else
        match detachedModeData syncData with
        | Some own => adopt_own own ui
        | None => ui
        end
    | None =>
      match detachedModeData syncData with
      | Some own => adopt_own own ui
      | None => ui
      end
    end
  else
    match detachedModeData syncData with
    | Some data =>
      if is_mode (lastSyncMode syncData) detached && has_transactions data &&
         Nat.eqb (length (transactions ui)) 0
      then adopt data ui
      else ui
    | None => ui
    end.

Definition snapshot (ui : Ui) : ModeData :=
  {| md_transactions := Some (transactions ui);
     md_searchTerm := Some (searchTerm ui);
     md_privacyMode := Some (privacyMode ui);
     md_cloverMode := Some (cloverMode ui) |}.

(** What [syncDataBetweenModes(sourceMode)] writes for the hand-over,
    once its write to the cache has returned. *)
Definition syncDataBetweenModes (sourceMode : surface) (ui : Ui)
    (s : SyncData) : SyncData :=
  {| lastSyncMode := Some sourceMode;
     popupModeData := match sourceMode with
                      | popup => Some (snapshot ui)
                      | detached => popupModeData s
                      end;
     detachedModeData := match sourceMode with
                         | detached => Some (snapshot ui)
                         | popup => detachedModeData s
                         end |}.

(** What [detachWindow] writes before it opens the detached window, when
    there are transactions to hand over. *)
Definition detachWindow_sync (ui : Ui) (s : SyncData) : SyncData :=
  if Nat.ltb 0 (length (transactions ui)) then
    let s' := syncDataBetweenModes popup ui s in
    {| lastSyncMode := lastSyncMode s';
       popupModeData := popupModeData s';
       detachedModeData := Some (snapshot ui) |}
  else s.

(** What [reattachWindow] leaves: the snapshot it writes is removed
    again. *)
Definition reattachWindow_sync (ui : Ui) (s : SyncData) : SyncData :=
  let s' := syncDataBetweenModes detached ui s in
  {| lastSyncMode := lastSyncMode s';
     popupModeData := popupModeData s';
     detachedModeData := None |}.

(** [loadCachedData]: in the popup its own snapshot comes first, then what
    [transactionCache.get()] answers, given here as [cached]. *)
Definition loadCachedData (isDetached : bool) (popupData : option ModeData)
    (cached : option (list Transaction)) (ui : Ui) : Ui :=
  let from_cache :=
    match cached with
    | Some (tx :: l) =>
      {| transactions := tx :: l; searchTerm := searchTerm ui;
         privacyMode := privacyMode ui; cloverMode := cloverMode ui;
         fromCache := true |}
    | _ => ui
    end in
  if negb isDetached then
    match popupData with
    | Some data =>
      match md_transactions data with
      | Some l =>
        {| transactions := l;
           searchTerm := match md_searchTerm data with
                         | Some s => if truthy s then s else searchTerm ui
                         | None => searchTerm ui
                         end;
           privacyMode := defined_or (md_privacyMode data) (privacyMode ui);
           cloverMode := defined_or (md_cloverMode data) (cloverMode ui);
           fromCache := true |}
      | None => from_cache
      end
    | None => from_cache
    end
  else from_cache.

(** What [onMount] makes of the variables: the cross-mode part, then
    [loadCachedData] when there are still no transactions. *)
Definition mount (isDetached : bool) (syncData : SyncData)
    (cached : option (list Transaction)) (ui : Ui) : Ui :=
  let ui := mount_sync isDetached syncData ui in
  if Nat.eqb (length (transactions ui)) 0
  then loadCachedData isDetached (popupModeData syncData) cached ui
  else ui.

End Handoff.

Import Handoff.

(* ================================================================== *)
(** * Properties *)

(** ** The matcher *)

Section MatcherSound.

Variable m : mstate -> cont -> option mstate.
Variable R : mstate -> mstate -> Prop.
Hypothesis m_sound : forall x c z,
  m x c = Some z -> exists y, R x y /\ c y = Some z.

Lemma repeat_matcher_sound inner fuel : forall lo hi x c z,
  repeat_matcher m inner fuel lo hi x c = Some z ->
  exists y, rep_rel R inner lo hi x y /\ c y = Some z.
Proof.
  induction fuel as [|fuel IH]; intros lo hi x c z H; simpl in H.
  - discriminate.
  - assert (Hstep : forall d0,
        d0 = (fun y : mstate =>
                if Nat.eqb lo 0 && Nat.eqb (pos y) (pos x) then None
                else repeat_matcher m inner fuel (Nat.pred lo)
                       (option_map Nat.pred hi) y c) ->
        hi <> Some 0 ->
        m (MState (pos x) (rest x) (clear_captures inner (caps x))) d0
          = Some z ->
        exists y, rep_rel R inner lo hi x y /\ c y = Some z).
    { intros d0 Hd Hhi Hm. apply m_sound in Hm.
      destruct Hm as (y & HR & Hdy). subst d0.
      destruct (Nat.eqb lo 0 && Nat.eqb (pos y) (pos x)) eqn:E;
        [discriminate|].
      apply IH in Hdy. destruct Hdy as (y' & Hrep & Hc).
      exists y'. split; [|exact Hc].
      eapply rep_step; eauto.
      intros Hlo Hpos. subst lo. rewrite Hpos, !Nat.eqb_refl in E.
      discriminate. }
    assert (Hstop : lo = 0 \/ hi = Some 0 -> c x = Some z ->
        exists y, rep_rel R inner lo hi x y /\ c y = Some z).
    { intros Hc Hx. exists x. split; [apply rep_stop; exact Hc|exact Hx]. }
    destruct hi as [[|h]|].
    + apply Hstop; auto.
    + destruct (Nat.eqb lo 0) eqn:Elo.
      * destruct (m _ _) eqn:Em in H.
        -- inversion H; subst.
           apply (Hstep _ eq_refl); [discriminate|exact Em].
        -- apply Nat.eqb_eq in Elo. apply Hstop; auto.
      * apply (Hstep _ eq_refl); [discriminate|exact H].
    + destruct (Nat.eqb lo 0) eqn:Elo.
      * destruct (m _ _) eqn:Em in H.
        -- inversion H; subst.
           apply (Hstep _ eq_refl); [discriminate|exact Em].
        -- apply Nat.eqb_eq in Elo. apply Hstop; auto.
      * apply (Hstep _ eq_refl); [discriminate|exact H].
Qed.

End MatcherSound.

Lemma matcher_sound (r : regex) : forall x c z,
  matcher r x c = Some z -> exists y, run r x y /\ c y = Some z.
Proof.
  induction r as [|p|r1 IH1 r2 IH2|n r IH|n|lo hi r IH| |];
    intros x c z H.
  - simpl in *. exists x. auto.
  - simpl in *. destruct (rest x) as [|ch tl] eqn:E; [discriminate|].
    destruct (p ch) eqn:Ep; [|discriminate].
    exists (advance 1 x). split; [|exact H]. exists ch, tl. auto.
  - simpl in *. apply IH1 in H. destruct H as (y & H1 & H).
    apply IH2 in H. destruct H as (y' & H2 & H).
    exists y'. split; [exists y; auto|exact H].
  - simpl in *. apply IH in H. destruct H as (y & H1 & H).
    eexists. split; [exists y; split; [exact H1|reflexivity]|exact H].
  - simpl in *. destruct (caps x n) as [w|] eqn:E.
    + destruct (startsWith w (rest x)) eqn:Ew; [|discriminate].
      exists (advance (length w) x). auto.
    + exists x. auto.
  - exact (@repeat_matcher_sound (matcher r) (run r) IH _ _ _ _ _ _ _ H).
  - simpl in *. destruct (Nat.eqb (pos x) 0) eqn:E; [|discriminate].
    apply Nat.eqb_eq in E. exists x. auto.
  - simpl in *. destruct (rest x) eqn:E; [|discriminate]. exists x. auto.
Qed.

Lemma startsWith_app (w s : jsstring) :
  startsWith w s = true -> s = w ++ skipn (length w) s.
Proof.
  revert s. induction w as [|a w IH]; intros s H; simpl in *.
  - reflexivity.
  - destruct s as [|b s]; [discriminate|].
    apply andb_prop in H. destruct H as [Hab Hw].
    apply N.eqb_eq in Hab. subst b. simpl. f_equal. auto.
Qed.

(** The text consumed between two states. *)
Definition consumed (w : jsstring) (x y : mstate) : Prop :=
  rest x = w ++ rest y /\ pos y = pos x + length w.

Lemma consumed_firstn w x y :
  consumed w x y -> firstn (pos y - pos x) (rest x) = w.
Proof.
  intros [Hr Hp]. rewrite Hr, Hp.
  replace (pos x + length w - pos x) with (length w + 0) by lia.
  rewrite firstn_app_2. simpl. apply app_nil_r.
Qed.

(** A quantified character class consumes a string of the class whose
    length is within the bounds, and leaves the captures alone. *)
Lemma rep_charset (p : code -> bool) lo hi x y :
  rep_rel (run (CharSet p)) [] lo hi x y ->
  match hi with Some h => lo <= h | None => True end ->
  exists w, consumed w x y /\ Forall (fun c => p c = true) w /\
            lo <= length w /\
            match hi with Some h => length w <= h | None => True end /\
            caps y = caps x.
Proof.
  induction 1 as [lo hi x Hstop|lo hi x y z Hhi HR Hprog Hrep IH];
    intros Hwf.
  - exists []. unfold consumed. rewrite Nat.add_0_r. simpl.
    repeat split; auto.
    + destruct Hstop as [->| ->]; [lia|lia].
    + destruct hi; lia.
  - destruct HR as (ch & tl & Hrest & Hp & ->). simpl in Hrest.
    destruct IH as (w & [Hr Hpos] & Hall & Hlo & Hhi' & Hcaps).
    { destruct hi as [h|]; simpl; [|exact I]. destruct h; [congruence|].
      simpl. lia. }
    simpl in Hr, Hpos, Hcaps. rewrite Hrest in Hr. simpl in Hr.
    exists (ch :: w). unfold consumed. simpl.
    repeat split.
    + rewrite Hrest. f_equal. destruct tl; simpl in Hr; exact Hr.
    + lia.
    + constructor; auto.
    + lia.
    + destruct hi as [h|]; [|exact I]. destruct h; [congruence|].
      simpl in Hhi'. lia.
    + exact Hcaps.
Qed.

(** Iterated back-references leave the captures alone. *)
Lemma rep_backref n lo hi x y :
  rep_rel (run (BackRef n)) [] lo hi x y -> caps y = caps x.
Proof.
  induction 1 as [lo hi x Hstop|lo hi x y z Hhi HR Hprog Hrep IH].
  - reflexivity.
  - rewrite IH. simpl in HR.
    change (clear_captures [] (caps x) n) with (caps x n) in HR.
    destruct (caps x n) as [w|].
    + destruct HR as [_ ->]. reflexivity.
    + subst y. reflexivity.
Qed.

Lemma run_group_quant_charset n lo hi p x y :
  run (Group n (Quant lo hi (CharSet p))) x y ->
  match hi with Some h => lo <= h | None => True end ->
  exists w, consumed w x y /\ Forall (fun c => p c = true) w /\
            lo <= length w /\
            match hi with Some h => length w <= h | None => True end /\
            caps y = set_capture n w (caps x).
Proof.
  intros (m & Hrun & ->) Hwf. simpl in Hrun.
  destruct (rep_charset Hrun Hwf) as (w & Hc & Hall & Hlo & Hhi & Hcaps).
  exists w. rewrite (consumed_firstn Hc), Hcaps.
  destruct Hc as [Hr Hp]. unfold consumed. simpl. auto 10.
Qed.

Lemma run_group_charset n p x y :
  run (Group n (CharSet p)) x y ->
  exists ch, consumed [ch] x y /\ p ch = true /\
             caps y = set_capture n [ch] (caps x).
Proof.
  intros (m & (ch & tl & Hrest & Hp & ->) & ->). exists ch.
  unfold consumed. simpl. rewrite Hrest. simpl.
  replace (pos x + 1 - pos x) with 1 by lia. simpl.
  destruct tl; auto.
Qed.

(** Where the results of [exec_from] and [matches] come from. *)
Lemma exec_from_sound r : forall s i m,
  exec_from r i s = Some m ->
  exists pre s', s = pre ++ s' /\ match_at r (i + length pre) s' = Some m.
Proof.
  induction s as [|a s IH]; intros i m H; simpl in H.
  - destruct (match_at r i []) eqn:E; [|discriminate].
    inversion H; subst. exists [], []. simpl. rewrite Nat.add_0_r. auto.
  - destruct (match_at r i (a :: s)) eqn:E.
    + inversion H; subst. exists [], (a :: s). simpl.
      rewrite Nat.add_0_r. auto.
    + apply IH in H. destruct H as (pre & s' & -> & H).
      exists (a :: pre), s'. simpl.
      replace (i + S (length pre)) with (S i + length pre) by lia. auto.
Qed.

Lemma matches_from_sound r : forall fuel i s m,
  In m (matches_from fuel r i s) -> exists j s', match_at r j s' = Some m.
Proof.
  induction fuel as [|fuel IH]; intros i s m H; simpl in H; [contradiction|].
  destruct (exec_from r i s) as [m0|] eqn:E; [|contradiction].
  destruct H as [->|H].
  - apply exec_from_sound in E. destruct E as (pre & s' & _ & E). eauto.
  - destruct (m_text m0); destruct (m_after m0); simpl in H;
      try contradiction; eauto.
Qed.

Lemma match_at_sound r i s m :
  match_at r i s = Some m ->
  exists y, run r (MState i s no_captures) y /\
            m = MResult i (firstn (pos y - i) s) (caps y) (rest y).
Proof.
  unfold match_at. intros H.
  destruct (matcher r _ _) as [y|] eqn:E; [|discriminate].
  apply matcher_sound in E. destruct E as (y' & Hrun & Hy).
  inversion Hy; subst y'. inversion H. eauto.
Qed.


(** *** The fuel of the quantifier and of the global match is enough

    A state [y] that a matcher hands to its continuation from [x] lies
    further on in the same input. *)
Definition reaches (x y : mstate) : Prop :=
  pos x <= pos y /\ length (rest y) + (pos y - pos x) = length (rest x).

(** A matcher looks at its continuation only on states it reaches. *)
Definition well_behaved (m : mstate -> cont -> option mstate) : Prop :=
  forall x c c', (forall y, reaches x y -> c y = c' y) -> m x c = m x c'.

Lemma reaches_refl x : reaches x x.
Proof. unfold reaches. lia. Qed.

Lemma reaches_trans x y z : reaches x y -> reaches y z -> reaches x z.
Proof. unfold reaches. lia. Qed.

Lemma startsWith_length w s : startsWith w s = true -> length w <= length s.
Proof.
  intros H. apply startsWith_app in H. rewrite H, length_app. lia.
Qed.

Lemma reaches_advance n x : n <= length (rest x) -> reaches x (advance n x).
Proof.
  intros H. unfold reaches, advance. simpl. rewrite length_skipn. lia.
Qed.

Lemma repeat_matcher_wb m inner :
  well_behaved m ->
  forall fuel lo hi, well_behaved (repeat_matcher m inner fuel lo hi).
Proof.
  intros Hm. induction fuel as [|fuel IH]; intros lo hi x c c' Hc; simpl.
  - reflexivity.
  - assert (Hx : c x = c' x) by (apply Hc, reaches_refl).
    assert (Hd : m (MState (pos x) (rest x) (clear_captures inner (caps x)))
                   (fun y => if Nat.eqb lo 0 && Nat.eqb (pos y) (pos x)
                             then None
                             else repeat_matcher m inner fuel (Nat.pred lo)
                                    (option_map Nat.pred hi) y c)
                 = m (MState (pos x) (rest x) (clear_captures inner (caps x)))
                   (fun y => if Nat.eqb lo 0 && Nat.eqb (pos y) (pos x)
                             then None
                             else repeat_matcher m inner fuel (Nat.pred lo)
                                    (option_map Nat.pred hi) y c')).
    { apply Hm. intros y Hy.
      destruct (Nat.eqb lo 0 && Nat.eqb (pos y) (pos x)); [reflexivity|].
      apply IH. intros z Hz. apply Hc.
      apply reaches_trans with (y := y); [exact Hy|exact Hz]. }
    destruct hi as [[|h]|]; [exact Hx| |]; rewrite Hd, Hx; reflexivity.
Qed.

Lemma matcher_wb (r : regex) : well_behaved (matcher r).
Proof.
  induction r as [|p|r1 IH1 r2 IH2|n r IH|n|lo hi r IH| |];
    intros x c c' Hc.
  - simpl. apply Hc, reaches_refl.
  - simpl. destruct (rest x) as [|ch tl] eqn:Er; [reflexivity|].
    destruct (p ch); [|reflexivity].
    apply Hc, reaches_advance. rewrite Er. simpl. lia.
  - simpl. apply IH1. intros y Hy. apply IH2. intros z Hz. apply Hc.
    apply reaches_trans with (y := y); assumption.
  - simpl. apply IH. intros y Hy. apply Hc. exact Hy.
  - simpl. destruct (caps x n) as [w|]; [|apply Hc, reaches_refl].
    destruct (startsWith w (rest x)) eqn:Ew; [|reflexivity].
    apply Hc, reaches_advance, startsWith_length. exact Ew.
  - exact (@repeat_matcher_wb (matcher r) (groups r) IH
             (S (lo + length (rest x))) lo hi x c c' Hc).
  - simpl. destruct (Nat.eqb (pos x) 0); [apply Hc, reaches_refl|reflexivity].
  - simpl. destruct (rest x); [apply Hc, reaches_refl|reflexivity].
Qed.

(** Past [lo + length (rest x)] the fuel makes no difference. *)
Lemma repeat_matcher_fuel m inner :
  well_behaved m ->
  forall f1 f2 lo hi x c,
    lo + length (rest x) < f1 -> lo + length (rest x) < f2 ->
    repeat_matcher m inner f1 lo hi x c
    = repeat_matcher m inner f2 lo hi x c.
Proof.
  intros Hm. induction f1 as [|f1 IH]; intros f2 lo hi x c H1 H2; [lia|].
  destruct f2 as [|f2]; [lia|]. simpl.
  assert (Hd : m (MState (pos x) (rest x) (clear_captures inner (caps x)))
                 (fun y => if Nat.eqb lo 0 && Nat.eqb (pos y) (pos x)
                           then None
                           else repeat_matcher m inner f1 (Nat.pred lo)
                                  (option_map Nat.pred hi) y c)
               = m (MState (pos x) (rest x) (clear_captures inner (caps x)))
                 (fun y => if Nat.eqb lo 0 && Nat.eqb (pos y) (pos x)
                           then None
                           else repeat_matcher m inner f2 (Nat.pred lo)
                                  (option_map Nat.pred hi) y c)).
  { apply Hm. intros y [Hpos Hlen]. simpl in Hpos, Hlen.
    destruct (Nat.eqb lo 0 && Nat.eqb (pos y) (pos x)) eqn:Ey;
      [reflexivity|].
    apply andb_false_iff in Ey.
    assert (Hy : Nat.pred lo + length (rest y) < f1 /\
                 Nat.pred lo + length (rest y) < f2).
    { destruct Ey as [Ey|Ey].
      - apply Nat.eqb_neq in Ey. lia.
      - apply Nat.eqb_neq in Ey. lia. }
    apply IH; apply Hy. }
  destruct hi as [[|h]|]; [reflexivity| |]; rewrite Hd; reflexivity.
Qed.

(** The quantifier of [matcher] never runs out of fuel: any larger fuel
    gives the same result. *)
Lemma quantifier_fuel_enough r lo hi x c extra :
  repeat_matcher (matcher r) (groups r) (S (lo + length (rest x)) + extra)
    lo hi x c
  = matcher (Quant lo hi r) x c.
Proof.
  change (matcher (Quant lo hi r) x c)
    with (repeat_matcher (matcher r) (groups r)
            (S (lo + length (rest x))) lo hi x c).
  apply repeat_matcher_fuel; [apply matcher_wb|lia|lia].
Qed.

Lemma rep_rel_reaches (R : mstate -> mstate -> Prop) inner lo hi x y :
  (forall a b, R a b -> reaches a b) ->
  rep_rel R inner lo hi x y -> reaches x y.
Proof.
  intros HR. induction 1 as [lo hi x _|lo hi x y z _ Hxy _ _ IH].
  - apply reaches_refl.
  - apply HR in Hxy. apply reaches_trans with (y := y); [|exact IH].
    exact Hxy.
Qed.

Lemma run_reaches (r : regex) : forall x y, run r x y -> reaches x y.
Proof.
  induction r as [|p|r1 IH1 r2 IH2|n r IH|n|lo hi r IH| |];
    intros x y H; simpl in H.
  - subst. apply reaches_refl.
  - destruct H as (ch & tl & Hr & _ & ->). apply reaches_advance.
    rewrite Hr. simpl. lia.
  - destruct H as (m & H1 & H2).
    apply reaches_trans with (y := m); auto.
  - destruct H as (m & H1 & ->). apply IH in H1. exact H1.
  - destruct (caps x n) as [w|]; [|subst; apply reaches_refl].
    destruct H as [Hw ->]. apply reaches_advance, startsWith_length.
    exact Hw.
  - apply (rep_rel_reaches (R := run r) (inner := groups r) IH H).
  - destruct H as [_ ->]. apply reaches_refl.
  - destruct H as [_ ->]. apply reaches_refl.
Qed.

Lemma match_at_lengths r i s m :
  match_at r i s = Some m ->
  length (m_after m) + length (m_text m) = length s.
Proof.
  intros H. apply match_at_sound in H. destruct H as (y & Hrun & ->).
  apply run_reaches in Hrun. destruct Hrun as [Hpos Hlen].
  simpl in *. rewrite length_firstn. lia.
Qed.

Lemma exec_from_lengths r : forall s i m,
  exec_from r i s = Some m ->
  length (m_after m) + length (m_text m) <= length s.
Proof.
  intros s i m H. apply exec_from_sound in H.
  destruct H as (pre & s' & -> & H). apply match_at_lengths in H.
  rewrite length_app. lia.
Qed.

Lemma matches_from_fuel r : forall f1 f2 i s,
  length s < f1 -> length s < f2 ->
  matches_from f1 r i s = matches_from f2 r i s.
Proof.
  induction f1 as [|f1 IH]; intros f2 i s H1 H2; [lia|].
  destruct f2 as [|f2]; [lia|]. simpl.
  destruct (exec_from r i s) as [m|] eqn:Ex; [|reflexivity].
  apply exec_from_lengths in Ex. f_equal.
  destruct (m_text m) as [|c t]; destruct (m_after m) as [|a s'];
    simpl in Ex; try reflexivity; apply IH; simpl; lia.
Qed.

(** The global match never runs out of fuel either. *)
Lemma matches_fuel_enough r s extra :
  matches_from (S (length s) + extra) r 0 s = matches r s.
Proof. unfold matches. apply matches_from_fuel; lia. Qed.

(* ================================================================== *)
(** ** Identifier repair *)

(** A string of upper-case letters and digits only. *)
Definition all_upper_alnum (s : jsstring) : Prop :=
  Forall (fun c => upper_alnum c = true) s.

(** A well-formed identifier: 13 code units, all in [[A-Z0-9]]. *)
Definition well_formed_id (s : jsstring) : Prop :=
  length s = 13 /\ all_upper_alnum s.

Lemma id13_match j s m :
  match_at re_id13 j s = Some m -> well_formed_id (m_text m).
Proof.
  intros H. apply match_at_sound in H. destruct H as (y & Hrun & ->).
  simpl in Hrun. apply rep_charset in Hrun; [|simpl; lia].
  destruct Hrun as (w & Hc & Hall & Hlo & Hhi & _).
  simpl. change j with (pos (MState j s no_captures)).
  change s with (rest (MState j s no_captures)) at 2.
  rewrite (consumed_firstn Hc). split; [lia|exact Hall].
Qed.

Lemma match_all_id13 text m :
  In m (match_all re_id13 text) -> well_formed_id m.
Proof.
  unfold match_all, matches. intros H. apply in_map_iff in H.
  destruct H as (r & <- & H). apply matches_from_sound in H.
  destruct H as (j & s' & H). eapply id13_match; eauto.
Qed.

Lemma first_valid_id_sound text r :
  first_valid_id text = Some r -> well_formed_id r.
Proof.
  unfold first_valid_id. intros H. apply find_some in H.
  destruct H as [H _]. eapply match_all_id13; eauto.
Qed.

Lemma re_clean_sound s :
  test re_clean s = true -> all_upper_alnum s.
Proof.
  unfold test, exec. intros H.
  destruct (exec_from re_clean 0 s) as [m|] eqn:E; [|discriminate].
  apply exec_from_sound in E. destruct E as (pre & s' & -> & E).
  apply match_at_sound in E. destruct E as (y & Hrun & _).
  simpl in Hrun. destruct Hrun as (x1 & [Hpos ->] & x2 & Hrep & Hend & ->).
  simpl in Hpos. destruct pre; [|simpl in Hpos; lia]. simpl.
  apply rep_charset in Hrep; [|exact I].
  destruct Hrep as (w & [Hr _] & Hall & _). simpl in Hr.
  rewrite Hend, app_nil_r in Hr. subst s'. exact Hall.
Qed.

Lemma fix_repeated_sound rawId r :
  fix_repeated rawId = Some r -> well_formed_id r.
Proof.
  unfold fix_repeated. destruct (exec re_repeated rawId) as [m|]; [|discriminate].
  destruct (_ && _ && _).
  - intros H. inversion H; subst. split; [reflexivity|].
    unfold all_upper_alnum. apply Forall_forall. apply forallb_forall.
    reflexivity.
  - destruct (Nat.eqb _ 13 && test re_clean _) eqn:E; [|discriminate].
    intros H. inversion H; subst. apply andb_prop in E. destruct E as [E1 E2].
    apply Nat.eqb_eq in E1. apply re_clean_sound in E2. split; assumption.
Qed.

Lemma commonMiddles_upper_alnum middle :
  In middle commonMiddles -> all_upper_alnum middle.
Proof.
  intros H. unfold all_upper_alnum. apply Forall_forall. apply forallb_forall.
  revert middle H. apply forallb_forall. reflexivity.
Qed.

(** The captures of a match of the character-flooding pattern. *)
Lemma re_flood_captures rawId m :
  exec re_flood rawId = Some m ->
  all_upper_alnum (capture m 1) /\ all_upper_alnum (capture m 3).
Proof.
  unfold exec. intros E.
  apply exec_from_sound in E. destruct E as (pre & s' & _ & E).
  apply match_at_sound in E. destruct E as (y & Hrun & ->).
  destruct Hrun as (x1 & [_ ->] & x2 & Hg1 & x3 & Hg2 & x4 & Hrep &
                    x5 & Hg3 & _ & ->).
  apply run_group_quant_charset in Hg1; [|simpl; lia].
  destruct Hg1 as (w1 & _ & Hw1 & _ & _ & Hc1).
  apply run_group_charset in Hg2. destruct Hg2 as (ch & _ & _ & Hc2).
  apply rep_backref in Hrep.
  apply run_group_quant_charset in Hg3; [|simpl; lia].
  destruct Hg3 as (w3 & _ & Hw3 & _ & _ & Hc3).
  unfold capture. simpl. rewrite Hc3, Hrep, Hc2, Hc1.
  unfold set_capture. simpl. auto.
Qed.

Lemma fix_flood_sound rawId r :
  fix_flood rawId = Some r -> well_formed_id r.
Proof.
  unfold fix_flood.
  destruct (exec re_flood rawId) as [m|] eqn:E; [|discriminate].
  apply re_flood_captures in E. destruct E as [H1 H3]. cbv zeta.
  match goal with
  | |- context [find ?f commonMiddles] =>
      destruct (find f commonMiddles) as [middle|] eqn:F; [|discriminate]
  end.
  intros H. inversion H; subst. apply find_some in F. destruct F as [Hin F].
  apply andb_prop in F. destruct F as [_ F]. apply Nat.eqb_eq in F.
  split; [exact F|]. unfold all_upper_alnum.
  apply Forall_app. split; [exact H1|]. apply Forall_app. split; [|exact H3].
  apply commonMiddles_upper_alnum. exact Hin.
Qed.

Lemma fix_zeros_length rawId r :
  fix_zeros rawId = Some r -> length r = 13.
Proof.
  unfold fix_zeros. destruct (test re_zeros6 rawId); [|discriminate].
  destruct (Nat.eqb _ 13) eqn:E; [|discriminate].
  intros H. inversion H; subst. apply Nat.eqb_eq. exact E.
Qed.

Lemma well_formed_id_length r : well_formed_id r -> length r = 13.
Proof. intros [H _]. exact H. Qed.

(** The input of the historical exception with a run of twelve sixes. *)
Definition historical_input (sixes : nat) : jsstring :=
  lit "EEP8" ++ repeat1 54%N sixes ++ lit "NRJ4C".

(** The greedy prefix group takes the first six of a run of twelve with it,
    so the prefix that reaches the comparison is [EEP86]. *)
Lemma historical_prefix_twelve :
  option_map (fun m => capture m 1) (exec re_repeated (historical_input 12))
  = Some (lit "EEP86").
Proof. vm_compute. reflexivity. Qed.

(** With a run of exactly eleven sixes the prefix is [EEP8] and the
    exception applies. *)
Lemma historical_exception_eleven :
  fixCorruptedTransactionId (historical_input 11) = Some (lit "EEP86556NRJ4C").
Proof. vm_compute. reflexivity. Qed.

(** C1. On ["EEP8" + "6"*12 + "NRJ4C"] the repair function returns [null]:
    the hard-coded exception compares the captured prefix with ["EEP8"],
    but the prefix captured from a run of twelve sixes is ["EEP86"]; the
    decrement rule then rebuilds an 11-character string, which is rejected,
    and no later strategy applies.  The documented output
    ["EEP86556NRJ4C"] is not produced. *)
Theorem repair_historical_twelve_sixes_is_null :
  fixCorruptedTransactionId (historical_input 12) = None.
Proof. vm_compute. reflexivity. Qed.

(** C4. Every input shorter than 13 code units, the empty string included,
    is rejected with [null]. *)
Theorem repair_short_is_null (rawId : jsstring) :
  length rawId < 13 -> fixCorruptedTransactionId rawId = None.
Proof.
  intros H. unfold fixCorruptedTransactionId.
  apply Nat.ltb_lt in H. rewrite H, orb_true_r. reflexivity.
Qed.

Lemma repair_short_is_null_witness :
  length (lit "EEP86556NRJ4") < 13 /\
  fixCorruptedTransactionId (lit "EEP86556NRJ4") = None.
Proof.
  split; [vm_compute; lia|apply repair_short_is_null; vm_compute; lia].
Defined.

Lemma repair_empty_is_null : fixCorruptedTransactionId [] = None.
Proof. reflexivity. Qed.

(** Every strategy but the leading-zero one yields a well-formed
    identifier. *)
Lemma repair_cases rawId r :
  fixCorruptedTransactionId rawId = Some r ->
  well_formed_id r \/ fix_zeros rawId = Some r.
Proof.
  unfold fixCorruptedTransactionId, or_try.
  destruct (_ || _); [discriminate|].
  destruct (fix_repeated rawId) eqn:E1.
  { intros H. inversion H; subst. left. eapply fix_repeated_sound; eauto. }
  destruct (fix_flood rawId) eqn:E2.
  { intros H. inversion H; subst. left. eapply fix_flood_sound; eauto. }
  destruct (fix_zeros rawId) eqn:E3.
  { intros H. inversion H; subst. right. reflexivity. }
  intros H. left. eapply first_valid_id_sound; eauto.
Qed.

(** An input on which the leading-zero strategy answers with lower-case
    letters. *)
Definition zero_flood_lowercase : jsstring := lit "000000abcdefghijk".

(** C10. Whatever the input, the repair function returns [null] or a
    string of exactly 13 code units.  The result need not be upper-case
    alphanumeric: the leading-zero strategy keeps the text after the run
    of zeros as it is. *)
Theorem repair_result_length_13 :
  (forall rawId,
     fixCorruptedTransactionId rawId = None \/
     exists r, fixCorruptedTransactionId rawId = Some r /\ length r = 13) /\
  (exists r, fixCorruptedTransactionId zero_flood_lowercase = Some r /\
             length r = 13 /\ ~ all_upper_alnum r).
Proof.
  split.
  - intros rawId. destruct (fixCorruptedTransactionId rawId) as [r|] eqn:E;
      [right|left; reflexivity].
    exists r. split; [reflexivity|].
    destruct (repair_cases _ E) as [H|H].
    + apply well_formed_id_length. exact H.
    + eapply fix_zeros_length; eauto.
  - exists (lit "08abcdefghijk"). split; [vm_compute; reflexivity|].
    split; [reflexivity|]. intros H.
    unfold all_upper_alnum in H. rewrite Forall_forall in H.
    specialize (H 97%N). discriminate H. vm_compute. auto 10.
Qed.

(** *** The leading-zero strategy on inputs of the run-length shape *)

(** The head of [t], if any, is outside the class [p]. *)
Definition stops (p : code -> bool) (t : jsstring) : Prop :=
  match t with [] => True | c :: _ => p c = false end.

(** A greedy, unbounded quantifier over a character class followed by
    nothing takes the whole leading run of the class. *)
Lemma repeat_charset_greedy (p : code -> bool) : forall w t x fuel lo,
  rest x = w ++ t -> Forall (fun c => p c = true) w -> stops p t ->
  lo <= length w -> length w < fuel ->
  repeat_matcher (matcher (CharSet p)) [] fuel lo None x (fun y => Some y)
  = Some (MState (pos x + length w) t (caps x)).
Proof.
  induction w as [|a w IH]; intros t x fuel lo Hr Hall Hstop Hlo Hfuel.
  - destruct fuel as [|fuel]; [simpl in Hfuel; lia|].
    simpl in Hlo. assert (lo = 0) by lia. subst lo.
    destruct x as [px rx cx]. simpl in *. subst rx.
    rewrite Nat.add_0_r.
    destruct t as [|c t']; [reflexivity|]. simpl in Hstop. rewrite Hstop.
    reflexivity.
  - destruct fuel as [|fuel]; [simpl in Hfuel; lia|].
    inversion Hall as [|? ? Ha Hw]; subst.
    destruct x as [px rx cx]. simpl in Hr. subst rx.
    assert (Hnext :
      repeat_matcher (matcher (CharSet p)) [] fuel (Nat.pred lo) None
        (MState (px + 1) (w ++ t) cx) (fun y => Some y)
      = Some (MState (px + length (a :: w)) t cx)).
    { rewrite (IH t (MState (px + 1) (w ++ t) cx) fuel (Nat.pred lo));
        simpl in *; auto; try lia.
      f_equal. f_equal. lia. }
    cbn [repeat_matcher matcher rest pos caps advance option_map].
    rewrite Ha. cbn [skipn].
    change (clear_captures [] cx) with cx.
    replace (Nat.eqb (px + 1) px) with false
      by (symmetry; apply Nat.eqb_neq; lia).
    rewrite andb_false_r.
    destruct (Nat.eqb lo 0); [|exact Hnext].
    match goal with
    | |- match ?X with _ => _ end = Some ?Y =>
        replace X with (Some Y) by (symmetry; exact Hnext)
    end.
    reflexivity.
Qed.

Lemma exec_from_head r i s m :
  match_at r i s = Some m -> exec_from r i s = Some m.
Proof. intros H. destruct s; simpl; rewrite H; reflexivity. Qed.

Definition is_zero : code -> bool := N.eqb 48%N.

(** [rawId.replace(/^0+/, '08')] on an input whose leading run of zeros is
    [zs]. *)
Lemma replace_leading_zeros zs t :
  Forall (fun c => is_zero c = true) zs -> stops is_zero t ->
  1 <= length zs ->
  replace_first re_zeros (fun _ => lit "08") (zs ++ t) = lit "08" ++ t.
Proof.
  intros Hall Hstop Hlen. unfold replace_first, exec.
  assert (E : match_at re_zeros 0 (zs ++ t)
              = Some (MResult 0 zs no_captures t)).
  { unfold match_at, re_zeros.
    cbn [matcher pos rest Nat.eqb].
    change (CharSet (N.eqb 48%N)) with (CharSet is_zero).
    rewrite (@repeat_charset_greedy is_zero zs t); auto;
      [|rewrite length_app; lia].
    cbn [pos rest caps]. simpl (0 + length zs).
    rewrite Nat.sub_0_r.
    replace (length zs) with (length zs + 0) by lia.
    rewrite firstn_app_2. simpl. rewrite app_nil_r. reflexivity. }
  rewrite (exec_from_head _ _ _ E).
  unfold splice, m_end. cbn [m_index m_text]. simpl (0 - 0).
  rewrite Nat.sub_0_r. simpl (firstn 0 _). simpl (0 + _).
  rewrite skipn_app, skipn_all, Nat.sub_diag. reflexivity.
Qed.

(** What a match of [/^0{6,}/] tells about the input. *)
Lemma re_zeros6_sound s :
  test re_zeros6 s = true ->
  exists w r, s = w ++ r /\ Forall (fun c => is_zero c = true) w /\
              6 <= length w.
Proof.
  unfold test, exec. intros H.
  destruct (exec_from re_zeros6 0 s) as [m|] eqn:E; [|discriminate].
  apply exec_from_sound in E. destruct E as (pre & s' & -> & E).
  apply match_at_sound in E. destruct E as (y & Hrun & _).
  simpl in Hrun. destruct Hrun as (x1 & [Hpos ->] & Hrep).
  simpl in Hpos. destruct pre; [|simpl in Hpos; lia]. simpl.
  apply rep_charset in Hrep; [|exact I].
  destruct Hrep as (w & [Hr _] & Hall & Hlo & _). simpl in Hr.
  exists w, (rest y). auto.
Qed.

(** Every string splits into its leading run of a class and the rest. *)
Lemma leading_run (p : code -> bool) : forall s,
  exists a b, s = a ++ b /\ Forall (fun c => p c = true) a /\ stops p b.
Proof.
  induction s as [|c s (a & b & -> & Ha & Hb)].
  - exists [], []. simpl. auto.
  - destruct (p c) eqn:E.
    + exists (c :: a), b. simpl. auto.
    + exists [], (c :: a ++ b). simpl. auto.
Qed.

(** A run of zeros at the head of [p ++ c :: r] ends inside [p] when [c]
    is not a zero. *)
Lemma zero_run_within : forall zs t p c r,
  zs ++ t = p ++ c :: r -> Forall (fun c => is_zero c = true) zs ->
  is_zero c = false -> length zs <= length p.
Proof.
  induction zs as [|z zs IH]; intros t p c r Heq Hall Hc; simpl; [lia|].
  inversion Hall as [|? ? Hz Hzs]; subst.
  destruct p as [|a p]; simpl in Heq; inversion Heq; subst.
  - congruence.
  - simpl. apply le_n_S. eapply IH; eauto.
Qed.

(** The run-length corruption shape: a prefix of 3 to 6 upper-case
    alphanumeric code units, one code unit repeated 11 times or more, and
    a suffix of 3 to 6 upper-case alphanumeric code units. *)
Definition run_length_shape (s : jsstring) : Prop :=
  exists p c n q,
    s = p ++ repeat1 c n ++ q /\
    3 <= length p <= 6 /\ all_upper_alnum p /\
    11 <= n /\
    3 <= length q <= 6 /\ all_upper_alnum q.

Lemma is_zero_upper_alnum c : is_zero c = true -> upper_alnum c = true.
Proof. unfold is_zero. intros H. apply N.eqb_eq in H. subst c. reflexivity. Qed.

Lemma all_upper_alnum_repeat c n :
  upper_alnum c = true -> all_upper_alnum (repeat1 c n).
Proof.
  intros H. unfold all_upper_alnum, repeat1. apply Forall_forall.
  intros x Hx. apply repeat_spec in Hx. subst x. exact H.
Qed.

Lemma fix_zeros_shape rawId r :
  run_length_shape rawId -> fix_zeros rawId = Some r -> all_upper_alnum r.
Proof.
  intros (p & c & n & q & Hs & Hp & Hpa & Hn & Hq & Hqa).
  unfold fix_zeros. destruct (test re_zeros6 rawId) eqn:T; [|discriminate].
  apply re_zeros6_sound in T. destruct T as (w & r0 & Hw & Hwz & Hwl).
  destruct (leading_run is_zero r0) as (a & b & -> & Ha & Hb).
  assert (Hzs : Forall (fun c => is_zero c = true) (w ++ a))
    by (apply Forall_app; auto).
  rewrite app_assoc in Hw. rewrite Hw.
  rewrite replace_leading_zeros; auto; [|rewrite length_app; lia].
  destruct (Nat.eqb _ 13) eqn:E; [|discriminate].
  intros H. inversion H; subst r. clear H. apply Nat.eqb_eq in E.
  rewrite length_app in E. change (length (lit "08")) with 2 in E.
  destruct (upper_alnum c) eqn:Ec.
  - assert (Hall : all_upper_alnum rawId).
    { rewrite Hs. apply Forall_app. split; [exact Hpa|].
      apply Forall_app. split; [|exact Hqa].
      apply all_upper_alnum_repeat. exact Ec. }
    rewrite Hw in Hall. apply Forall_app in Hall. destruct Hall as [_ Hall].
    change (all_upper_alnum (48%N :: 56%N :: b)).
    constructor; [reflexivity|]. constructor; [reflexivity|exact Hall].
  - exfalso.
    assert (Hc : is_zero c = false).
    { destruct (is_zero c) eqn:Z; [|reflexivity].
      apply is_zero_upper_alnum in Z. congruence. }
    destruct n as [|n']; [lia|].
    assert (Hlen : length (w ++ a) <= length p).
    { eapply zero_run_within with (t := b) (c := c)
        (r := repeat1 c n' ++ q); eauto.
      rewrite <- Hw, Hs. reflexivity. }
    assert (Htot : length rawId = length rawId) by reflexivity.
    rewrite Hw in Htot at 1. rewrite Hs in Htot.
    rewrite !length_app in Htot. unfold repeat1 in Htot.
    rewrite repeat_length in Htot. rewrite length_app in Hlen. lia.
Qed.

(** The shape is the one the source pattern accepts when the repeated code
    unit is itself upper-case alphanumeric; an input of the shape used
    below. *)
Definition run_length_sample : jsstring :=
  lit "ABCDEF" ++ repeat1 55%N 11 ++ lit "UVWXYZ".

Lemma run_length_sample_shape : run_length_shape run_length_sample.
Proof.
  exists (lit "ABCDEF"), 55%N, 11, (lit "UVWXYZ").
  split; [reflexivity|]. split; [simpl; lia|].
  split; [apply Forall_forall; apply forallb_forall; reflexivity|].
  split; [lia|]. split; [simpl; lia|].
  apply Forall_forall; apply forallb_forall; reflexivity.
Defined.

Lemma run_length_sample_repaired :
  fixCorruptedTransactionId run_length_sample = Some (lit "ABCDEF6UVWXYZ").
Proof. vm_compute. reflexivity. Qed.

(** C3. On an input of at least 13 code units that has the run-length
    corruption shape, the repair function returns [null] or a string of
    exactly 13 code units, all of them upper-case letters or digits. *)
Theorem repair_run_length_well_formed (rawId : jsstring) :
  13 <= length rawId -> run_length_shape rawId ->
  fixCorruptedTransactionId rawId = None \/
  exists r, fixCorruptedTransactionId rawId = Some r /\ well_formed_id r.
Proof.
  intros _ Hshape.
  destruct (fixCorruptedTransactionId rawId) as [r|] eqn:E;
    [right|left; reflexivity].
  exists r. split; [reflexivity|].
  destruct (repair_cases _ E) as [H|H]; [exact H|].
  split; [eapply fix_zeros_length; eauto|eapply fix_zeros_shape; eauto].
Qed.

Lemma repair_run_length_well_formed_witness :
  13 <= length run_length_sample /\ run_length_shape run_length_sample /\
  (fixCorruptedTransactionId run_length_sample = None \/
   exists r, fixCorruptedTransactionId run_length_sample = Some r /\
             well_formed_id r).
Proof.
  split; [vm_compute; lia|]. split; [exact run_length_sample_shape|].
  apply repair_run_length_well_formed;
    [vm_compute; lia|exact run_length_sample_shape].
Defined.

Lemma repair_length rawId r :
  fixCorruptedTransactionId rawId = Some r -> length r = 13.
Proof.
  intros E. destruct (repair_cases _ E) as [H|H].
  - apply well_formed_id_length. exact H.
  - eapply fix_zeros_length; eauto.
Qed.

(* ================================================================== *)
(** ** The page extractor *)

(** A field is missing when its element is not there, when its text is
    [null], or when nothing is left of the text once trimmed. *)
Definition missing (e : option (option jsstring)) : Prop :=
  match e with
  | Some (Some t) => trim t = []
  | _ => True
  end.

(** No method recovers an identifier from the container. *)
Definition unrecoverable (c : Container) : Prop :=
  match c_anchor c with
  | Some el =>
    from_href el = None /\
    first_from_text (extractionMethods el) = None /\
    from_container c = None
  | None => True
  end.

Lemma text_or_missing e fallback : missing e -> text_or e fallback = fallback.
Proof.
  destruct e as [[t|]|]; simpl; auto. intros ->. reflexivity.
Qed.

Lemma text_or_truthy e fallback :
  truthy fallback = true -> truthy (text_or e fallback) = true.
Proof.
  intros H. destruct e as [[t|]|]; simpl; auto.
  unfold or_else. destruct (truthy (trim t)) eqn:E; auto.
Qed.

Lemma from_href_length el id : from_href el = Some id -> length id = 13.
Proof.
  unfold from_href. cbv zeta. destruct (truthy _); [|discriminate].
  destruct (exec re_id13_group _) as [m|] eqn:E; [|discriminate].
  intros H. inversion H; subst id. clear H. unfold exec in E.
  apply exec_from_sound in E. destruct E as (pre & s' & _ & E).
  apply match_at_sound in E. destruct E as (y & Hrun & ->).
  apply run_group_quant_charset in Hrun; [|simpl; lia].
  destruct Hrun as (w & _ & _ & Hlo & Hhi & Hc).
  unfold capture. simpl. rewrite Hc. unfold set_capture. simpl. lia.
Qed.

Lemma from_text_length t id : from_text t = Some id -> length id = 13.
Proof.
  unfold from_text. destruct t as [t|]; [|discriminate].
  destruct (truthy t); [|discriminate].
  destruct (Nat.eqb (length t) 13 && test re_clean t) eqn:E.
  - intros H. inversion H; subst. apply andb_prop in E.
    apply Nat.eqb_eq. apply E.
  - destruct (fixCorruptedTransactionId t) as [cleanId|] eqn:F;
      [|discriminate].
    destruct (truthy cleanId); [|discriminate].
    intros H. inversion H; subst. eapply repair_length; eauto.
Qed.

Lemma first_from_text_length methods id :
  first_from_text methods = Some id -> length id = 13.
Proof.
  induction methods as [|t methods IH]; simpl; [discriminate|].
  destruct (from_text t) as [id'|] eqn:E; [|exact IH].
  intros H. inversion H; subst. eapply from_text_length; eauto.
Qed.

Lemma eqb_length : forall a b, Js.eqb a b = true -> length a = length b.
Proof.
  induction a as [|x a IH]; destruct b as [|y b]; simpl; intros H;
    try discriminate; auto.
  apply andb_prop in H. destruct H as [_ H]. f_equal. auto.
Qed.

Lemma assign_chain_shape (h m k : option jsstring) :
  (forall id, h = Some id -> length id = 13) ->
  (forall id, m = Some id -> length id = 13) ->
  (forall id, k = Some id -> length id = 13) ->
  let t1 := assign NA h in
  let t2 := if Js.eqb t1 NA then assign t1 m else t1 in
  let t3 := if Js.eqb t2 NA then assign t2 k else t2 in
  t3 = NA \/ length t3 = 13.
Proof.
  assert (Hne : forall id, length id = 13 -> Js.eqb id NA = false).
  { intros id Hid. destruct (Js.eqb id NA) eqn:E; [|reflexivity].
    apply eqb_length in E. rewrite Hid in E. discriminate E. }
  intros Hh Hm Hk.
  destruct h as [id|]; simpl.
  { specialize (Hh id eq_refl). rewrite !(Hne id Hh). right. exact Hh. }
  change (Js.eqb NA NA) with true. cbv iota.
  destruct m as [id|]; simpl.
  { specialize (Hm id eq_refl). rewrite (Hne id Hm). right. exact Hm. }
  change (Js.eqb NA NA) with true. cbv iota.
  destruct k as [id|]; simpl.
  { specialize (Hk id eq_refl). right. exact Hk. }
  left. reflexivity.
Qed.

Lemma extractTransactionId_shape c :
  extractTransactionId c = NA \/ length (extractTransactionId c) = 13.
Proof.
  unfold extractTransactionId.
  destruct (c_anchor c) as [el|]; [|left; reflexivity].
  apply assign_chain_shape.
  - apply from_href_length.
  - apply first_from_text_length.
  - intros id H. apply first_valid_id_sound in H. apply H.
Qed.

Lemma extractTransactionId_unrecoverable c :
  unrecoverable c -> extractTransactionId c = NA.
Proof.
  unfold unrecoverable, extractTransactionId. cbv zeta.
  destruct (c_anchor c) as [el|]; [|reflexivity].
  intros (-> & -> & ->). reflexivity.
Qed.

(** C8. The extractor returns one record per container, in the order of
    the containers, and is total: a field that cannot be read is a
    sentinel.  Every field of every record is a non-empty string; the
    customer is ["No customer selected"] when missing, the date and the
    amount are ["N/A"] when missing, the identifier is ["N/A"] when no
    method recovers one (and is otherwise 13 code units long); with no
    container the result is the empty list. *)
Theorem extractor_one_record_per_container (containers : list Container) :
  let records := extractTransactionDataFromPage containers in
  length records = length containers /\
  (forall i c, nth_error containers i = Some c ->
     nth_error records i = Some (extractRecord c)) /\
  (forall t, In t records ->
     truthy (customer t) = true /\ truthy (date t) = true /\
     truthy (amount t) = true /\
     (transactionId t = NA \/ length (transactionId t) = 13)) /\
  (forall c, In c containers ->
     (missing (nth_error (c_subtitles c) 0) ->
        customer (extractRecord c) = lit "No customer selected") /\
     (missing (nth_error (c_subtitles c) 1) -> date (extractRecord c) = NA) /\
     (missing (c_success c) -> amount (extractRecord c) = NA) /\
     (unrecoverable c -> transactionId (extractRecord c) = NA)) /\
  extractTransactionDataFromPage [] = [].
Proof.
  unfold extractTransactionDataFromPage. cbv zeta.
  split; [apply length_map|].
  split; [intros i c H; apply map_nth_error; exact H|].
  split.
  { intros t H. apply in_map_iff in H. destruct H as (c & <- & _).
    simpl. repeat split; try (apply text_or_truthy; reflexivity).
    destruct (extractTransactionId_shape c) as [H|H]; auto. }
  split; [|reflexivity].
  intros c _. simpl. repeat split; intros H.
  - apply text_or_missing; exact H.
  - apply text_or_missing; exact H.
  - apply text_or_missing; exact H.
  - apply extractTransactionId_unrecoverable; exact H.
Qed.

(* ================================================================== *)
(** ** The extraction orchestrator *)

Section OrchestratorFacts.

Variable toLowerCase : jsstring -> jsstring.

(** Tab resolution finds no suitable tab: in the popup the query for the
    active tab yields no tab with an id; in the detached window no tab
    looks like PayTracker and no tab is left once the pages of extensions
    are put aside. *)
Definition no_suitable_tab (h : Host) : Prop :=
  if isDetachedWindow h then
    exists allTabs, query_all h = Fulfilled allTabs /\
      (forall t, In t allTabs -> looks_like_paytracker toLowerCase t = false) /\
      (forall t, In t allTabs -> is_regular t = false)
  else
    exists tabs, query_active h = Fulfilled tabs /\
      usable_id (nth_error tabs 0) = None.

Lemma find_none_all {A} (f : A -> bool) l :
  (forall x, In x l -> f x = false) -> find f l = None.
Proof.
  induction l as [|a l IH]; simpl; intros H; [reflexivity|].
  rewrite (H a) by auto. apply IH. intros x Hx. apply H. auto.
Qed.

Lemma filter_nil_all {A} (f : A -> bool) l :
  (forall x, In x l -> f x = false) -> filter f l = [].
Proof.
  induction l as [|a l IH]; simpl; intros H; [reflexivity|].
  rewrite (H a) by auto. apply IH. intros x Hx. apply H. auto.
Qed.

(** Whatever the mode, a resolution that ends without a usable tab id
    rejects with the no-tab error, and nothing is injected. *)
Lemma unusable_tab_rejects h tab :
  resolve_tab toLowerCase h = Fulfilled tab -> usable_id tab = None ->
  extractTransactionData toLowerCase h = Rejected no_tab_error.
Proof.
  intros Hr Hid. unfold extractTransactionData. rewrite Hr. simpl.
  rewrite Hid. reflexivity.
Qed.

(** C9. When tab resolution finds no suitable tab, the orchestrator
    rejects with the error "No suitable tab found for data extraction"
    and returns no record list. *)
Theorem no_target_tab_rejects (h : Host) :
  no_suitable_tab h ->
  extractTransactionData toLowerCase h = Rejected no_tab_error.
Proof.
  unfold no_suitable_tab. intros H.
  destruct (isDetachedWindow h) eqn:Emode.
  - destruct H as (allTabs & Hq & Hfind & Hreg).
    apply unusable_tab_rejects with (tab := None); [|reflexivity].
    unfold resolve_tab. rewrite Emode, Hq. simpl.
    rewrite (find_none_all _ _ Hfind), (filter_nil_all _ _ Hreg).
    reflexivity.
  - destruct H as (tabs & Hq & Hid).
    apply unusable_tab_rejects with (tab := nth_error tabs 0); [|exact Hid].
    unfold resolve_tab. rewrite Emode, Hq. reflexivity.
Qed.

End OrchestratorFacts.

(** A popup with no active tab, and a detached window that sees only a
    page of the extension itself. *)
Definition popup_without_tab : Host :=
  {| location_search := [];
     query_all := Fulfilled [];
     query_active := Fulfilled [];
     executeScript := fun _ => Fulfilled [] |}.

Definition extension_page : Tab :=
  {| tab_id := Some 7%Z;
     tab_url := Some (lit "chrome-extension://abcdef/index.html?detached=true");
     tab_title := Some (lit "Transactions") |}.

Definition detached_alone : Host :=
  {| location_search := lit "?detached=true";
     query_all := Fulfilled [extension_page];
     query_active := Fulfilled [];
     executeScript := fun _ => Fulfilled [] |}.

Lemma no_target_tab_rejects_witness :
  extractTransactionData (fun s => s) popup_without_tab
    = Rejected no_tab_error /\
  extractTransactionData (fun s => s) detached_alone
    = Rejected no_tab_error.
Proof.
  split.
  - apply no_target_tab_rejects. exists []. split; reflexivity.
  - apply no_target_tab_rejects. exists [extension_page].
    split; [reflexivity|].
    split; intros t [<-|[]]; vm_compute; reflexivity.
Defined.

(* ================================================================== *)
(** ** The transaction cache *)

Lemma eqb_eq : forall a b, Js.eqb a b = true <-> a = b.
Proof.
  induction a as [|x a IH]; destruct b as [|y b]; simpl; split; intros H;
    try discriminate; auto.
  - apply andb_prop in H. destruct H as [Hx Ha].
    apply N.eqb_eq in Hx. apply IH in Ha. congruence.
  - inversion H; subst. rewrite N.eqb_refl. simpl. apply IH. reflexivity.
Qed.

Lemma eqb_refl a : Js.eqb a a = true.
Proof. apply eqb_eq. reflexivity. Qed.

Lemma eqb_neq a b : Js.eqb a b = false <-> a <> b.
Proof.
  split; intros H.
  - intros ->. rewrite eqb_refl in H. discriminate.
  - destruct (Js.eqb a b) eqn:E; [|reflexivity].
    apply eqb_eq in E. contradiction.
Qed.

(** The fuel of [to_radix] is enough: more fuel gives the same digits. *)
Lemma digits_of_fuel (radix : N) :
  (2 <= radix)%N ->
  forall f1 f2 n acc,
    N.to_nat (N.log2 n) < f1 -> N.to_nat (N.log2 n) < f2 ->
    digits_of f1 radix n acc = digits_of f2 radix n acc.
Proof.
  intros Hr. induction f1 as [|f1 IH]; intros f2 n acc H1 H2; [lia|].
  destruct f2 as [|f2]; [lia|]. simpl.
  destruct (N.eqb (n / radix) 0) eqn:E; [reflexivity|].
  apply N.eqb_neq in E.
  assert (Hlog : (N.log2 (n / radix) < N.log2 n)%N).
  { assert (Hn : (radix <= n)%N).
    { destruct (N.lt_ge_cases n radix) as [Hlt|Hge]; [|exact Hge].
      apply N.div_small in Hlt. contradiction. }
    assert (Hhalf : (n / radix <= N.shiftr n 1)%N).
    { rewrite N.shiftr_div_pow2. change (2 ^ 1)%N with 2%N.
      apply N.div_le_compat_l. lia. }
    apply N.log2_le_mono in Hhalf. rewrite N.log2_shiftr in Hhalf.
    assert (1 <= N.log2 n)%N by (apply N.log2_le_pow2; simpl; lia).
    lia. }
  apply IH; lia.
Qed.

Lemma to_radix_fuel_enough radix n extra :
  (2 <= radix)%N ->
  digits_of (S (N.to_nat (N.log2 n)) + extra) radix n [] = to_radix radix n.
Proof. intros Hr. unfold to_radix. apply digits_of_fuel; [exact Hr|lia|lia]. Qed.

(** *** Sample engines

    [JSON.parse] as the inverse of [JSON.stringify] on the texts of a
    given list of values, [new URL] on a given list of addresses. *)
Definition parse_among {A} (text_of : A -> jsstring) (known : list A)
    (s : jsstring) : option A :=
  find (fun a => Js.eqb (text_of a) s) known.

Definition url_among (known : list (jsstring * jsstring)) (u : jsstring)
  : option jsstring :=
  map_get u known.

Definition sample_engine (datas : list (list Transaction))
    (entries : list (CacheEntry (list Transaction))) : Engine :=
  {| URL_path_search :=
       url_among [(lit "https://app.paytracker.com/transactions?page=1",
                   lit "/transactions?page=1")];
     JSON_parse_data := parse_among JSON_stringify_data datas;
     JSON_parse_entry := parse_among JSON_stringify_entry entries;
     max_string_length := 536870888%N |}.

(** The options of the exported instance [transactionCache]. *)
Definition exported_options : Options :=
  constructor {| ttl := None; maxEntries := Some 100%Z;
                 enableCompression := Some true |}.

(** The entry that [set([])] builds at time 1700000000000 when the
    current URL falls back to ["default"], and its JSON text. *)
Definition empty_entry : CacheEntry (list Transaction) :=
  {| data := []; timestamp := 1700000000000%Z;
     url := Some (lit "default");
     hash := Some (generateContentHash []) |}.

Definition empty_entry_text : jsstring := JSON_stringify_entry empty_entry.

(** A literal in which an apostrophe stands for a double quote. *)
Definition lit_q (s : string) : jsstring :=
  List.map (fun c => if N.eqb c 39 then 34%N else c) (lit s).

Lemma empty_entry_text_eq :
  empty_entry_text =
  lit_q "{'data':[],'timestamp':1700000000000,'url':'default','hash':'28y'}".
Proof. vm_compute. reflexivity. Qed.

(** What [compress] stores for it, and what [decompress] reads back: the
    run of eleven zeros is packed as [0110], and [17011] is then read as
    701 times the digit 1. *)
Lemma empty_entry_compressed :
  compress exported_options empty_entry_text =
  lit_q "{'data':[],'timestamp':170110,'url':'default','hash':'28y'}".
Proof. vm_compute. reflexivity. Qed.

Definition empty_entry_read_back : jsstring :=
  lit_q "{'data':[],'timestamp':" ++ repeat1 49%N 701 ++
  lit_q "0,'url':'default','hash':'28y'}".

(** C2. With compression enabled, [decompress (compress x)] is not [x]
    for the JSON text [x] of an entry that [set] builds: the text read
    back is 755 code units long instead of 66. *)
Theorem decompress_compress_differs :
  decompress (sample_engine [] []) exported_options
    (compress exported_options empty_entry_text)
  = Some empty_entry_read_back /\
  empty_entry_read_back <> empty_entry_text.
Proof.
  split; [vm_compute; reflexivity|].
  intros H. apply (f_equal (@length code)) in H. vm_compute in H.
  discriminate H.
Qed.

(** The transform changes a text that has nothing to pack, too. *)
Lemma decompress_reads_plain_text :
  compress exported_options (lit "a3a") = lit "a3a" /\
  decompress (sample_engine [] []) exported_options (lit "a3a")
  = Some (lit "aaa").
Proof. split; vm_compute; reflexivity. Qed.

(** With compression disabled both functions return their argument. *)
Lemma decompress_compress_disabled E options x :
  o_enableCompression options = false ->
  decompress E options (compress options x) = Some x.
Proof. intros H. unfold decompress, compress. rewrite H. reflexivity. Qed.

(** *** The memory tier *)

Section MemoryTier.

Variable options : Options.
Variable D : Type.

Implicit Types (x kv : jsstring * CacheEntry D).
Implicit Types (l m toDelete : list (jsstring * CacheEntry D)).

Lemma insert_by_timestamp_perm x l :
  Permutation (insert_by_timestamp x l) (x :: l).
Proof.
  induction l as [|y l IH]; simpl; [reflexivity|].
  destruct (timestamp (snd x) <? timestamp (snd y))%Z; [reflexivity|].
  rewrite IH. apply perm_swap.
Qed.

Lemma sort_by_timestamp_perm l :
  Permutation (sort_by_timestamp l) l.
Proof.
  unfold sort_by_timestamp.
  assert (H : forall l (acc : list (jsstring * CacheEntry D)),
    Permutation (fold_left (fun s x => insert_by_timestamp x s) l acc)
                (acc ++ l)).
  { clear l. induction l as [|x l IH]; intros acc; simpl.
    - rewrite app_nil_r. reflexivity.
    - rewrite IH, insert_by_timestamp_perm. simpl.
      apply Permutation_middle. }
  apply (H l []).
Qed.

Lemma filter_length_perm (f : jsstring * CacheEntry D -> bool) l l' :
  Permutation l l' -> length (filter f l) = length (filter f l').
Proof.
  induction 1 as [|x l l' _ IH|x y l|l l' l'' _ IH1 _ IH2]; simpl.
  - reflexivity.
  - destruct (f x); simpl; congruence.
  - destruct (f x), (f y); reflexivity.
  - congruence.
Qed.

Lemma filter_filter (f g : jsstring * CacheEntry D -> bool) l :
  filter f (filter g l) = filter (fun x => g x && f x) l.
Proof.
  induction l as [|x l IH]; simpl; [reflexivity|].
  destruct (g x); simpl; [destruct (f x)|]; rewrite IH; reflexivity.
Qed.

(** The keys of [toDelete], once deleted one by one, are all gone. *)
Definition kept toDelete kv : bool :=
  negb (existsb (Js.eqb (fst kv)) (List.map fst toDelete)).

Lemma delete_each toDelete : forall m,
  fold_left (fun m kv => map_delete (fst kv) m) toDelete m
  = filter (kept toDelete) m.
Proof.
  induction toDelete as [|d toDelete IH]; intros m; simpl.
  - symmetry. apply forallb_filter_id. apply forallb_forall. reflexivity.
  - rewrite IH. unfold map_delete. rewrite filter_filter.
    apply filter_ext. intros kv. unfold kept. simpl.
    rewrite negb_orb. reflexivity.
Qed.

Lemma kept_self toDelete kv : In kv toDelete -> kept toDelete kv = false.
Proof.
  intros H. unfold kept. apply negb_false_iff. apply existsb_exists.
  exists (fst kv). split; [apply in_map; exact H|apply eqb_refl].
Qed.

(** What [cleanupMemoryCache] leaves was there before and is not
    expired. *)
Lemma cleanupMemoryCache_keeps now (m : jsmap (CacheEntry D)) kv :
  In kv (cleanupMemoryCache options now m) ->
  In kv m /\ isExpired options now (snd kv) = false.
Proof.
  unfold cleanupMemoryCache. cbv zeta.
  set (m1 := filter (fun kv => negb (isExpired options now (snd kv))) m).
  assert (Hm1 : In kv m1 ->
                In kv m /\ isExpired options now (snd kv) = false).
  { unfold m1. rewrite filter_In. intros [H1 H2].
    apply negb_true_iff in H2. auto. }
  destruct (cap options <? Z.of_nat (length m1))%Z; [|exact Hm1].
  rewrite delete_each. rewrite filter_In. intros [H _]. auto.
Qed.

(** The memory tier after [cleanupMemoryCache] holds at most [cap]
    entries, for a cap that is not negative. *)
Lemma cleanupMemoryCache_bound now (m : jsmap (CacheEntry D)) :
  (0 <= cap options)%Z ->
  (Z.of_nat (length (cleanupMemoryCache options now m)) <= cap options)%Z.
Proof.
  intros Hcap. unfold cleanupMemoryCache. cbv zeta.
  set (m1 := filter (fun kv => negb (isExpired options now (snd kv))) m).
  destruct (cap options <? Z.of_nat (length m1))%Z eqn:E;
    [|apply Z.ltb_ge in E; exact E].
  apply Z.ltb_lt in E. rewrite delete_each.
  set (sorted := sort_by_timestamp m1).
  set (n := Z.to_nat (Z.of_nat (length sorted) - cap options)).
  assert (Hlen : length sorted = length m1)
    by (apply Permutation_length, sort_by_timestamp_perm).
  assert (Hperm : Permutation m1 (firstn n sorted ++ skipn n sorted)).
  { rewrite firstn_skipn. symmetry. apply sort_by_timestamp_perm. }
  rewrite (filter_length_perm _ Hperm), filter_app, length_app.
  replace (filter (kept (firstn n sorted)) (firstn n sorted)) with (@nil (jsstring * CacheEntry D)).
  - simpl. pose proof (filter_length_le (kept (firstn n sorted))
                         (skipn n sorted)) as Hle.
    rewrite length_skipn in Hle. unfold n in *. lia.
  - symmetry. apply filter_nil_all.
    intros x Hx. apply kept_self. exact Hx.
Qed.

End MemoryTier.

Section Eviction.

Variable options : Options.
Variable D : Type.

Implicit Types (x kv : jsstring * CacheEntry D).
Implicit Types (l m : list (jsstring * CacheEntry D)).

(** [a] is not younger than [b]. *)
Definition not_younger (a b : jsstring * CacheEntry D) : Prop :=
  (timestamp (snd a) <= timestamp (snd b))%Z.

Lemma insert_by_timestamp_sorted x l :
  StronglySorted not_younger l ->
  StronglySorted not_younger (insert_by_timestamp x l).
Proof.
  induction 1 as [|y l Hl IH Hy]; simpl.
  - constructor; constructor.
  - destruct (timestamp (snd x) <? timestamp (snd y))%Z eqn:E.
    + apply Z.ltb_lt in E. constructor; [constructor; assumption|].
      constructor; [unfold not_younger; lia|].
      rewrite Forall_forall in Hy |- *. intros z Hz.
      specialize (Hy z Hz). unfold not_younger in *. lia.
    + apply Z.ltb_ge in E. constructor; [exact IH|].
      rewrite Forall_forall in Hy |- *. intros z Hz.
      apply (Permutation_in _ (insert_by_timestamp_perm x l)) in Hz.
      destruct Hz as [<-|Hz]; [exact E|auto].
Qed.

Lemma sort_by_timestamp_sorted l :
  StronglySorted not_younger (sort_by_timestamp l).
Proof.
  unfold sort_by_timestamp.
  assert (H : forall l acc, StronglySorted not_younger acc ->
    StronglySorted not_younger
      (fold_left (fun s x => insert_by_timestamp x s) l acc)).
  { clear l. induction l as [|x l IH]; intros acc Hacc; simpl; auto.
    apply IH. apply insert_by_timestamp_sorted. exact Hacc. }
  apply H. constructor.
Qed.

(** The first entry of the sorted list is not younger than any entry. *)
Lemma sort_by_timestamp_head l v rest :
  sort_by_timestamp l = v :: rest ->
  In v l /\ forall kv, In kv l -> not_younger v kv.
Proof.
  intros H. pose proof (sort_by_timestamp_sorted l) as Hs.
  pose proof (sort_by_timestamp_perm l) as Hp. rewrite H in Hs, Hp.
  split; [apply (Permutation_in _ Hp); left; reflexivity|].
  intros kv Hkv. apply (Permutation_in _ (Permutation_sym Hp)) in Hkv.
  inversion Hs as [|? ? _ Hall]; subst.
  destruct Hkv as [<-|Hkv]; [unfold not_younger; lia|].
  rewrite Forall_forall in Hall. auto.
Qed.

Lemma cleanupMemoryCache_id now m :
  (forall kv, In kv m -> isExpired options now (snd kv) = false) ->
  (Z.of_nat (length m) <= cap options)%Z ->
  cleanupMemoryCache options now m = m.
Proof.
  intros Hfresh Hlen. unfold cleanupMemoryCache. cbv zeta.
  rewrite forallb_filter_id.
  - apply Z.ltb_ge in Hlen. rewrite Hlen. reflexivity.
  - apply forallb_forall. intros kv Hkv. rewrite (Hfresh kv Hkv).
    reflexivity.
Qed.

(** One entry over the cap: the entry that goes is the first of the
    sorted list, an entry that no other is older than. *)
Lemma cleanupMemoryCache_evicts_oldest now m :
  (0 <= cap options)%Z ->
  (forall kv, In kv m -> isExpired options now (snd kv) = false) ->
  (Z.of_nat (length m) = cap options + 1)%Z ->
  exists v, In v m /\ (forall kv, In kv m -> not_younger v kv) /\
            cleanupMemoryCache options now m = map_delete (fst v) m.
Proof.
  intros Hcap Hfresh Hlen. unfold cleanupMemoryCache. cbv zeta.
  rewrite forallb_filter_id.
  2:{ apply forallb_forall. intros kv Hkv. rewrite (Hfresh kv Hkv).
      reflexivity. }
  replace (cap options <? Z.of_nat (length m))%Z with true
    by (symmetry; apply Z.ltb_lt; lia).
  pose proof (Permutation_length (sort_by_timestamp_perm m)) as Hl.
  rewrite Hl.
  replace (Z.to_nat (Z.of_nat (length m) - cap options)) with 1 by lia.
  destruct (sort_by_timestamp m) as [|v rest] eqn:Es.
  - simpl in Hl. lia.
  - destruct (sort_by_timestamp_head _ Es) as [Hin Hmin].
    exists v. simpl. auto.
Qed.

Lemma map_delete_length (k : jsstring) (e : CacheEntry D) m :
  NoDup (List.map fst m) -> In (k, e) m ->
  S (length (map_delete k m)) = length m.
Proof.
  induction m as [|[k' e'] m IH]; simpl; intros Hnd Hin; [contradiction|].
  inversion Hnd as [|? ? Hnotin Hnd']; subst.
  destruct Hin as [Heq|Hin].
  - inversion Heq; subst. rewrite eqb_refl. simpl. f_equal.
    unfold map_delete. rewrite forallb_filter_id; [reflexivity|].
    apply forallb_forall. intros [k1 e1] H1. simpl.
    apply negb_true_iff. apply eqb_neq. intros ->.
    apply Hnotin. apply (in_map fst) in H1. exact H1.
  - destruct (Js.eqb k' k) eqn:Ek.
    + apply eqb_eq in Ek. subst k'. exfalso. apply Hnotin.
      apply (in_map fst) in Hin. exact Hin.
    + simpl. f_equal. apply IH; assumption.
Qed.

Lemma map_set_new {V} (k : jsstring) (v : V) (m : jsmap V) :
  ~ In k (List.map fst m) -> map_set k v m = m ++ [(k, v)].
Proof.
  induction m as [|[k' v'] m IH]; simpl; intros H; [reflexivity|].
  destruct (Js.eqb k' k) eqn:Ek.
  - apply eqb_eq in Ek. subst. exfalso. apply H. left. reflexivity.
  - f_equal. apply IH. intros Hin. apply H. right. exact Hin.
Qed.

Lemma map_delete_keys (k : jsstring) m :
  List.map fst (map_delete k m)
  = filter (fun k' => negb (Js.eqb k' k)) (List.map fst m).
Proof.
  induction m as [|[k' e'] m IH]; simpl; [reflexivity|].
  destruct (Js.eqb k' k); simpl; rewrite IH; reflexivity.
Qed.

End Eviction.

(** *** Writes and reads *)

(** One call of [set]: what the host answers, the object passed and the
    URL passed. *)
Record write : Type := {
  w_env : Env;
  w_data : ref;
  w_url : option jsstring
}.

Definition stamp {D} (kv : jsstring * CacheEntry D) : jsstring * Z :=
  (fst kv, timestamp (snd kv)).

Section StoreFacts.

Variable E : Engine.
Variable options : Options.

Definition set_all : list write -> State -> option State :=
  fix go (ws : list write) (st : State) : option State :=
    match ws with
    | [] => Some st
    | w :: ws' =>
      match set E options (w_env w) (w_data w) (w_url w) st with
      | Some st' => go ws' st'
      | None => None
      end
    end.

(** The URL under which [set] files the entry. *)
Definition currentUrl_of (env : Env) (url : option jsstring) : jsstring :=
  or_else (url_or url (getCurrentUrl env)) (lit "default").

(** The key under which [set] files the object [d] of the heap [h]. *)
Definition key_of (h : heap) (env : Env) (d : ref) (url : option jsstring)
  : jsstring :=
  generateKey E (currentUrl_of env url)
    (Some (generateContentHash (deref h d))).

Definition write_key (h : heap) (w : write) : jsstring :=
  key_of h (w_env w) (w_data w) (w_url w).

Definition write_stamp (h : heap) (w : write) : jsstring * Z :=
  (write_key h w, now (w_env w)).

Lemma set_effect env d url st st' :
  set E options env d url st = Some st' ->
  exists clone,
    JSON_parse_data E (JSON_stringify_data (deref (objects st) d))
      = Some clone /\
    objects st' = objects st ++ [clone] /\
    memoryCache st' =
      cleanupMemoryCache options (now env)
        (map_set (key_of (objects st) env d url)
           {| data := length (objects st); timestamp := now env;
              url := Some (currentUrl_of env url);
              hash := Some (generateContentHash (deref (objects st) d)) |}
           (memoryCache st)).
Proof.
  unfold set. cbv zeta.
  destruct (JSON_parse_data E _) as [clone|] eqn:Ec; [|discriminate].
  simpl. intros H. inversion H; subst. clear H. simpl.
  exists clone. auto.
Qed.

Lemma deref_app (h ext : heap) r :
  r < length h -> deref (h ++ ext) r = deref h r.
Proof. intros H. unfold deref. apply app_nth1. exact H. Qed.

Lemma set_all_app ws1 : forall ws2 st st',
  set_all (ws1 ++ ws2) st = Some st' ->
  exists st1, set_all ws1 st = Some st1 /\ set_all ws2 st1 = Some st'.
Proof.
  induction ws1 as [|w ws1 IH]; intros ws2 st st' H; simpl in *.
  - exists st. auto.
  - destruct (set E options _ _ _ st) as [st0|]; [|discriminate].
    apply IH. exact H.
Qed.

(** After [set] the memory tier holds at most [cap] entries. *)
Lemma set_memory_bound env d url st st' :
  (0 <= cap options)%Z ->
  set E options env d url st = Some st' ->
  (Z.of_nat (length (memoryCache st')) <= cap options)%Z.
Proof.
  intros Hcap H. apply set_effect in H. destruct H as (clone & _ & _ & ->).
  apply cleanupMemoryCache_bound. exact Hcap.
Qed.

Section Scenario.

(** The heap before the first write; the objects written are in it. *)
Variable h0 : heap.

Definition fresh_throughout (ws : list write) : Prop :=
  forall w w', In w ws -> In w' ws ->
    (now (w_env w') - now (w_env w) <= ttl_ms options)%Z.

Lemma stamp_in {D} (m : jsmap (CacheEntry D)) ws kv :
  List.map stamp m = List.map (write_stamp h0) ws -> In kv m ->
  exists w, In w ws /\ write_stamp h0 w = stamp kv.
Proof.
  intros Hm Hkv. apply (in_map stamp) in Hkv. rewrite Hm in Hkv.
  apply in_map_iff in Hkv. destruct Hkv as (w & Hw & Hin). eauto.
Qed.

Lemma stamp_keys {D} (m : jsmap (CacheEntry D)) ws :
  List.map stamp m = List.map (write_stamp h0) ws ->
  List.map fst m = List.map (write_key h0) ws.
Proof.
  intros H. apply (f_equal (List.map fst)) in H.
  rewrite !map_map in H. exact H.
Qed.

(** One write of a new key into a memory tier that stays within its cap
    and holds no expired entry: the entry is appended, nothing goes. *)
Lemma set_appends w st st' done :
  (exists ext, objects st = h0 ++ ext) ->
  List.map stamp (memoryCache st) = List.map (write_stamp h0) done ->
  w_data w < length h0 ->
  ~ In (write_key h0 w) (List.map (write_key h0) done) ->
  (Z.of_nat (length done) < cap options)%Z ->
  fresh_throughout (done ++ [w]) ->
  set E options (w_env w) (w_data w) (w_url w) st = Some st' ->
  (exists ext, objects st' = h0 ++ ext) /\
  List.map stamp (memoryCache st')
  = List.map (write_stamp h0) (done ++ [w]).
Proof.
  intros (ext & Hobj) Hmem Hvalid Hnew Hlen Hfresh H.
  apply set_effect in H. destruct H as (clone & _ & Hobj' & Hmem').
  split.
  { exists (ext ++ [clone]). rewrite Hobj', Hobj, app_assoc. reflexivity. }
  assert (Hkey : key_of (objects st) (w_env w) (w_data w) (w_url w)
                 = write_key h0 w).
  { unfold write_key, key_of. rewrite Hobj, deref_app by exact Hvalid.
    reflexivity. }
  rewrite Hkey in Hmem'.
  assert (Hnew' : ~ In (write_key h0 w) (List.map fst (memoryCache st)))
    by (rewrite (stamp_keys _ _ Hmem); exact Hnew).
  rewrite (map_set_new _ _ _ Hnew') in Hmem'.
  rewrite cleanupMemoryCache_id in Hmem'.
  - rewrite Hmem', !map_app, Hmem. reflexivity.
  - intros kv Hkv. unfold isExpired. apply Z.ltb_ge.
    apply in_app_or in Hkv. destruct Hkv as [Hkv|[<-|[]]].
    + destruct (stamp_in _ _ _ Hmem Hkv) as (w0 & Hw0 & Hs).
      unfold write_stamp, stamp in Hs. injection Hs as Hk Ht.
      assert (Hf : (now (w_env w) - now (w_env w0) <= ttl_ms options)%Z)
        by (apply Hfresh; apply in_or_app;
            [left; exact Hw0|right; left; auto]).
      rewrite Ht in Hf. exact Hf.
    + simpl. apply Hfresh; apply in_or_app; right; left; auto.
  - rewrite length_app. simpl.
    apply (f_equal (@length _)) in Hmem. rewrite !length_map in Hmem. lia.
Qed.

Lemma set_all_fills : forall ws done st st',
  (exists ext, objects st = h0 ++ ext) ->
  List.map stamp (memoryCache st) = List.map (write_stamp h0) done ->
  (forall w, In w ws -> w_data w < length h0) ->
  NoDup (List.map (write_key h0) (done ++ ws)) ->
  (Z.of_nat (length (done ++ ws)) <= cap options)%Z ->
  fresh_throughout (done ++ ws) ->
  set_all ws st = Some st' ->
  (exists ext, objects st' = h0 ++ ext) /\
  List.map stamp (memoryCache st')
  = List.map (write_stamp h0) (done ++ ws).
Proof.
  induction ws as [|w ws IH]; intros done st st' Hobj Hmem Hvalid Hnd Hlen
    Hfresh H; simpl in H.
  - inversion H; subst. rewrite app_nil_r. auto.
  - destruct (set E options _ _ _ st) as [st1|] eqn:Es; [|discriminate].
    assert (Hassoc : done ++ w :: ws = (done ++ [w]) ++ ws)
      by (rewrite <- app_assoc; reflexivity).
    rewrite Hassoc in Hnd, Hlen, Hfresh |- *.
    assert (H1 : (exists ext, objects st1 = h0 ++ ext) /\
                 List.map stamp (memoryCache st1)
                 = List.map (write_stamp h0) (done ++ [w])).
    { apply set_appends with (st := st);
        [exact Hobj|exact Hmem| | | | |exact Es].
      - apply Hvalid. left. reflexivity.
      - rewrite map_app in Hnd. apply NoDup_app_remove_r in Hnd.
        rewrite map_app in Hnd. simpl in Hnd.
        apply NoDup_remove_2 in Hnd. rewrite app_nil_r in Hnd. exact Hnd.
      - rewrite !length_app in Hlen. simpl in Hlen. lia.
      - intros a b Ha Hb. apply Hfresh; apply in_or_app; left; assumption. }
    destruct H1 as [Hobj1 Hmem1].
    apply (IH (done ++ [w]) st1 st'); auto.
    intros a Ha. apply Hvalid. right. exact Ha.
Qed.

End Scenario.

End StoreFacts.

(** C7. For a cap that is not negative: after every [set] the memory
    tier holds at most [cap] entries; and [cap + 1] writes of distinct
    keys into an empty memory tier, none of them expired when the last one
    is written, leave exactly [cap] entries: all of them but one that no
    other entry is older than. *)
Theorem memory_tier_capped (E : Engine) (options : Options) :
  (0 <= cap options)%Z ->
  (forall env d url st st',
     set E options env d url st = Some st' ->
     (Z.of_nat (length (memoryCache st')) <= cap options)%Z) /\
  (forall ws st st',
     memoryCache st = [] ->
     (forall w, In w ws -> w_data w < length (objects st)) ->
     NoDup (List.map (write_key E (objects st)) ws) ->
     Z.of_nat (length ws) = (cap options + 1)%Z ->
     fresh_throughout options ws ->
     set_all E options ws st = Some st' ->
     Z.of_nat (length (memoryCache st')) = cap options /\
     exists v,
       In v ws /\
       (forall w, In w ws -> (now (w_env v) <= now (w_env w))%Z) /\
       List.map fst (memoryCache st')
       = filter (fun k => negb (Js.eqb k (write_key E (objects st) v)))
           (List.map (write_key E (objects st)) ws)).
Proof.
  intros Hcap. split.
  { intros env d url st st' H. eapply set_memory_bound; eauto. }
  intros ws st st' Hempty Hvalid Hnd Hlen Hfresh Hall.
  set (h0 := objects st) in *.
  destruct (exists_last (l := ws)) as (init & last & Hws).
  { intros ->. simpl in Hlen. lia. }
  subst ws. apply set_all_app in Hall.
  destruct Hall as (st1 & Hinit & Hlast). simpl in Hlast.
  destruct (set E options _ _ _ st1) as [st2|] eqn:Es; [|discriminate].
  inversion Hlast; subst st2. clear Hlast.
  assert (Hfill : (exists ext, objects st1 = h0 ++ ext) /\
                  List.map stamp (memoryCache st1)
                  = List.map (write_stamp E h0) ([] ++ init)).
  { apply set_all_fills with (options := options) (st := st).
    - exists []. rewrite app_nil_r. reflexivity.
    - rewrite Hempty. reflexivity.
    - intros w Hw. apply Hvalid. apply in_or_app. left. exact Hw.
    - simpl. rewrite map_app in Hnd. apply NoDup_app_remove_r in Hnd.
      exact Hnd.
    - simpl. rewrite length_app in Hlen. simpl in Hlen. lia.
    - simpl. intros a b Ha Hb.
      apply Hfresh; apply in_or_app; left; assumption.
    - exact Hinit. }
  simpl in Hfill. destruct Hfill as [(ext & Hobj1) Hmem1].
  apply set_effect in Es. destruct Es as (clone & _ & _ & Hmem').
  assert (Hkey : key_of E (objects st1) (w_env last) (w_data last)
                   (w_url last) = write_key E h0 last).
  { unfold write_key, key_of. rewrite Hobj1, deref_app; [reflexivity|].
    apply Hvalid. apply in_or_app. right. left. reflexivity. }
  rewrite Hkey in Hmem'.
  assert (Hnew : ~ In (write_key E h0 last)
                   (List.map fst (memoryCache st1))).
  { rewrite (stamp_keys _ _ _ _ Hmem1). rewrite map_app in Hnd. simpl in Hnd.
    apply NoDup_remove_2 in Hnd. rewrite app_nil_r in Hnd. exact Hnd. }
  rewrite (map_set_new _ _ _ Hnew) in Hmem'.
  match type of Hmem' with
  | _ = cleanupMemoryCache _ _ ?M => set (M' := M) in *
  end.
  assert (Hstamps : List.map stamp M'
                    = List.map (write_stamp E h0) (init ++ [last])).
  { unfold M'. rewrite !map_app, Hmem1. reflexivity. }
  assert (HlenM : length M' = length (init ++ [last])).
  { apply (f_equal (@length _)) in Hstamps. rewrite !length_map in Hstamps.
    exact Hstamps. }
  destruct (cleanupMemoryCache_evicts_oldest options (now (w_env last)) M')
    as (v' & Hv' & Hmin & Hdel).
  { exact Hcap. }
  { intros kv Hkv. unfold isExpired. apply Z.ltb_ge.
    destruct (stamp_in _ _ _ _ _ Hstamps Hkv) as (w0 & Hw0 & Hs).
    unfold write_stamp, stamp in Hs. injection Hs as Hk Ht.
    assert (Hf : (now (w_env last) - now (w_env w0) <= ttl_ms options)%Z)
      by (apply Hfresh; [exact Hw0|apply in_or_app; right; left; auto]).
    rewrite Ht in Hf. exact Hf. }
  { rewrite HlenM. exact Hlen. }
  assert (Hmem2 : memoryCache st' = map_delete (fst v') M')
    by (rewrite <- Hdel; exact Hmem').
  clear Hmem'. rename Hmem2 into Hmem'.
  destruct (stamp_in _ _ _ _ _ Hstamps Hv') as (v & Hv & Hsv).
  unfold write_stamp, stamp in Hsv. injection Hsv as Hkv Htv.
  split.
  - assert (Hnd' : NoDup (List.map fst M'))
      by (rewrite (stamp_keys _ _ _ _ Hstamps); exact Hnd).
    destruct v' as [k' e']. pose proof (@map_delete_length _ k' e' M' Hnd' Hv') as Hl.
    rewrite Hmem'. simpl fst. lia.
  - exists v. split; [exact Hv|]. split.
    + intros w Hw. apply (in_map (write_stamp E h0)) in Hw.
      rewrite <- Hstamps in Hw. apply in_map_iff in Hw.
      destruct Hw as (kv & Hs & Hkv').
      unfold write_stamp, stamp in Hs. injection Hs as _ Ht.
      specialize (Hmin kv Hkv'). unfold not_younger in Hmin.
      rewrite Htv, <- Ht. exact Hmin.
    + rewrite Hmem', map_delete_keys, (stamp_keys _ _ _ _ Hstamps), Hkv.
      reflexivity.
Qed.

(** Three writes into a store whose cap is two. *)
Definition sample_tx (name id : string) : Transaction :=
  {| customer := lit name; date := lit "Jan 5, 2025";
     amount := lit "$12.50"; transactionId := lit id |}.

Definition d_john : list Transaction := [sample_tx "John Doe" "EEP86556NRJ4C"].
Definition d_jane : list Transaction := [sample_tx "Jane Smith" "BC61CZCMFPEGG"].
Definition d_bob : list Transaction := [sample_tx "Bob Johnson" "0807XV6ZZKSM0"].

Definition cap_two : Options :=
  constructor {| ttl := None; maxEntries := Some 2%Z;
                 enableCompression := None |}.

Definition engine3 : Engine := sample_engine [d_john; d_jane; d_bob] [].

Definition no_tab_at (t : Z) : Env :=
  {| now := t; active_tabs := Rejected no_tab_error |}.

Definition three_objects : State :=
  {| objects := [d_john; d_jane; d_bob]; memoryCache := []; local := [] |}.

Definition three_writes : list write :=
  [ {| w_env := no_tab_at 1000; w_data := 0; w_url := None |};
    {| w_env := no_tab_at 2000; w_data := 1; w_url := None |};
    {| w_env := no_tab_at 3000; w_data := 2; w_url := None |} ].

Definition after_three_writes : State :=
  match set_all engine3 cap_two three_writes three_objects with
  | Some st => st
  | None => three_objects
  end.

Lemma three_writes_run :
  set_all engine3 cap_two three_writes three_objects
  = Some after_three_writes.
Proof. vm_compute. reflexivity. Qed.

(** The first write is the one that goes. *)
Lemma three_writes_keys :
  List.map stamp (memoryCache after_three_writes)
  = [(lit "default_" ++ generateContentHash d_jane, 2000%Z);
     (lit "default_" ++ generateContentHash d_bob, 3000%Z)].
Proof. vm_compute. reflexivity. Qed.

Lemma memory_tier_capped_witness :
  (0 <= cap cap_two)%Z /\
  Z.of_nat (length (memoryCache after_three_writes)) = cap cap_two.
Proof.
  assert (Hcap : (0 <= cap cap_two)%Z) by (vm_compute; discriminate).
  split; [exact Hcap|].
  apply (proj2 (memory_tier_capped engine3 cap_two Hcap)
           three_writes three_objects after_three_writes).
  - reflexivity.
  - intros w [<-|[<-|[<-|[]]]]; simpl; lia.
  - vm_compute.
    repeat constructor; simpl; intuition discriminate.
  - reflexivity.
  - intros w w' [<-|[<-|[<-|[]]]] [<-|[<-|[<-|[]]]]; vm_compute;
      discriminate.
  - exact three_writes_run.
Defined.

(** *** A write followed by a read *)

Lemma find_split {A} (f : A -> bool) (l1 : list A) x l2 :
  (forall y, In y l1 -> f y = false) -> f x = true ->
  find f (l1 ++ x :: l2) = Some x.
Proof.
  induction l1 as [|a l1 IH]; simpl; intros H Hx.
  - rewrite Hx. reflexivity.
  - rewrite (H a) by auto. apply IH; auto.
Qed.

(** [map_set] puts the entry where the key was, or at the end. *)
Lemma map_set_split {V} (k : jsstring) (v : V) (m : jsmap V) :
  exists l1 l2,
    map_set k v m = l1 ++ (k, v) :: l2 /\
    (forall y, In y l1 -> In y m /\ fst y <> k) /\
    (In k (List.map fst m) -> length (map_set k v m) = length m).
Proof.
  induction m as [|[k' v'] m (l1 & l2 & Heq & Hl1 & Hlen)]; simpl.
  - exists [], []. simpl. repeat split; intros; contradiction.
  - destruct (Js.eqb k' k) eqn:Ek.
    + exists [], m. simpl. repeat split; intros; try contradiction.
    + exists ((k', v') :: l1), l2. simpl. rewrite Heq.
      split; [reflexivity|]. split.
      * intros y [<-|Hy].
        -- split; [left; reflexivity|]. simpl. apply eqb_neq. exact Ek.
        -- destruct (Hl1 y Hy). auto.
      * intros [Hk|Hk].
        -- simpl in Hk. subst k'. rewrite eqb_refl in Ek. discriminate.
        -- rewrite <- Heq. f_equal. apply Hlen. exact Hk.
Qed.

Section RoundTrip.

Variable E : Engine.
Variable options : Options.

Lemma sort_by_timestamp_snoc {D} (l : list (jsstring * CacheEntry D)) x :
  sort_by_timestamp (l ++ [x]) = insert_by_timestamp x (sort_by_timestamp l).
Proof. unfold sort_by_timestamp. rewrite fold_left_app. reflexivity. Qed.

(** The entry that [set] has just filed stays in the memory tier: it is
    not expired, and when one entry has to go it is not the first of the
    sorted list, since it is stamped last and filed last. *)
Lemma written_entry_stays {D} now (k : jsstring) (e : CacheEntry D)
    (m : jsmap (CacheEntry D)) :
  (1 <= cap options)%Z ->
  (Z.of_nat (length m) <= cap options)%Z ->
  (forall kv, In kv m -> (timestamp (snd kv) <= now)%Z) ->
  timestamp e = now -> isExpired options now e = false ->
  exists g,
    cleanupMemoryCache options now (map_set k e m)
    = filter g (map_set k e m) /\ g (k, e) = true.
Proof.
  intros Hcap Hlen Hpast Hts Hfresh.
  unfold cleanupMemoryCache. cbv zeta.
  set (fresh := fun kv : jsstring * CacheEntry D =>
                  negb (isExpired options now (snd kv))).
  assert (Hfresh_e : fresh (k, e) = true)
    by (unfold fresh; simpl; rewrite Hfresh; reflexivity).
  destruct (in_dec (list_eq_dec N.eq_dec) k (List.map fst m)) as [Hin|Hnew].
  { destruct (map_set_split k e m) as (_ & _ & _ & _ & Hsame).
    pose proof (filter_length_le fresh (map_set k e m)) as Hle.
    rewrite (Hsame Hin) in Hle.
    replace (cap options <? Z.of_nat (length (filter fresh (map_set k e m))))%Z
      with false by (symmetry; apply Z.ltb_ge; lia).
    exists fresh. auto. }
  rewrite (map_set_new _ _ _ Hnew).
  rewrite filter_app. simpl filter. rewrite Hfresh_e.
  set (l := filter fresh m).
  assert (Hl : length l <= length m) by apply filter_length_le.
  destruct (cap options <? Z.of_nat (length (l ++ [(k, e)])))%Z eqn:Ecap.
  2:{ exists fresh. split; [|exact Hfresh_e].
      rewrite filter_app. simpl filter. rewrite Hfresh_e. reflexivity. }
  apply Z.ltb_lt in Ecap. rewrite length_app in Ecap. simpl in Ecap.
  rewrite (sort_by_timestamp_snoc l (k, e)).
  destruct (sort_by_timestamp l) as [|y s] eqn:Es.
  { pose proof (Permutation_length (sort_by_timestamp_perm l)) as Hp.
    rewrite Es in Hp. simpl in Hp. lia. }
  assert (Hy : In y m).
  { assert (H : In y l).
    { apply (Permutation_in _ (sort_by_timestamp_perm l)). rewrite Es.
      left. reflexivity. }
    unfold l in H. apply filter_In in H. apply H. }
  simpl insert_by_timestamp.
  replace (timestamp e <? timestamp (snd y))%Z with false.
  2:{ symmetry. apply Z.ltb_ge. rewrite Hts. apply Hpast. exact Hy. }
  pose proof (Permutation_length
                (insert_by_timestamp_perm (k, e) s)) as Hins.
  pose proof (Permutation_length (sort_by_timestamp_perm l)) as Hsl.
  rewrite Es in Hsl. simpl in Hins, Hsl. simpl length.
  replace (Z.to_nat (Z.of_nat (S (length (insert_by_timestamp (k, e) s)))
                     - cap options)) with 1 by lia.
  simpl firstn. exists (fun kv => fresh kv && kept [y] kv).
  assert (Hkept : kept [y] (k, e) = true).
  { unfold kept. simpl. rewrite orb_false_r.
    apply negb_true_iff. apply eqb_neq. intros Hk. apply Hnew.
    rewrite Hk. apply in_map. exact Hy. }
  split.
  - transitivity (filter (kept [y]) (l ++ [(k, e)]));
      [exact (delete_each [y] (l ++ [(k, e)]))|].
    rewrite <- filter_filter, (filter_app fresh). simpl filter.
    rewrite Hfresh_e. reflexivity.
  - rewrite Hfresh_e, Hkept. reflexivity.
Qed.

End RoundTrip.

(** The round trip: [set(d, url)] succeeds, and the [get(url)] that
    follows returns an object that is equal to [d] and is not [d]. *)
Definition round_trip (E : Engine) (options : Options) (env env' : Env)
    (d : ref) (url : option jsstring) (st : State) : Prop :=
  exists st1 r st2,
    set E options env d url st = Some st1 /\
    get E options env' url st1 = (Some r, st2) /\
    deref (objects st2) r = deref (objects st) d /\ r <> d.

(** What the round trip is stated for: [d] is an object of the caller,
    JSON gives it back, and the read comes after the write and within the
    time to live. *)
Definition immediate_read (E : Engine) (options : Options) (env env' : Env)
    (d : ref) (st : State) : Prop :=
  d < length (objects st) /\
  JSON_parse_data E (JSON_stringify_data (deref (objects st) d))
    = Some (deref (objects st) d) /\
  (now env <= now env')%Z /\
  (now env' - now env <= ttl_ms options)%Z.

(** The memory tier holds no entry that [get(url)] would answer with
    before it reaches the one just written: any entry under another key
    that matches the URL is expired at the time of the read. *)
Definition no_earlier_answer (E : Engine) (options : Options)
    (env env' : Env) (d : ref) (url : option jsstring) (st : State) : Prop :=
  forall kv, In kv (memoryCache st) ->
    fst kv <> key_of E (objects st) env d url ->
    url_matches url (url_or url (getCurrentUrl env')) (snd kv) = true ->
    isExpired options (now env') (snd kv) = true.

(** The memory tier is as [set] leaves it: within a cap of at least one
    entry, with no entry stamped later than the write to come. *)
Definition settled (options : Options) (env : Env) (st : State) : Prop :=
  (1 <= cap options)%Z /\
  (Z.of_nat (length (memoryCache st)) <= cap options)%Z /\
  forall kv, In kv (memoryCache st) -> (timestamp (snd kv) <= now env)%Z.

Lemma url_matches_written env env' url (e : CacheEntry ref) :
  Storage.url e = Some (currentUrl_of env url) ->
  url_matches url (url_or url (getCurrentUrl env')) e = true.
Proof.
  intros H. unfold url_matches. rewrite H.
  unfold currentUrl_of, url_or, url_given.
  destruct url as [u|]; [|apply orb_true_r].
  unfold or_else. destruct (truthy u) eqn:Eu; [|apply orb_true_r].
  rewrite Eu. rewrite eqb_refl. reflexivity.
Qed.

(** The entry that [set] files, and the state it leaves. *)
Definition entry_of (h : heap) (env : Env) (d : ref) (url : option jsstring)
  : CacheEntry ref :=
  {| data := length h; timestamp := now env;
     url := Some (currentUrl_of env url);
     hash := Some (generateContentHash (deref h d)) |}.

Lemma set_succeeds (E : Engine) (options : Options) env d url st clone :
  JSON_parse_data E (JSON_stringify_data (deref (objects st) d))
    = Some clone ->
  exists st1,
    set E options env d url st = Some st1 /\
    objects st1 = objects st ++ [clone] /\
    memoryCache st1 =
      cleanupMemoryCache options (now env)
        (map_set (key_of E (objects st) env d url)
           (entry_of (objects st) env d url) (memoryCache st)).
Proof.
  intros H. unfold set. cbv zeta. rewrite H.
  eexists. split; [reflexivity|]. split; reflexivity.
Qed.

(** X27.  On a settled memory tier that holds no earlier answer for the
    URL, [set(d, url)] followed at once by [get(url)] returns a copy of
    [d]: equal to it, at another address. *)
Theorem set_then_get_round_trip (E : Engine) (options : Options)
    (env env' : Env) (d : ref) (url : option jsstring) (st : State) :
  immediate_read E options env env' d st ->
  settled options env st ->
  no_earlier_answer E options env env' d url st ->
  round_trip E options env env' d url st.
Proof.
  intros (Hlive & Hjson & Hmono & Httl) (Hcap & Hlen & Hpast) Hnone.
  destruct (set_succeeds E options env d url st Hjson)
    as (st1 & Hset & Hobj & Hmem).
  set (key := key_of E (objects st) env d url) in *.
  set (entry := entry_of (objects st) env d url) in *.
  assert (Hfresh : isExpired options (now env) entry = false).
  { unfold isExpired. simpl. apply Z.ltb_ge. lia. }
  destruct (@written_entry_stays options ref (now env) key entry
              (memoryCache st) Hcap Hlen Hpast eq_refl Hfresh)
    as (g & Hg & Hge).
  destruct (map_set_split key entry (memoryCache st))
    as (l1 & l2 & Hsplit & Hl1 & _).
  exists st1, (length (objects st)), st1.
  split; [exact Hset|]. unfold get. cbv zeta.
  assert (Hm1 : memoryCache st1
                = filter g l1 ++ (key, entry) :: filter g l2).
  { rewrite Hmem. transitivity (filter g (map_set key entry (memoryCache st)));
      [exact Hg|].
    rewrite Hsplit, filter_app. simpl filter. rewrite Hge. reflexivity. }
  rewrite Hm1, find_split.
  - split; [reflexivity|]. split; [|lia].
    rewrite Hobj. unfold deref. rewrite app_nth2 by lia.
    rewrite Nat.sub_diag. reflexivity.
  - intros y Hy. apply filter_In in Hy. destruct Hy as [Hy _].
    destruct (Hl1 y Hy) as [Hin Hkey].
    destruct (url_matches url _ (snd y)) eqn:Eu; [|reflexivity].
    rewrite (Hnone y Hin Hkey Eu). reflexivity.
  - simpl snd. rewrite (url_matches_written env env' url entry eq_refl).
    unfold isExpired. simpl.
    replace (ttl_ms options <? now env' - now env)%Z with false
      by (symmetry; apply Z.ltb_ge; lia).
    reflexivity.
Qed.

(** A page of the target application, and a store that already holds a
    write for it. *)
Definition page_url : option jsstring :=
  Some (lit "https://app.paytracker.com/transactions?page=1").

Definition after_john : State :=
  match set engine3 exported_options (no_tab_at 1000) 0 page_url
          three_objects with
  | Some st => st
  | None => three_objects
  end.

Lemma after_john_run :
  set engine3 exported_options (no_tab_at 1000) 0 page_url three_objects
  = Some after_john.
Proof. vm_compute. reflexivity. Qed.

(** Writing [d_jane] for the same page and reading at once answers with
    the copy of [d_john]: the older entry sits first in the memory tier,
    under the key of its own content. *)
Lemma stale_read_trace :
  exists st1 st2 r,
    set engine3 exported_options (no_tab_at 2000) 1 page_url after_john
      = Some st1 /\
    get engine3 exported_options (no_tab_at 2000) page_url st1
      = (Some r, st2) /\
    deref (objects st2) r = d_john /\
    List.map fst (memoryCache st1)
    = [lit "/transactions?page=1_" ++ generateContentHash d_john;
       lit "/transactions?page=1_" ++ generateContentHash d_jane].
Proof.
  eexists. eexists. eexists.
  split; [vm_compute; reflexivity|].
  split; [vm_compute; reflexivity|].
  split; vm_compute; reflexivity.
Qed.

(** C5.  A write is not what the read that follows it returns when the
    memory tier already holds other content for the page.  On the exported
    instance, after [set(d_john, u)], the calls [set(d_jane, u)] and
    [get(u)] at one and the same instant, within the time to live, answer
    with the copy of [d_john]: the entry of [d_jane] is filed behind it,
    under the key of its own content hash, and [get] takes the first entry
    of the page.  So the round trip fails for a read that follows the
    write at once. *)
Theorem set_then_get_answers_older_entry :
  immediate_read engine3 exported_options (no_tab_at 2000) (no_tab_at 2000)
    1 after_john /\
  deref (objects after_john) 1 = d_jane /\
  d_jane <> d_john /\
  (exists st1 st2 r,
     set engine3 exported_options (no_tab_at 2000) 1 page_url after_john
       = Some st1 /\
     get engine3 exported_options (no_tab_at 2000) page_url st1
       = (Some r, st2) /\
     deref (objects st2) r = d_john) /\
  ~ round_trip engine3 exported_options (no_tab_at 2000) (no_tab_at 2000)
      1 page_url after_john.
Proof.
  split.
  { split; [vm_compute; lia|]. split; [vm_compute; reflexivity|].
    split; vm_compute; discriminate. }
  split; [reflexivity|]. split; [discriminate|]. split.
  - eexists. eexists. eexists.
    split; [vm_compute; reflexivity|].
    split; vm_compute; reflexivity.
  - intros (st1 & r & st2 & Hset & Hget & Hd & _).
    vm_compute in Hset. inversion Hset; subst st1. clear Hset.
    vm_compute in Hget. inversion Hget; subst r st2. clear Hget.
    vm_compute in Hd. discriminate Hd.
Qed.

Lemma set_then_get_round_trip_witness :
  round_trip engine3 exported_options (no_tab_at 1000) (no_tab_at 1000)
    0 page_url three_objects.
Proof.
  apply set_then_get_round_trip.
  - split; [vm_compute; lia|]. split; [vm_compute; reflexivity|].
    split; vm_compute; discriminate.
  - split; [vm_compute; discriminate|].
    split; [vm_compute; discriminate|]. intros kv [].
  - intros kv [].
Defined.

(** *** Expiry *)

Lemma isExpired_spec {D} (options : Options) now (e : CacheEntry D) :
  isExpired options now e = true <-> (now - timestamp e > ttl_ms options)%Z.
Proof. unfold isExpired. rewrite Z.ltb_lt. lia. Qed.

(** The time to live of a store built without one is ten minutes. *)
Lemma default_ttl maxEntries enableCompression :
  ttl_ms (constructor {| ttl := None; maxEntries := maxEntries;
                         enableCompression := enableCompression |})
  = 600000%Z.
Proof. reflexivity. Qed.

Lemma expired_one_past_ttl {D} (options : Options) now (e : CacheEntry D) :
  timestamp e = (now - ttl_ms options - 1)%Z ->
  isExpired options now e = true.
Proof. intros H. apply isExpired_spec. lia. Qed.

Lemma map_set_in {V} (k : jsstring) (v : V) (m : jsmap V) :
  In (k, v) (map_set k v m).
Proof.
  destruct (map_set_split k v m) as (l1 & l2 & -> & _).
  apply in_or_app. right. left. reflexivity.
Qed.

Lemma map_get_delete {V} (k k' : jsstring) (m : jsmap V) :
  map_get k (map_delete k' m)
  = if Js.eqb k k' then None else map_get k m.
Proof.
  induction m as [|[k0 v0] m IH]; simpl.
  - destruct (Js.eqb k k'); reflexivity.
  - destruct (Js.eqb k0 k') eqn:E0; simpl.
    + rewrite IH. destruct (Js.eqb k k') eqn:Ek; [reflexivity|].
      destruct (Js.eqb k0 k) eqn:E1; [|reflexivity].
      apply eqb_eq in E0, E1. subst. rewrite eqb_refl in Ek. discriminate.
    + rewrite IH. destruct (Js.eqb k0 k) eqn:E1; [|reflexivity].
      apply eqb_eq in E1. subst k0. rewrite E0. reflexivity.
Qed.

Section ExpiryFacts.

Variable E : Engine.
Variable options : Options.

(** What the store reads in a text of the persistent storage; [None]
    when [decompress] or [JSON.parse] throws. *)
Definition decode (text : jsstring)
  : option (CacheEntry (list Transaction)) :=
  match decompress E options text with
  | Some t => JSON_parse_entry E t
  | None => None
  end.

(** A text that [cleanup] does not keep: it does not decode, or it
    decodes to an expired entry. *)
Definition stale (now : Z) (text : jsstring) : Prop :=
  match decode text with
  | Some entry => isExpired options now entry = true
  | None => True
  end.

Lemma get_persistent_unexpired env url currentUrl : forall keys st r st',
  get_persistent E options env url currentUrl keys st = (Some r, st') ->
  exists kv, In kv (memoryCache st') /\ data (snd kv) = r /\
             isExpired options (now env) (snd kv) = false.
Proof.
  induction keys as [|key keys IH]; intros st r st' H; simpl in H.
  - discriminate.
  - destruct (if url_given url then _ else _); [|eauto].
    destruct (getStorage key (local st)) as [text|]; [|eauto].
    destruct (truthy text); [|eauto].
    destruct (decompress E options text) as [t|]; [|discriminate].
    destruct (JSON_parse_entry E t) as [entry|]; [|discriminate].
    destruct (negb (isExpired options (now env) entry) && _) eqn:Ok;
      [|eauto].
    inversion H; subst. clear H. apply andb_prop in Ok.
    destruct Ok as [Ok _]. apply negb_true_iff in Ok.
    eexists. split; [apply map_set_in|]. split; [reflexivity|exact Ok].
Qed.

(** [get] answers with [null] or with the data of an entry that is not
    expired, whichever tier the entry comes from. *)
Lemma get_answers_unexpired env url st r st' :
  get E options env url st = (Some r, st') ->
  exists kv, In kv (memoryCache st') /\ data (snd kv) = r /\
             isExpired options (now env) (snd kv) = false.
Proof.
  unfold get. cbv zeta.
  destruct (find _ (memoryCache st)) as [[k entry]|] eqn:F.
  - intros H. inversion H; subst. apply find_some in F.
    destruct F as [Hin F]. apply andb_prop in F. destruct F as [_ F].
    apply negb_true_iff in F. exists (k, entry). auto.
  - apply get_persistent_unexpired.
Qed.

(** [cleanup] leaves no expired entry in the memory tier. *)
Lemma cleanup_memory env st kv :
  In kv (memoryCache (cleanup E options env st)) ->
  isExpired options (now env) (snd kv) = false.
Proof. simpl. intros H. apply cleanupMemoryCache_keeps in H. apply H. Qed.

Lemma cleanup_key_other env s key k :
  k <> key ->
  getStorage k (cleanup_key E options env s key) = getStorage k s.
Proof.
  intros Hk. apply eqb_neq in Hk.
  assert (Hdel : getStorage k (removeStorage key s) = getStorage k s).
  { unfold getStorage, removeStorage. rewrite map_get_delete, Hk.
    reflexivity. }
  unfold cleanup_key.
  destruct (getStorage key s) as [text|]; [|reflexivity].
  destruct (truthy text); [|reflexivity].
  destruct (decompress E options text) as [t|]; [|exact Hdel].
  destruct (JSON_parse_entry E t) as [entry|]; [|exact Hdel].
  destruct (isExpired options (now env) entry); [exact Hdel|reflexivity].
Qed.

Lemma cleanup_key_self env s key text :
  getStorage key s = Some text -> truthy text = true ->
  stale (now env) text ->
  getStorage key (cleanup_key E options env s key) = None.
Proof.
  intros Hget Htruthy Hstale.
  assert (Hdel : getStorage key (removeStorage key s) = None).
  { unfold getStorage, removeStorage. rewrite map_get_delete, eqb_refl.
    reflexivity. }
  unfold cleanup_key. rewrite Hget, Htruthy.
  unfold stale, decode in Hstale.
  destruct (decompress E options text) as [t|]; [|exact Hdel].
  destruct (JSON_parse_entry E t) as [entry|]; [|exact Hdel].
  rewrite Hstale. exact Hdel.
Qed.

Lemma cleanup_keys_gone env key : forall keys s,
  getStorage key s = None ->
  getStorage key (fold_left (cleanup_key E options env) keys s) = None.
Proof.
  induction keys as [|k keys IH]; intros s H; simpl; [exact H|].
  apply IH. destruct (Js.eqb key k) eqn:Ek.
  - apply eqb_eq in Ek. subst k. unfold cleanup_key. rewrite H. exact H.
  - apply eqb_neq in Ek. rewrite cleanup_key_other by exact Ek. exact H.
Qed.

(** [cleanup] removes from the persistent storage every text of the
    store that does not decode or that decodes to an expired entry. *)
Lemma cleanup_persistent env st key text :
  In key (getStorageKeys (local st)) ->
  getStorage key (local st) = Some text -> truthy text = true ->
  stale (now env) text ->
  getStorage key (local (cleanup E options env st)) = None.
Proof.
  simpl. generalize (getStorageKeys (local st)) as keys.
  generalize (local st) as s.
  intros s keys. revert s.
  induction keys as [|k keys IH]; intros s Hin Hget Htruthy Hstale;
    [contradiction|]. simpl.
  destruct (Js.eqb key k) eqn:Ek.
  - apply eqb_eq in Ek. subst k. apply cleanup_keys_gone.
    eapply cleanup_key_self; eauto.
  - apply eqb_neq in Ek. destruct Hin as [->|Hin]; [congruence|].
    apply IH; auto. rewrite cleanup_key_other by exact Ek. exact Hget.
Qed.

End ExpiryFacts.

(** *** An expired entry of the exported instance

    The entry that the persistent storage holds for [empty_entry] reads
    back with 701 ones and a zero for a time stamp (in JavaScript the
    number is beyond the doubles and reads as [Infinity]; here it is kept
    exact, and is just as far in the future). *)
Definition read_back_entry : CacheEntry (list Transaction) :=
  {| data := [];
     timestamp := Z.of_N (parseInt_digits (repeat1 49%N 701 ++ [48%N]));
     url := Some (lit "default");
     hash := Some (generateContentHash []) |}.

Lemma read_back_entry_text :
  JSON_stringify_entry read_back_entry = empty_entry_read_back.
Proof. vm_compute. reflexivity. Qed.

(** [JSON.parse] knows the text of the empty list, of the entry written
    and of the entry read back. *)
Definition engine_empty : Engine :=
  sample_engine [[]] [empty_entry; read_back_entry].

Definition empty_store : State :=
  {| objects := [[]]; memoryCache := []; local := [] |}.

Definition written_at : Z := 1700000000000.
Definition read_at : Z := 1700000600001.

Definition after_empty_write : State :=
  match set engine_empty exported_options (no_tab_at written_at) 0 None
          empty_store with
  | Some st => st
  | None => empty_store
  end.

(** C6.  On the exported instance, which compresses, the entry written
    at [read_at - ttl - 1] is expired at [read_at] and skipped in the
    memory tier; but its text in the persistent storage decodes to an
    entry stamped in the future, so that [get] answers with its data and
    [cleanup] keeps both of its keys. *)
Theorem expired_entry_answered_and_kept :
  set engine_empty exported_options (no_tab_at written_at) 0 None empty_store
    = Some after_empty_write /\
  List.map stamp (memoryCache after_empty_write)
    = [(lit "default_28y", (read_at - ttl_ms exported_options - 1)%Z)] /\
  (exists r st2,
     get engine_empty exported_options (no_tab_at read_at) None
       after_empty_write = (Some r, st2) /\
     deref (objects st2) r = []) /\
  memoryCache
    (cleanup engine_empty exported_options (no_tab_at read_at)
       after_empty_write) = [] /\
  List.map fst
    (local (cleanup engine_empty exported_options (no_tab_at read_at)
              after_empty_write))
    = [lit "paytracker_cache_default_28y"; lit "paytracker_cache_latest"].
Proof.
  split; [vm_compute; reflexivity|].
  split; [vm_compute; reflexivity|].
  split.
  - eexists. eexists. split; vm_compute; reflexivity.
  - split; vm_compute; reflexivity.
Qed.

(** With compression disabled the same write is gone after the same
    [cleanup], and [get] answers [null]. *)
Definition plain_options : Options :=
  constructor {| ttl := None; maxEntries := Some 100%Z;
                 enableCompression := None |}.

Lemma expired_entry_dropped_without_compression :
  exists st1,
    set engine_empty plain_options (no_tab_at written_at) 0 None empty_store
      = Some st1 /\
    fst (get engine_empty plain_options (no_tab_at read_at) None st1)
      = None /\
    memoryCache (cleanup engine_empty plain_options (no_tab_at read_at) st1)
      = [] /\
    local (cleanup engine_empty plain_options (no_tab_at read_at) st1) = [].
Proof.
  eexists. split; [vm_compute; reflexivity|].
  split; [vm_compute; reflexivity|].
  split; vm_compute; reflexivity.
Qed.

(* ================================================================== *)
(** ** A page with three containers

    The first container carries its identifier in the [href] of the link,
    the second a run-length flood in the text of the link, the third
    nothing that can be repaired. *)
Definition link (href text : option jsstring) : Anchor :=
  {| a_href := href; a_textContent := text; a_innerText := text;
     a_textNodes := match text with Some t => [t] | None => [] end;
     a_data_id := None; a_id := None; a_value := None |}.

Definition container_of (name : string) (el : option Anchor) : Container :=
  {| c_subtitles := [Some (lit name); Some (lit " Jan 5, 2025 ")];
     c_success := Some (Some (lit "$12.50"));
     c_anchor := el;
     c_textContent := Some (lit name) |}.

Definition three_containers : list Container :=
  [ container_of "John Doe"
      (Some (link (Some (lit "https://clover.com/transactions/EEP86556NRJ4C"))
                  (Some (lit "EEP86556NRJ4C"))));
    container_of "Jane Smith"
      (Some (link None (Some run_length_sample)));
    {| c_subtitles := []; c_success := None;
       c_anchor := Some (link None (Some (lit "###-garbled-###")));
       c_textContent := Some (lit "###-garbled-###") |} ].

Lemma three_containers_extracted :
  extractTransactionDataFromPage three_containers =
  [ {| customer := lit "John Doe"; date := lit "Jan 5, 2025";
       amount := lit "$12.50"; transactionId := lit "EEP86556NRJ4C" |};
    {| customer := lit "Jane Smith"; date := lit "Jan 5, 2025";
       amount := lit "$12.50"; transactionId := lit "ABCDEF6UVWXYZ" |};
    {| customer := lit "No customer selected"; date := lit "N/A";
       amount := lit "N/A"; transactionId := lit "N/A" |} ].
Proof. vm_compute. reflexivity. Qed.
(* ================================================================== *)
(** * Further properties of the sources *)

(** ** Quantifiers over one class, with any continuation *)

Lemma repeat_charset_exact (p : code -> bool) : forall w t x fuel c,
  rest x = w ++ t -> Forall (fun ch => p ch = true) w -> length w < fuel ->
  repeat_matcher (matcher (CharSet p)) [] fuel (length w)
    (Some (length w)) x c
  = c (MState (pos x + length w) t (caps x)).
Proof.
  induction w as [|a w IH]; intros t x fuel c Hr Hall Hfuel.
  - destruct fuel as [|fuel]; [simpl in Hfuel; lia|].
    destruct x as [px rx cx]. simpl in *. subst rx.
    rewrite Nat.add_0_r. reflexivity.
  - destruct fuel as [|fuel]; [simpl in Hfuel; lia|].
    inversion Hall as [|? ? Ha Hw]; subst.
    destruct x as [px rx cx]. simpl in Hr. subst rx.
    cbn [repeat_matcher matcher rest pos caps advance option_map length
         Nat.eqb Nat.pred andb].
    rewrite Ha. cbn [skipn].
    change (clear_captures [] cx) with cx.
    assert (Hf : length w < fuel) by (simpl in Hfuel; lia).
    transitivity (c (MState (px + 1 + length w) t cx)).
    + exact (IH t (MState (px + 1) (w ++ t) cx) fuel c eq_refl Hw Hf).
    + f_equal. f_equal. lia.
Qed.

Lemma repeat_charset_greedy_cont (p : code -> bool) :
  forall w t x fuel lo (c : cont) z,
  rest x = w ++ t -> Forall (fun ch => p ch = true) w -> stops p t ->
  lo <= length w -> length w < fuel ->
  c (MState (pos x + length w) t (caps x)) = Some z ->
  repeat_matcher (matcher (CharSet p)) [] fuel lo None x c = Some z.
Proof.
  induction w as [|a w IH]; intros t x fuel lo c z Hr Hall Hstop Hlo Hfuel Hc.
  - destruct fuel as [|fuel]; [simpl in Hfuel; lia|].
    simpl in Hlo. assert (lo = 0) by lia. subst lo.
    destruct x as [px rx cx]. simpl in *. subst rx.
    rewrite Nat.add_0_r in Hc.
    destruct t as [|ch t']; [exact Hc|]. simpl in Hstop. rewrite Hstop.
    exact Hc.
  - destruct fuel as [|fuel]; [simpl in Hfuel; lia|].
    inversion Hall as [|? ? Ha Hw]; subst.
    destruct x as [px rx cx]. simpl in Hr. subst rx.
    assert (Hnext :
      repeat_matcher (matcher (CharSet p)) [] fuel (Nat.pred lo) None
        (MState (px + 1) (w ++ t) cx) c = Some z).
    { apply (IH t (MState (px + 1) (w ++ t) cx) fuel (Nat.pred lo) c z);
        simpl in *; auto; try lia.
      replace (px + 1 + length w) with (px + S (length w)) by lia.
      exact Hc. }
    cbn [repeat_matcher matcher rest pos caps advance option_map].
    rewrite Ha. cbn [skipn].
    change (clear_captures [] cx) with cx.
    replace (Nat.eqb (px + 1) px) with false
      by (symmetry; apply Nat.eqb_neq; lia).
    rewrite andb_false_r.
    destruct (Nat.eqb lo 0); [|exact Hnext].
    match goal with
    | |- match ?X with _ => _ end = _ =>
        replace X with (Some z) by (symmetry; exact Hnext)
    end.
    reflexivity.
Qed.

(** ** Back-references to a capture of one code unit *)

Lemma rep_backref_text n ch : forall lo x y,
  rep_rel (run (BackRef n)) [] lo None x y ->
  caps x n = Some [ch] ->
  exists k, lo <= k /\ rest x = repeat1 ch k ++ rest y /\
            pos y = pos x + k.
Proof.
  intros lo x y H.
  remember (@None nat) as hi eqn:Hhi.
  induction H as [lo hi x Hstop|lo hi x y z Hhi' HR Hprog Hrep IH];
    intros Hcap; subst hi.
  - exists 0. destruct Hstop as [->|Hx]; [|discriminate].
    simpl. repeat split; lia.
  - simpl in HR.
    change (clear_captures [] (caps x) n) with (caps x n) in HR.
    rewrite Hcap in HR. destruct HR as [Hs ->].
    destruct (IH eq_refl) as (k & Hk & Hr & Hp); [exact Hcap|].
    simpl in Hr, Hp. simpl in Hs.
    destruct (rest x) as [|c0 r0] eqn:Hx; [discriminate|].
    apply andb_prop in Hs. destruct Hs as [Hs _].
    apply N.eqb_eq in Hs. subst c0.
    exists (S k). simpl. simpl in Hr. rewrite Hr.
    repeat split; lia.
Qed.

Lemma repeat_backref_succeeds n ch : forall k lo fuel x t,
  caps x n = Some [ch] -> rest x = repeat1 ch k ++ t ->
  lo <= k -> k < fuel ->
  exists z,
    repeat_matcher (matcher (BackRef n)) [] fuel lo None x
      (fun y => Some y) = Some z.
Proof.
  induction k as [|k IH]; intros lo fuel x t Hcap Hr Hlo Hfuel.
  - destruct fuel as [|fuel]; [lia|].
    assert (lo = 0) by lia. subst lo.
    cbn [repeat_matcher Nat.eqb].
    match goal with
    | |- exists z, match ?X with _ => _ end = _ => destruct X as [z0|]
    end; eauto.
  - destruct fuel as [|fuel]; [lia|].
    destruct x as [px rx cx]. simpl in Hr, Hcap. subst rx.
    destruct (IH (Nat.pred lo) fuel
                (MState (px + 1) (repeat1 ch k ++ t) cx) t)
      as (z & Hz); simpl; auto; try lia.
    exists z.
    cbn [repeat_matcher matcher rest pos caps advance option_map].
    change (clear_captures [] cx n) with (cx n). rewrite Hcap.
    cbn [startsWith length skipn]. rewrite N.eqb_refl.
    cbn [andb].
    replace (Nat.eqb (px + 1) px) with false
      by (symmetry; apply Nat.eqb_neq; lia).
    rewrite andb_false_r.
    change (clear_captures [] cx) with cx.
    destruct (Nat.eqb lo 0); [|exact Hz].
    match goal with
    | |- match ?X with _ => _ end = _ =>
        replace X with (Some z) by (symmetry; exact Hz)
    end.
    reflexivity.
Qed.

Lemma exec_from_complete r : forall pre s' i m,
  match_at r (i + length pre) s' = Some m ->
  exists m', exec_from r i (pre ++ s') = Some m'.
Proof.
  induction pre as [|a pre IH]; intros s' i m H.
  - simpl in H. rewrite Nat.add_0_r in H. exists m.
    apply exec_from_head. exact H.
  - simpl. destruct s' as [|b s'0] eqn:Hs'.
    + destruct (match_at r i (a :: pre ++ [])) as [m0|]; [eauto|].
      apply (IH [] (S i) m). simpl in H.
      replace (S i + length pre) with (i + S (length pre)) by lia. exact H.
    + destruct (match_at r i (a :: pre ++ b :: s'0)) as [m0|]; [eauto|].
      apply (IH (b :: s'0) (S i) m). simpl in H.
      replace (S i + length pre) with (i + S (length pre)) by lia. exact H.
Qed.

(** ** The repair of an identifier that already has thirteen code units *)

(** Six equal code units in a row, none of them a line terminator. *)
Definition six_run (s : jsstring) : Prop :=
  exists a ch b, dot ch = true /\ s = a ++ repeat1 ch 6 ++ b.

Lemma re_run6_sound s : test re_run6 s = true -> six_run s.
Proof.
  unfold test, exec. intros H.
  destruct (exec_from re_run6 0 s) as [m|] eqn:E; [|discriminate].
  apply exec_from_sound in E. destruct E as (pre & s' & -> & E).
  apply match_at_sound in E. destruct E as (y & Hrun & _).
  destruct Hrun as (x1 & Hg & Hrep).
  apply run_group_charset in Hg.
  destruct Hg as (ch & [Hr Hp] & Hdot & Hc).
  apply (@rep_backref_text 1 ch) in Hrep;
    [|rewrite Hc; reflexivity].
  destruct Hrep as (k & Hk & Hr1 & _).
  simpl in Hr. rewrite Hr1 in Hr.
  exists pre, ch, (repeat1 ch (k - 5) ++ rest y). split; [exact Hdot|].
  f_equal. rewrite Hr. simpl.
  replace k with (5 + (k - 5)) at 1 by lia.
  unfold repeat1. rewrite repeat_app, <- app_assoc. reflexivity.
Qed.

Lemma re_run6_complete s : six_run s -> test re_run6 s = true.
Proof.
  intros (a & ch & b & Hdot & ->). unfold test, exec.
  assert (Hz : exists z,
    repeat_matcher (matcher (BackRef 1)) []
      (S (5 + length (repeat1 ch 5 ++ b))) 5 None
      (MState (0 + length a + 1) (repeat1 ch 5 ++ b)
         (set_capture 1 [ch] no_captures))
      (fun y => Some y) = Some z).
  { apply (@repeat_backref_succeeds 1 ch 5 5 _ _ b);
      simpl; auto; try lia. }
  destruct Hz as (z & Hz).
  destruct (@exec_from_complete re_run6 a (repeat1 ch 6 ++ b) 0
              (MResult (0 + length a)
                 (firstn (pos z - (0 + length a)) (repeat1 ch 6 ++ b))
                 (caps z) (rest z))) as (m' & Hm').
  - unfold match_at, re_run6.
    cbn [matcher rest pos caps advance repeat1 repeat app skipn].
    rewrite Hdot.
    replace (0 + length a + 1 - (0 + length a)) with 1 by lia.
    cbn [firstn].
    cbn [repeat1 repeat app] in Hz.
    match goal with
    | |- match ?X with _ => _ end = _ =>
        replace X with (Some z) by (symmetry; exact Hz)
    end.
    reflexivity.
  - rewrite Hm'. reflexivity.
Qed.

Lemma match_all_id13_exact s :
  well_formed_id s -> match_all re_id13 s = [s].
Proof.
  intros [Hlen Hall].
  assert (E : match_at re_id13 0 s = Some (MResult 0 s no_captures [])).
  { pose proof (@repeat_charset_exact upper_alnum s []
                  (MState 0 s no_captures) (S (13 + length s))
                  (fun y => Some y)) as Hx.
    rewrite Hlen in Hx. simpl rest in Hx. rewrite app_nil_r in Hx.
    specialize (Hx eq_refl Hall ltac:(lia)).
    unfold match_at, re_id13, UA.
    change (matcher (Quant 13 (Some 13) (CharSet upper_alnum))
              (MState 0 s no_captures) (fun y => Some y))
      with (repeat_matcher (matcher (CharSet upper_alnum)) []
              (S (13 + length s)) 13 (Some 13) (MState 0 s no_captures)
              (fun y => Some y)).
    rewrite Hlen. rewrite Hx. cbn [pos rest caps].
    rewrite <- Hlen. simpl (0 + length s). rewrite Nat.sub_0_r.
    rewrite firstn_all. reflexivity. }
  unfold match_all, matches. rewrite Hlen.
  cbn [matches_from]. rewrite (exec_from_head _ _ _ E).
  cbn [m_text m_after List.map].
  destruct s as [|c0 s0]; [discriminate|]. reflexivity.
Qed.

Lemma match_all_id13_none s :
  length s = 13 -> ~ all_upper_alnum s -> match_all re_id13 s = [].
Proof.
  intros Hlen Hn. unfold match_all, matches.
  destruct (matches_from (S (length s)) re_id13 0 s) as [|m ms] eqn:E;
    [reflexivity|].
  exfalso. apply Hn.
  assert (Hin : In m (matches_from (S (length s)) re_id13 0 s))
    by (rewrite E; left; reflexivity).
  clear E. simpl in Hin.
  destruct (exec_from re_id13 0 s) as [m0|] eqn:E0; [|contradiction].
  pose proof (exec_from_lengths _ _ _ E0) as Hl.
  apply exec_from_sound in E0. destruct E0 as (pre & s' & Hs & E0).
  pose proof (match_at_lengths _ _ _ E0) as Hl'.
  pose proof (id13_match _ _ E0) as [Hm13 Hmall].
  apply match_at_sound in E0. destruct E0 as (y & Hrun & Hm0).
  assert (Hs' : length s' = 13 /\ pre = []).
  { subst s. rewrite length_app in Hlen, Hl.
    destruct pre; [split; [simpl in Hlen; lia|reflexivity]|].
    simpl in Hlen. lia. }
  destruct Hs' as [Hs' ->]. simpl in Hs. subst s'.
  rewrite Hm0 in Hm13, Hmall. simpl in Hm13, Hmall.
  rewrite firstn_all2 in Hmall; [exact Hmall|].
  rewrite length_firstn in Hm13. lia.
Qed.

Lemma flood_pattern_length lo1 hi1 lo3 hi3 s m :
  lo1 <= hi1 -> lo3 <= hi3 ->
  exec (Cat Bol (Cat (Group 1 (Quant lo1 (Some hi1) UA))
         (Cat (Group 2 UA) (Cat (Quant 10 None (BackRef 2))
           (Cat (Group 3 (Quant lo3 (Some hi3) UA)) Eol))))) s = Some m ->
  lo1 + 11 + lo3 <= length s.
Proof.
  intros H1 H3. unfold exec. intros E.
  apply exec_from_sound in E. destruct E as (pre & s' & -> & E).
  apply match_at_sound in E. destruct E as (y & Hrun & _).
  destruct Hrun as (x1 & [_ ->] & x2 & Hg1 & x3 & Hg2 & x4 & Hrep &
                    x5 & Hg3 & _ & ->).
  apply run_group_quant_charset in Hg1; [|simpl; lia].
  destruct Hg1 as (w1 & [Hr1 _] & _ & Hl1 & _ & _).
  apply run_group_charset in Hg2.
  destruct Hg2 as (ch & [Hr2 _] & _ & Hc2).
  apply (@rep_backref_text 2 ch) in Hrep; [|rewrite Hc2; reflexivity].
  destruct Hrep as (k & Hk & Hr3 & _).
  apply run_group_quant_charset in Hg3; [|simpl; lia].
  destruct Hg3 as (w3 & [Hr4 _] & _ & Hl3 & _ & _).
  simpl in Hr1. rewrite Hr1, Hr2, Hr3, Hr4.
  rewrite !length_app. unfold repeat1. rewrite repeat_length. simpl. lia.
Qed.

Lemma fix_repeated_long rawId r :
  fix_repeated rawId = Some r -> 17 <= length rawId.
Proof.
  unfold fix_repeated.
  destruct (exec re_repeated rawId) as [m|] eqn:E; [|discriminate].
  intros _. apply (@flood_pattern_length 3 6 3 6 rawId m); [lia|lia|exact E].
Qed.

Lemma fix_flood_long rawId r :
  fix_flood rawId = Some r -> 19 <= length rawId.
Proof.
  unfold fix_flood.
  destruct (exec re_flood rawId) as [m|] eqn:E; [|discriminate].
  intros _. apply (@flood_pattern_length 1 3 7 10 rawId m); [lia|lia|exact E].
Qed.

Lemma fix_zeros_long rawId r :
  fix_zeros rawId = Some r -> 17 <= length rawId.
Proof.
  unfold fix_zeros.
  destruct (test re_zeros6 rawId) eqn:T; [|discriminate].
  apply re_zeros6_sound in T. destruct T as (w & r0 & -> & Hw & Hlen).
  destruct (leading_run is_zero r0) as (a & b & -> & Ha & Hb).
  rewrite app_assoc.
  rewrite (@replace_leading_zeros (w ++ a) b);
    [|apply Forall_app; split; assumption|exact Hb|rewrite length_app; lia].
  destruct (Nat.eqb _ 13) eqn:L; [|discriminate].
  apply Nat.eqb_eq in L. rewrite length_app in L. simpl in L.
  intros _. rewrite !length_app. lia.
Qed.

Lemma all_upper_alnum_forallb s :
  all_upper_alnum s <-> forallb upper_alnum s = true.
Proof.
  unfold all_upper_alnum. rewrite Forall_forall, forallb_forall. tauto.
Qed.

(** X1. An identifier of thirteen code units is never rewritten: the
    repair returns it as it is when it is made of capital letters and
    digits and has no six equal code units in a row, and [null]
    otherwise. *)
Theorem repair_of_thirteen_units (s : jsstring) :
  length s = 13 ->
  (all_upper_alnum s -> ~ six_run s ->
     fixCorruptedTransactionId s = Some s) /\
  (six_run s -> fixCorruptedTransactionId s = None) /\
  (~ all_upper_alnum s -> fixCorruptedTransactionId s = None).
Proof.
  intros Hlen.
  assert (Hfix : fixCorruptedTransactionId s = first_valid_id s).
  { unfold fixCorruptedTransactionId.
    destruct s as [|c s']; [discriminate|].
    rewrite Hlen. cbn [truthy negb orb Nat.ltb Nat.leb].
    destruct (fix_repeated (c :: s')) as [r|] eqn:E1.
    { apply fix_repeated_long in E1. lia. }
    destruct (fix_flood (c :: s')) as [r|] eqn:E2.
    { apply fix_flood_long in E2. lia. }
    destruct (fix_zeros (c :: s')) as [r|] eqn:E3.
    { apply fix_zeros_long in E3. lia. }
    reflexivity. }
  rewrite Hfix. unfold first_valid_id. repeat split.
  - intros Hall Hno.
    rewrite (match_all_id13_exact (conj Hlen Hall)). simpl.
    destruct (test re_run6 s) eqn:T; [|reflexivity].
    exfalso. apply Hno. apply re_run6_sound. exact T.
  - intros Hrun. apply find_none_all. intros m Hin.
    pose proof (match_all_id13 _ _ Hin) as Hm.
    destruct (test re_run6 m) eqn:T; [reflexivity|].
    assert (Hall : all_upper_alnum s).
    { destruct (forallb upper_alnum s) eqn:F.
      - apply all_upper_alnum_forallb. exact F.
      - rewrite match_all_id13_none in Hin; [contradiction|exact Hlen|].
        intros Hall. apply all_upper_alnum_forallb in Hall. congruence. }
    rewrite (match_all_id13_exact (conj Hlen Hall)) in Hin.
    destruct Hin as [<-|[]].
    rewrite (re_run6_complete Hrun) in T. discriminate.
  - intros Hn. rewrite (match_all_id13_none Hlen Hn). reflexivity.
Qed.

Lemma repair_of_thirteen_units_witness :
  length (lit "EEP86556NRJ4C") = 13 /\
  (all_upper_alnum (lit "EEP86556NRJ4C") -> ~ six_run (lit "EEP86556NRJ4C") ->
     fixCorruptedTransactionId (lit "EEP86556NRJ4C")
     = Some (lit "EEP86556NRJ4C")) /\
  (six_run (lit "EEP86556NRJ4C") ->
     fixCorruptedTransactionId (lit "EEP86556NRJ4C") = None) /\
  (~ all_upper_alnum (lit "EEP86556NRJ4C") ->
     fixCorruptedTransactionId (lit "EEP86556NRJ4C") = None).
Proof.
  split; [reflexivity|].
  apply (@repair_of_thirteen_units (lit "EEP86556NRJ4C")). reflexivity.
Defined.

(** ** What a match consumes is a piece of the input *)

Lemma rep_rel_consumed (R : mstate -> mstate -> Prop) inner lo hi x y :
  (forall a b, R a b -> exists w, consumed w a b) ->
  rep_rel R inner lo hi x y -> exists w, consumed w x y.
Proof.
  intros HR. induction 1 as [lo hi x _|lo hi x y z _ Hxy _ _ IH].
  - exists []. split; simpl; [reflexivity|lia].
  - apply HR in Hxy. destruct Hxy as (w1 & Hr1 & Hp1).
    destruct IH as (w2 & Hr2 & Hp2). simpl in Hr1, Hp1.
    exists (w1 ++ w2). split.
    + rewrite Hr1, Hr2, app_assoc. reflexivity.
    + rewrite length_app. lia.
Qed.

Lemma run_consumed (r : regex) : forall x y,
  run r x y -> exists w, consumed w x y.
Proof.
  induction r as [|p|r1 IH1 r2 IH2|n r IH|n|lo hi r IH| |];
    intros x y H; simpl in H.
  - subst. exists []. split; simpl; [reflexivity|lia].
  - destruct H as (ch & tl & Hr & _ & ->). exists [ch].
    split; simpl; [rewrite Hr; destruct tl; reflexivity|reflexivity].
  - destruct H as (m & H1 & H2).
    apply IH1 in H1. apply IH2 in H2.
    destruct H1 as (w1 & Hr1 & Hp1). destruct H2 as (w2 & Hr2 & Hp2).
    exists (w1 ++ w2). split.
    + rewrite Hr1, Hr2, app_assoc. reflexivity.
    + rewrite length_app. lia.
  - destruct H as (m & H1 & ->). apply IH in H1. exact H1.
  - destruct (caps x n) as [w|].
    + destruct H as [Hw ->]. exists w. split; simpl.
      * apply startsWith_app. exact Hw.
      * reflexivity.
    + subst. exists []. split; simpl; [reflexivity|lia].
  - apply (rep_rel_consumed (R := run r) (inner := groups r) IH H).
  - destruct H as [_ ->]. exists []. split; simpl; [reflexivity|lia].
  - destruct H as [_ ->]. exists []. split; simpl; [reflexivity|lia].
Qed.

Lemma match_at_text r i s m :
  match_at r i s = Some m -> s = m_text m ++ m_after m.
Proof.
  intros H. apply match_at_sound in H. destruct H as (y & Hrun & ->).
  apply run_consumed in Hrun. destruct Hrun as (w & Hc).
  pose proof (consumed_firstn Hc) as Hf. destruct Hc as [Hr _].
  simpl in *. rewrite Hf. exact Hr.
Qed.

Lemma exec_from_within r s i m :
  exec_from r i s = Some m -> exists a, s = a ++ m_text m ++ m_after m.
Proof.
  intros H. apply exec_from_sound in H. destruct H as (pre & s' & -> & H).
  exists pre. f_equal. apply (match_at_text _ _ _ H).
Qed.

Lemma matches_from_within r : forall fuel i s m,
  In m (matches_from fuel r i s) -> exists a b, s = a ++ m_text m ++ b.
Proof.
  induction fuel as [|fuel IH]; intros i s m H; simpl in H; [contradiction|].
  destruct (exec_from r i s) as [m0|] eqn:E; [|contradiction].
  apply exec_from_within in E. destruct E as (a0 & Hs).
  destruct H as [->|H]; [eauto|].
  destruct (m_text m0) as [|c0 t0] eqn:Ht;
    destruct (m_after m0) as [|c1 t1] eqn:Ha; try contradiction.
  - apply IH in H. destruct H as (a & b & Hb).
    exists (a0 ++ c1 :: a), b. rewrite Hs. simpl. rewrite Hb.
    rewrite <- app_assoc. reflexivity.
  - apply IH in H. destruct H as (a & b & Hb). simpl in Hb.
    destruct a; [|discriminate]. destruct (m_text m); [|discriminate].
    exists s, []. rewrite !app_nil_r. reflexivity.
  - apply IH in H. destruct H as (a & b & Hb).
    exists (a0 ++ (c0 :: t0) ++ a), b. rewrite Hs, Hb.
    rewrite <- !app_assoc. reflexivity.
Qed.

(** ** The scan for an identifier *)

(** X2. The scan returns a piece of the text it is given: thirteen capital
    letters and digits in a row, without six equal code units in a row.
    When every such run of thirteen in the text has six equal code units
    in a row, the scan finds nothing. *)
Theorem first_valid_id_is_part_of_text (text : jsstring) :
  (forall r, first_valid_id text = Some r ->
     well_formed_id r /\ ~ six_run r /\ exists a b, text = a ++ r ++ b) /\
  ((forall a r b, text = a ++ r ++ b -> well_formed_id r -> six_run r) ->
   first_valid_id text = None).
Proof.
  assert (H1 : forall r, first_valid_id text = Some r ->
     well_formed_id r /\ ~ six_run r /\ exists a b, text = a ++ r ++ b).
  { intros r H. split; [exact (first_valid_id_sound _ H)|].
    unfold first_valid_id in H. apply find_some in H. destruct H as [Hin Ht].
    split.
    - intros Hrun. rewrite (re_run6_complete Hrun) in Ht. discriminate.
    - unfold match_all in Hin. apply in_map_iff in Hin.
      destruct Hin as (m & <- & Hin).
      apply (matches_from_within _ _ _ _ _ Hin). }
  split; [exact H1|].
  intros Hall. destruct (first_valid_id text) as [r|] eqn:E; [|reflexivity].
  destruct (H1 r eq_refl) as (Hwf & Hno & a & b & Hab).
  exfalso. apply Hno. apply (Hall a r b Hab Hwf).
Qed.

(** ** The order of the methods of the extractor *)

Lemma re_clean_complete t :
  1 <= length t -> all_upper_alnum t -> test re_clean t = true.
Proof.
  intros Hlen Hall. unfold test, exec.
  assert (E : match_at re_clean 0 t
              = Some (MResult 0 (firstn (0 + length t - 0) t) no_captures [])).
  { unfold match_at, re_clean, UA.
    cbn [matcher pos rest Nat.eqb groups].
    rewrite (@repeat_charset_greedy_cont upper_alnum t []
               (MState 0 t no_captures) _ 1 _
               (MState (0 + length t) [] no_captures));
      simpl; auto; try lia.
    rewrite app_nil_r. reflexivity. }
  rewrite (exec_from_head _ _ _ E). reflexivity.
Qed.

Lemma from_text_clean t :
  well_formed_id t -> from_text (Some t) = Some t.
Proof.
  intros [Hlen Hall]. unfold from_text.
  destruct t as [|c t']; [discriminate|]. cbn [truthy].
  rewrite Hlen. rewrite re_clean_complete; [reflexivity| |exact Hall].
  simpl. lia.
Qed.

Lemma id13_group_match j s m :
  match_at re_id13_group j s = Some m ->
  capture m 1 = m_text m /\ well_formed_id (m_text m).
Proof.
  intros H. apply match_at_sound in H. destruct H as (y & Hrun & ->).
  apply run_group_quant_charset in Hrun; [|simpl; lia].
  destruct Hrun as (w & Hc & Hall & Hlo & Hhi & Hcaps).
  assert (Hf : firstn (pos y - j) s = w) by exact (consumed_firstn Hc).
  unfold capture. cbn [m_caps m_text]. rewrite Hcaps, Hf.
  unfold set_capture. simpl.
  split; [reflexivity|]. split; [lia|exact Hall].
Qed.

Lemma id13_group_found a r b :
  well_formed_id r ->
  exists m, exec re_id13_group (a ++ r ++ b) = Some m.
Proof.
  intros [Hlen Hall].
  pose proof (@repeat_charset_exact upper_alnum r b
                (MState (0 + length a) (r ++ b) no_captures)
                (S (13 + length (r ++ b)))
                (fun y => Some (MState (pos y) (rest y)
                   (set_capture 1
                      (firstn (pos y - (0 + length a)) (r ++ b))
                      (caps y))))) as Hx.
  rewrite Hlen in Hx. specialize (Hx eq_refl Hall ltac:(lia)).
  unfold exec.
  eapply (@exec_from_complete re_id13_group a (r ++ b) 0).
  unfold match_at, re_id13_group, re_id13, UA.
  change (matcher (Group 1 (Quant 13 (Some 13) (CharSet upper_alnum)))
            (MState (0 + length a) (r ++ b) no_captures) (fun y => Some y))
    with (repeat_matcher (matcher (CharSet upper_alnum)) []
            (S (13 + length (r ++ b))) 13 (Some 13)
            (MState (0 + length a) (r ++ b) no_captures)
            (fun y => Some (MState (pos y) (rest y)
               (set_capture 1
                  (firstn (pos y - (0 + length a)) (r ++ b))
                  (caps y))))).
  rewrite Hx. reflexivity.
Qed.

(** X3. The link address comes first: when the [href] of the link holds
    thirteen capital letters and digits in a row, the identifier of the
    record is such a run, taken from the [href], whatever the text of the
    link and of the container say. *)
Theorem extractTransactionId_prefers_href (c : Container) (el : Anchor)
    (href : jsstring) :
  c_anchor c = Some el -> a_href el = Some href ->
  (exists a r b, href = a ++ r ++ b /\ well_formed_id r) ->
  well_formed_id (extractTransactionId c) /\
  exists a b, href = a ++ extractTransactionId c ++ b.
Proof.
  intros Hc Hh (a & r & b & Hab & Hwf).
  destruct (id13_group_found a b Hwf) as (m & Hm). rewrite <- Hab in Hm.
  assert (Hfh : from_href el = Some (capture m 1)).
  { unfold from_href, attr_or. rewrite Hh.
    assert (Ht : truthy href = true).
    { rewrite Hab. destruct Hwf as [Hl _].
      destruct a; [destruct r; [discriminate|reflexivity]|reflexivity]. }
    rewrite Ht, Ht, Hm. reflexivity. }
  unfold exec in Hm. pose proof (exec_from_within _ _ _ Hm) as (a' & Ha').
  apply exec_from_sound in Hm. destruct Hm as (pre & s' & _ & Hm).
  apply id13_group_match in Hm. destruct Hm as [Hcap Hwf'].
  assert (Hid : extractTransactionId c = capture m 1).
  { unfold extractTransactionId. rewrite Hc, Hfh. cbn [assign].
    assert (Hna : Js.eqb (capture m 1) NA = false).
    { destruct (Js.eqb (capture m 1) NA) eqn:Eq; [|reflexivity].
      apply eqb_length in Eq. rewrite Hcap in Eq.
      destruct Hwf' as [Hl _]. rewrite Hl in Eq. discriminate. }
    rewrite Hna. cbv iota. rewrite Hna. reflexivity. }
  rewrite Hid, Hcap. split; [exact Hwf'|]. eauto.
Qed.

Definition href_sample : Container :=
  container_of "John Doe"
    (Some (link (Some (lit "https://clover.com/transactions/EEP86556NRJ4C"))
                (Some (lit "garbled")))).

Lemma extractTransactionId_prefers_href_witness :
  well_formed_id (extractTransactionId href_sample) /\
  exists a b,
    lit "https://clover.com/transactions/EEP86556NRJ4C"
    = a ++ extractTransactionId href_sample ++ b.
Proof.
  apply (@extractTransactionId_prefers_href href_sample
           (link (Some (lit "https://clover.com/transactions/EEP86556NRJ4C"))
                 (Some (lit "garbled")))
           (lit "https://clover.com/transactions/EEP86556NRJ4C"));
    [reflexivity|reflexivity|].
  exists (lit "https://clover.com/transactions/"), (lit "EEP86556NRJ4C"), [].
  split; [reflexivity|]. split; [reflexivity|].
  apply all_upper_alnum_forallb. reflexivity.
Defined.

(** X4. A link text that is already thirteen capital letters and digits is
    taken as it is, without repair and without the check for six equal
    code units in a row, when the [href] gives no identifier. *)
Theorem extractTransactionId_takes_clean_text (c : Container) (el : Anchor)
    (text : jsstring) :
  c_anchor c = Some el -> from_href el = None ->
  a_textContent el = Some text -> well_formed_id (trim text) ->
  extractTransactionId c = trim text.
Proof.
  intros Hc Hh Ht Hwf. unfold extractTransactionId.
  rewrite Hc, Hh. cbn [assign].
  replace (Js.eqb NA NA) with true by reflexivity.
  unfold extractionMethods. rewrite Ht. cbn [option_map first_from_text].
  rewrite (from_text_clean Hwf). cbn [assign].
  assert (Hna : Js.eqb (trim text) NA = false).
  { destruct (Js.eqb (trim text) NA) eqn:Eq; [|reflexivity].
    apply eqb_length in Eq. destruct Hwf as [Hl _]. rewrite Hl in Eq.
    discriminate. }
  rewrite Hna. reflexivity.
Qed.

Definition sevens_sample : Container :=
  container_of "Jane Smith"
    (Some (link None (Some (lit " ABC7777777XYZ ")))).

Lemma extractTransactionId_takes_clean_text_witness :
  extractTransactionId sevens_sample = trim (lit " ABC7777777XYZ ") /\
  fixCorruptedTransactionId (trim (lit " ABC7777777XYZ ")) = None.
Proof.
  split.
  - apply (@extractTransactionId_takes_clean_text sevens_sample
             (link None (Some (lit " ABC7777777XYZ ")))
             (lit " ABC7777777XYZ "));
      [reflexivity|reflexivity|reflexivity|].
    split; [reflexivity|]. apply all_upper_alnum_forallb. reflexivity.
  - reflexivity.
Defined.

(** ** The tab a detached window works on *)



Section DetachedTarget.

Variable toLowerCase : jsstring -> jsstring.


End DetachedTarget.





(** ** Replacing every code unit of a class *)

Lemma splice_cons f m ms i c s :
  S i <= m_index m ->
  splice f (m :: ms) i (c :: s) = c :: splice f (m :: ms) (S i) s.
Proof.
  intros H. cbn [splice].
  replace (m_index m - i) with (S (m_index m - S i)) by lia.
  replace (m_end m - i) with (S (m_end m - S i))
    by (unfold m_end in *; lia).
  reflexivity.
Qed.

Lemma exec_from_index r : forall s i m,
  exec_from r i s = Some m -> i <= m_index m.
Proof.
  intros s i m H. apply exec_from_sound in H.
  destruct H as (pre & s' & _ & H). unfold match_at in H.
  destruct (matcher r _ _); [|discriminate]. inversion H. simpl. lia.
Qed.

Lemma matches_from_skip r fuel i c s :
  match_at r i (c :: s) = None ->
  matches_from (S fuel) r i (c :: s) = matches_from (S fuel) r (S i) s.
Proof.
  intros H. cbn [matches_from].
  replace (exec_from r i (c :: s)) with (exec_from r (S i) s); [reflexivity|].
  destruct s; simpl; rewrite H; reflexivity.
Qed.

Lemma splice_skip f r fuel i c s :
  splice f (matches_from fuel r (S i) s) i (c :: s)
  = c :: splice f (matches_from fuel r (S i) s) (S i) s.
Proof.
  destruct (matches_from fuel r (S i) s) as [|m ms] eqn:E; [reflexivity|].
  apply splice_cons.
  destruct fuel as [|fuel]; [discriminate|]. simpl in E.
  destruct (exec_from r (S i) s) as [m0|] eqn:E0; [|discriminate].
  inversion E; subst. apply (exec_from_index _ _ _ E0).
Qed.

Lemma replace_all_charset (p : code -> bool) (rep : jsstring) : forall s,
  replace_all (CharSet p) (fun _ => rep) s
  = flat_map (fun c => if p c then rep else [c]) s.
Proof.
  unfold replace_all, matches. intros s. generalize 0 as i.
  induction s as [|c s IH]; intros i.
  - reflexivity.
  - destruct (p c) eqn:Pc.
    + assert (E : match_at (CharSet p) i (c :: s)
                  = Some (MResult i [c] no_captures s)).
      { unfold match_at. cbn [matcher rest]. rewrite Pc.
        unfold advance. cbn [pos rest caps skipn].
        replace (i + 1 - i) with 1 by lia. reflexivity. }
      cbn [matches_from length]. rewrite (exec_from_head _ _ _ E).
      cbn [m_text m_after splice m_index flat_map]. rewrite Pc.
      unfold m_end. cbn [m_index m_text length].
      rewrite Nat.sub_diag. replace (i + 1 - i) with 1 by lia.
      cbn [firstn skipn app]. f_equal. apply IH.
    + assert (E : match_at (CharSet p) i (c :: s) = None).
      { unfold match_at. cbn [matcher rest]. rewrite Pc. reflexivity. }
      cbn [length].
      rewrite (@matches_from_skip _ (S (length s)) _ _ _ E).
      rewrite (@matches_from_fuel (CharSet p) (S (S (length s)))
                 (S (length s)) (S i) s); [|lia|lia].
      rewrite splice_skip. cbn [flat_map]. rewrite Pc. simpl. f_equal.
      apply IH.
Qed.

(** ** The keys of the store *)

(** A digit of the base 36, as [toString(36)] writes it. *)
Definition base36 (c : code) : bool :=
  in_range 48%N 57%N c || in_range 97%N 122%N c.

Lemma digit_char_base36 d : (d < 36)%N -> base36 (digit_char d) = true.
Proof.
  intros H. unfold digit_char, base36, in_range.
  destruct (N.ltb d 10) eqn:L.
  - apply N.ltb_lt in L. apply orb_true_iff. left.
    apply andb_true_iff. split; apply N.leb_le; lia.
  - apply N.ltb_ge in L. apply orb_true_iff. right.
    apply andb_true_iff. split; apply N.leb_le; lia.
Qed.

Lemma digits_of_36 : forall fuel k n acc,
  (n < 36 ^ N.of_nat k)%N -> 1 <= k ->
  Forall (fun c => base36 c = true) acc ->
  Forall (fun c => base36 c = true) (digits_of fuel 36 n acc) /\
  length acc <= length (digits_of fuel 36 n acc) <= k + length acc.
Proof.
  induction fuel as [|fuel IH]; intros k n acc Hn Hk Hacc.
  - simpl. split; [exact Hacc|lia].
  - cbn [digits_of].
    assert (Hd : base36 (digit_char (n mod 36)) = true).
    { apply digit_char_base36. apply N.mod_lt. discriminate. }
    destruct (N.eqb (n / 36) 0) eqn:Z0.
    + split; [constructor; assumption|simpl; lia].
    + apply N.eqb_neq in Z0.
      destruct k as [|k]; [lia|].
      destruct k as [|k].
      { exfalso. apply Z0. apply N.div_small. simpl in Hn. exact Hn. }
      destruct (IH (S k) (n / 36)%N (digit_char (n mod 36) :: acc))
        as [H1 H2].
      * apply N.Div0.div_lt_upper_bound.
        replace (36 * 36 ^ N.of_nat (S k))%N with (36 ^ N.of_nat (S (S k)))%N;
          [exact Hn|].
        rewrite (Nat2N.inj_succ (S k)), N.pow_succ_r'. reflexivity.
      * lia.
      * constructor; assumption.
      * split; [exact H1|]. simpl in H2 |- *. lia.
Qed.

Lemma to_int32_range z :
  (- 2147483648 <= to_int32 z < 2147483648)%Z.
Proof.
  unfold to_int32.
  pose proof (Z.mod_pos_bound (z + 2147483648) 4294967296 eq_refl). lia.
Qed.

Lemma hash_range (str : jsstring) : forall h,
  (- 2147483648 <= h < 2147483648)%Z ->
  (- 2147483648 <=
   fold_left (fun hash char =>
                to_int32 (to_int32 (hash * 32) - hash + Z.of_N char)%Z)
     str h < 2147483648)%Z.
Proof.
  induction str as [|c str IH]; intros h Hh; [exact Hh|].
  simpl. apply IH. apply to_int32_range.
Qed.

Lemma content_hash_digits (E : Engine) (d : list Transaction)
    (url : jsstring) :
  let h := generateContentHash d in
  1 <= length h <= 6 /\
  Forall (fun c => base36 c = true) h /\
  generateKey E url (Some h) = generateKey E url None ++ lit "_" ++ h.
Proof.
  cbv zeta. unfold generateContentHash.
  match goal with
  | |- context [fold_left ?f (JSON_stringify_data d) 0%Z] =>
      set (hash := fold_left f (JSON_stringify_data d) 0%Z)
  end.
  assert (Hr : (- 2147483648 <= hash < 2147483648)%Z)
    by (apply hash_range; lia).
  unfold to_radix.
  set (n := Z.to_N (Z.abs hash)).
  assert (Hn : (n < 36 ^ N.of_nat 6)%N).
  { unfold n. change (36 ^ N.of_nat 6)%N with 2176782336%N. lia. }
  destruct (@digits_of_36 (S (N.to_nat (N.log2 n))) 6 n [] Hn)
    as [Hall Hlen]; [lia|constructor|].
  assert (Hpos : 1 <= length (digits_of (S (N.to_nat (N.log2 n))) 36 n [])).
  { cbn [digits_of]. destruct (N.eqb (n / 36) 0); [simpl; lia|].
    pose proof (@digits_of_36 (N.to_nat (N.log2 n)) 6 (n / 36)%N
                  [digit_char (n mod 36)]) as Hx.
    destruct Hx as [_ Hx].
    - apply N.Div0.div_lt_upper_bound.
      change (36 * 36 ^ N.of_nat 6)%N with 78364164096%N.
      change (36 ^ N.of_nat 6)%N with 2176782336%N in Hn. lia.
    - lia.
    - constructor; [|constructor]. apply digit_char_base36.
      apply N.mod_lt. discriminate.
    - simpl in Hx. lia. }
  change (length (@nil code)) with 0 in Hlen.
  split; [lia|]. split; [exact Hall|].
  unfold generateKey.
  destruct (digits_of (S (N.to_nat (N.log2 n))) 36 n []) as [|c0 h0];
    [simpl in Hpos; lia|].
  cbn [truthy]. destruct (URL_path_search E url); reflexivity.
Qed.

(** X6. The content hash is one to six digits of the base 36, in lower
    case; so the key of an entry is always the key of its address, an
    underscore and this hash. *)
Theorem content_hash_shape (E : Engine) (d : list Transaction)
    (url : jsstring) :
  let h := generateContentHash d in
  1 <= length h <= 6 /\
  Forall (fun c => base36 c = true) h /\
  generateKey E url (Some h) = generateKey E url None ++ lit "_" ++ h.
Proof. exact (content_hash_digits E d url). Qed.

(** X7. For an address that the [URL] constructor rejects, the key is the
    address with every code unit that is not a letter or a digit replaced
    by an underscore, then an underscore and the content hash: its length
    is that of the address plus the hash and one. *)
Theorem fallback_key_is_sanitised (E : Engine) (d : list Transaction)
    (url : jsstring) :
  URL_path_search E url = None ->
  generateKey E url (Some (generateContentHash d))
  = List.map (fun c => if alnum c then c else 95%N) url ++ lit "_" ++
    generateContentHash d.
Proof.
  intros Hu.
  destruct (content_hash_digits E d url) as (_ & _ & ->).
  unfold generateKey. rewrite Hu. f_equal.
  unfold re_not_alnum. rewrite replace_all_charset. clear Hu.
  induction url as [|c url IH]; [reflexivity|].
  simpl. destruct (alnum c); simpl; f_equal; exact IH.
Qed.

Lemma fallback_key_is_sanitised_witness :
  generateKey (sample_engine [] []) (lit "not a url/?x=1")
    (Some (generateContentHash []))
  = lit "not_a_url__x_1_28y".
Proof.
  apply (@fallback_key_is_sanitised (sample_engine [] []) []
           (lit "not a url/?x=1")).
  reflexivity.
Defined.

(** ** Texts that the compression leaves alone *)

Lemma match_at_index r j s m : match_at r j s = Some m -> m_index m = j.
Proof.
  unfold match_at. destruct (matcher r _ _); [|discriminate].
  intros H. inversion H. reflexivity.
Qed.

Lemma splice_id f r : forall fuel i s,
  (forall m, In m (matches_from fuel r i s) -> f m = m_text m) ->
  splice f (matches_from fuel r i s) i s = s.
Proof.
  induction fuel as [|fuel IH]; intros i s Hf; [reflexivity|].
  cbn [matches_from] in Hf |- *.
  destruct (exec_from r i s) as [m|] eqn:E; [|reflexivity].
  pose proof (Hf m (or_introl eq_refl)) as Hm.
  assert (Hrest : forall m', In m' match m_text m, m_after m with
           | [], [] => []
           | [], _ :: s' => matches_from fuel r (S (m_end m)) s'
           | _ :: _, s' => matches_from fuel r (m_end m) s'
           end -> f m' = m_text m')
    by (intros m' Hin; apply Hf; right; exact Hin).
  apply exec_from_sound in E. destruct E as (pre & s' & -> & E).
  pose proof (match_at_index _ _ _ E) as Hi.
  pose proof (match_at_text _ _ _ E) as Ht. subst s'.
  cbn [splice]. rewrite Hm. unfold m_end in *. rewrite Hi in Hrest |- *.
  replace (i + length pre - i) with (length pre + 0) by lia.
  rewrite firstn_app_2. cbn [firstn]. rewrite app_nil_r.
  replace (i + length pre + length (m_text m) - i)
    with (length pre + length (m_text m)) by lia.
  rewrite skipn_app, skipn_all2 by lia.
  replace (length pre + length (m_text m) - length pre)
    with (length (m_text m)) by lia.
  rewrite skipn_app, skipn_all, Nat.sub_diag. cbn [skipn app].
  f_equal. f_equal.
  destruct (m_text m) as [|c0 t0] eqn:Hmt;
    destruct (m_after m) as [|c1 t1] eqn:Hma.
  - reflexivity.
  - rewrite splice_skip. f_equal. apply IH. exact Hrest.
  - apply IH. exact Hrest.
  - apply IH. exact Hrest.
Qed.

Lemma replace_all_id r f s :
  (forall m, In m (matches r s) -> f m = m_text m) ->
  replace_all r f s = s.
Proof. intros H. unfold replace_all. apply splice_id. exact H. Qed.

(** Four equal code units in a row. *)
Definition run_of_four (x : jsstring) : Prop :=
  exists a ch b, x = a ++ repeat1 ch 4 ++ b.

(** Digits between two equal code units. *)
Definition packed_run (x : jsstring) : Prop :=
  exists a ch ds b,
    ds <> [] /\ Forall (fun c => digit c = true) ds /\
    x = a ++ ch :: ds ++ ch :: b.

Lemma re_runs_match j s m :
  match_at re_runs j s = Some m ->
  exists ch k, m_text m = repeat1 ch k.
Proof.
  intros H. apply match_at_sound in H. destruct H as (y & Hrun & ->).
  pose proof (run_consumed _ _ _ Hrun) as (w & Hw).
  pose proof (consumed_firstn Hw) as Hf. simpl in Hf.
  cbn [m_text]. rewrite Hf.
  destruct Hrun as (x1 & Hg & Hrep).
  apply run_group_charset in Hg.
  destruct Hg as (ch & [Hr1 Hp1] & _ & Hc).
  apply (@rep_backref_text 1 ch) in Hrep; [|rewrite Hc; reflexivity].
  destruct Hrep as (k & _ & Hr2 & _).
  destruct Hw as [Hr _]. simpl in Hr, Hr1.
  exists ch, (S k).
  rewrite Hr1, Hr2 in Hr. simpl in Hr.
  assert (Hlen : length w = S k \/ True) by (right; exact I).
  clear Hlen.
  assert (Hw' : w ++ rest y = repeat1 ch (S k) ++ rest y)
    by (rewrite <- Hr; reflexivity).
  apply app_inv_tail in Hw'. exact Hw'.
Qed.

Lemma re_packed_match j s m :
  match_at re_packed j s = Some m ->
  exists ch ds, ds <> [] /\ Forall (fun c => digit c = true) ds /\
                m_text m = ch :: ds ++ [ch].
Proof.
  intros H. apply match_at_sound in H. destruct H as (y & Hrun & ->).
  pose proof (run_consumed _ _ _ Hrun) as (w & Hw).
  pose proof (consumed_firstn Hw) as Hf. simpl in Hf.
  cbn [m_text]. rewrite Hf.
  destruct Hrun as (x1 & Hg & x2 & Hrep & Hb).
  apply run_group_charset in Hg.
  destruct Hg as (ch & [Hr1 _] & _ & Hc).
  apply rep_charset in Hrep; [|exact I].
  destruct Hrep as (ds & [Hr2 _] & Hds & Hlo & _ & Hc2).
  cbn [run] in Hb. rewrite Hc2, Hc in Hb. unfold set_capture in Hb.
  cbn [Nat.eqb] in Hb. destruct Hb as [Hs ->].
  apply startsWith_app in Hs. cbn [length] in Hs.
  destruct Hw as [Hr _]. cbn [rest advance length] in Hr, Hr1.
  set (T := skipn 1 (rest x2)) in *.
  exists ch, ds. split; [destruct ds; [simpl in Hlo; lia|discriminate]|].
  split; [exact Hds|].
  assert (Hw' : w ++ T = (ch :: ds ++ [ch]) ++ T).
  { rewrite <- Hr. rewrite Hr1, Hr2, Hs. simpl. rewrite <- app_assoc.
    reflexivity. }
  apply app_inv_tail in Hw'. exact Hw'.
Qed.

(** X8. A text without four equal code units in a row and without digits
    standing between two equal code units is left as it is by [compress],
    and read back as it is by [decompress]. *)
Theorem compression_round_trip_on_plain_text (E : Engine)
    (options : Options) (x : jsstring) :
  ~ run_of_four x -> ~ packed_run x ->
  compress options x = x /\
  decompress E options (compress options x) = Some x.
Proof.
  intros H4 Hp.
  assert (Hc : compress options x = x).
  { unfold compress. destruct (o_enableCompression options); [|reflexivity].
    cbn [negb]. apply replace_all_id. intros m Hin.
    destruct (Nat.ltb 3 (length (m_text m))) eqn:L; [|reflexivity].
    exfalso. apply H4. apply Nat.ltb_lt in L.
    destruct (matches_from_within _ _ _ _ _ Hin) as (a & b & Hab).
    apply matches_from_sound in Hin. destruct Hin as (j & s' & Hm).
    apply re_runs_match in Hm. destruct Hm as (ch & k & Hk).
    rewrite Hk in Hab, L. unfold repeat1 in L. rewrite repeat_length in L.
    exists a, ch, (repeat1 ch (k - 4) ++ b). rewrite Hab.
    replace k with (4 + (k - 4)) at 1 by lia.
    unfold repeat1. rewrite repeat_app, <- app_assoc. reflexivity. }
  split; [exact Hc|]. rewrite Hc.
  unfold decompress. destruct (o_enableCompression options); [|reflexivity].
  cbn [negb].
  destruct (matches re_packed x) as [|m ms] eqn:Em; [reflexivity|].
  exfalso. apply Hp.
  assert (Hin : In m (matches re_packed x)) by (rewrite Em; left; reflexivity).
  destruct (matches_from_within _ _ _ _ _ Hin) as (a & b & Hab).
  apply matches_from_sound in Hin. destruct Hin as (j & s' & Hm).
  apply re_packed_match in Hm. destruct Hm as (ch & ds & Hne & Hds & Ht).
  exists a, ch, ds, b. split; [exact Hne|]. split; [exact Hds|].
  rewrite Hab, Ht. simpl. rewrite <- app_assoc. reflexivity.
Qed.

Lemma compression_round_trip_on_plain_text_witness :
  compress exported_options (lit "ok") = lit "ok" /\
  decompress (sample_engine [] []) exported_options
    (compress exported_options (lit "ok")) = Some (lit "ok").
Proof.
  apply (@compression_round_trip_on_plain_text (sample_engine [] [])
           exported_options (lit "ok")).
  - intros (a & ch & b & H). apply (f_equal (@length code)) in H.
    rewrite !length_app in H. simpl in H. lia.
  - intros (a & ch & ds & b & Hne & _ & H).
    apply (f_equal (@length code)) in H.
    destruct ds; [congruence|].
    rewrite !length_app in H. simpl in H. rewrite !length_app in H.
    simpl in H. lia.
Defined.

(** ** Reading never writes to the persistent storage *)

Section ReadFacts.

Variable E : Engine.
Variable options : Options.

Lemma get_persistent_frame env url currentUrl : forall keys st,
  let out := get_persistent E options env url currentUrl keys st in
  local (snd out) = local st /\
  (exists new, objects (snd out) = objects st ++ new) /\
  (fst out = None -> snd out = st).
Proof.
  cbv zeta. induction keys as [|key keys IH]; intros st.
  - simpl. split; [reflexivity|]. split; [exists []; symmetry; apply app_nil_r|auto].
  - cbn [get_persistent].
    assert (Hnone : local st = local st /\
              (exists new, objects st = objects st ++ new) /\
              (@None ref = None -> st = st)).
    { split; [reflexivity|]. split; [exists []; symmetry; apply app_nil_r|auto]. }
    repeat match goal with
    | |- context [if ?b then _ else _] => destruct b
    | |- context [match getStorage ?k ?s with _ => _ end] =>
        destruct (getStorage k s)
    | |- context [match decompress ?a ?b ?c with _ => _ end] =>
        destruct (decompress a b c)
    | |- context [match JSON_parse_entry ?a ?b with _ => _ end] =>
        destruct (JSON_parse_entry a b)
    end; try apply IH; try exact Hnone.
    cbn [fst snd local objects]. split; [reflexivity|].
    split; [eexists; reflexivity|discriminate].
Qed.

Lemma get_leaves_storage_aux (env : Env) (url : option jsstring) (st : State) :
  let out := get E options env url st in
  local (snd out) = local st /\
  (forall r, r < length (objects st) ->
     deref (objects (snd out)) r = deref (objects st) r) /\
  (fst out = None -> snd out = st).
Proof.
  cbv zeta.
  assert (H : local (snd (get E options env url st)) = local st /\
              (exists new, objects (snd (get E options env url st))
                           = objects st ++ new) /\
              (fst (get E options env url st) = None ->
               snd (get E options env url st) = st)).
  { unfold get.
    destruct (find _ (memoryCache st)) as [[k e]|].
    - cbn [fst snd]. split; [reflexivity|].
      split; [exists []; symmetry; apply app_nil_r|discriminate].
    - apply get_persistent_frame. }
  destruct H as (Hl & (new & Ho) & Hn).
  split; [exact Hl|]. split; [|exact Hn].
  intros r Hr. rewrite Ho. unfold deref. apply app_nth1. exact Hr.
Qed.

(** X9. [get] never changes the persistent storage, whatever it finds
    there, and never changes an object that exists; when it answers
    [null] it leaves the whole store as it was. *)
Theorem get_leaves_storage (env : Env) (url : option jsstring) (st : State) :
  let out := get E options env url st in
  local (snd out) = local st /\
  (forall r, r < length (objects st) ->
     deref (objects (snd out)) r = deref (objects st) r) /\
  (fst out = None -> snd out = st).
Proof. exact (get_leaves_storage_aux env url st). Qed.

Lemma get_persistent_found env url currentUrl : forall keys st r st',
  get_persistent E options env url currentUrl keys st = (Some r, st') ->
  exists k e,
    memoryCache st' = map_set k e (memoryCache st) /\
    data e = r /\
    isExpired options (now env) e = false /\
    url_matches url currentUrl e = true.
Proof.
  induction keys as [|key keys IH]; intros st r st' H;
    cbn [get_persistent] in H; [discriminate|].
  repeat match type of H with
  | context [if ?b then _ else _] => destruct b eqn:?
  | context [match getStorage ?k ?s with _ => _ end] =>
      destruct (getStorage k s)
  | context [match decompress ?a ?b ?c with _ => _ end] =>
      destruct (decompress a b c)
  | context [match JSON_parse_entry ?a ?b with _ => _ end] =>
      destruct (JSON_parse_entry a b) as [entry|]
  end; try discriminate; try (apply IH; exact H).
  inversion H; subst. cbn [memoryCache].
  match goal with
  | Hc : (negb _ && _)%bool = true |- _ =>
      apply andb_prop in Hc; destruct Hc as [Hx Hu]
  end.
  apply negb_true_iff in Hx.
  eexists. eexists. split; [reflexivity|].
  split; [reflexivity|]. split; [exact Hx|exact Hu].
Qed.

(** X10. Asking again gives the same object: when [get] answers, the same
    call on the store it leaves answers with the same reference and
    changes nothing. *)
Theorem get_again_same_object (env : Env) (url : option jsstring)
    (st : State) (r : ref) (st' : State) :
  get E options env url st = (Some r, st') ->
  get E options env url st' = (Some r, st').
Proof.
  unfold get.
  set (f := fun kv : jsstring * CacheEntry ref =>
              url_matches url (url_or url (getCurrentUrl env)) (snd kv) &&
              negb (isExpired options (now env) (snd kv))).
  destruct (find f (memoryCache st)) as [[k e]|] eqn:F.
  - intros H. inversion H; subst. rewrite F. reflexivity.
  - intros H. apply get_persistent_found in H.
    destruct H as (k & e & Hm & Hd & Hx & Hu).
    rewrite Hm.
    destruct (map_set_split k e (memoryCache st)) as (l1 & l2 & Hs & Hl1 & _).
    rewrite Hs.
    assert (Hf : find f (l1 ++ (k, e) :: l2) = Some (k, e)).
    { apply find_split.
      - intros y Hy. destruct (Hl1 y Hy) as [Hin _].
        apply (find_none _ _ F _ Hin).
      - unfold f. cbn [snd]. rewrite Hu, Hx. reflexivity. }
    rewrite Hf, Hd. reflexivity.
Qed.

End ReadFacts.

Lemma get_again_same_object_witness :
  exists r st',
    get engine3 exported_options (no_tab_at 2000) page_url after_john
    = (Some r, st') /\
    get engine3 exported_options (no_tab_at 2000) page_url st'
    = (Some r, st').
Proof.
  eexists. eexists. split; [vm_compute; reflexivity|].
  apply (@get_again_same_object engine3 exported_options (no_tab_at 2000)
           page_url after_john).
  vm_compute. reflexivity.
Defined.

(** ** What a write leaves in the persistent storage *)

Lemma map_get_set_same {V} (k : jsstring) (v : V) : forall m,
  map_get k (map_set k v m) = Some v.
Proof.
  induction m as [|[k' v'] m IH]; simpl.
  - rewrite eqb_refl. reflexivity.
  - destruct (Js.eqb k' k) eqn:Ek; simpl.
    + rewrite eqb_refl. reflexivity.
    + rewrite Ek. exact IH.
Qed.

Lemma map_get_set_other {V} (k k' : jsstring) (v : V) : forall m,
  k' <> k -> map_get k' (map_set k v m) = map_get k' m.
Proof.
  intros m Hne. induction m as [|[k0 v0] m IH]; simpl.
  - replace (Js.eqb k k') with false; [reflexivity|].
    symmetry. apply eqb_neq. congruence.
  - destruct (Js.eqb k0 k) eqn:Ek; simpl.
    + apply eqb_eq in Ek. subst k0.
      replace (Js.eqb k k') with false; [reflexivity|].
      symmetry. apply eqb_neq. congruence.
    + rewrite IH. reflexivity.
Qed.

Lemma map_set_keys {V} (k : jsstring) (v : V) : forall m,
  In k (List.map fst m) -> List.map fst (map_set k v m) = List.map fst m.
Proof.
  induction m as [|[k' v'] m IH]; simpl; intros H; [contradiction|].
  destruct (Js.eqb k' k) eqn:Ek; simpl.
  - apply eqb_eq in Ek. subst. reflexivity.
  - f_equal. apply IH. destruct H as [H|H]; [|exact H].
    subst. rewrite eqb_refl in Ek. discriminate.
Qed.

Section WriteFacts.

Variable E : Engine.
Variable options : Options.

(** The text that [set] writes. *)
Definition written_text (env : Env) (url : option jsstring)
    (d : list Transaction) : jsstring :=
  compress options
    (JSON_stringify_entry
       {| data := d; timestamp := now env;
          url := Some (currentUrl_of env url);
          hash := Some (generateContentHash d) |}).

Lemma set_local env d url st st1 :
  set E options env d url st = Some st1 ->
  JSON_parse_data E (JSON_stringify_data (deref (objects st) d))
    = Some (deref (objects st) d) ->
  local st1 =
    setStorage (storageKey ++ lit "_latest")
      (written_text env url (deref (objects st) d))
      (setStorage (storageKey ++ lit "_" ++ key_of E (objects st) env d url)
         (written_text env url (deref (objects st) d)) (local st)).
Proof.
  unfold set. intros H Hp. rewrite Hp in H. cbn [alloc] in H.
  inversion H. reflexivity.
Qed.

Lemma set_writes_entry_and_latest_aux (env : Env) (d : ref)
    (url : option jsstring) (st st1 : State) :
  set E options env d url st = Some st1 ->
  JSON_parse_data E (JSON_stringify_data (deref (objects st) d))
    = Some (deref (objects st) d) ->
  let text := written_text env url (deref (objects st) d) in
  let entryKey := storageKey ++ lit "_" ++ key_of E (objects st) env d url in
  let latestKey := storageKey ++ lit "_latest" in
  getStorage entryKey (local st1) = Some text /\
  getStorage latestKey (local st1) = Some text /\
  forall k, k <> entryKey -> k <> latestKey ->
    getStorage k (local st1) = getStorage k (local st).
Proof.
  intros Hset Hp. cbv zeta. rewrite (set_local _ _ _ _ Hset Hp).
  unfold getStorage, setStorage. split; [|split].
  - destruct (Js.eqb (storageKey ++ lit "_" ++ key_of E (objects st) env d url)
                (storageKey ++ lit "_latest")) eqn:Ek.
    + apply eqb_eq in Ek. rewrite Ek at 1. apply map_get_set_same.
    + apply eqb_neq in Ek. rewrite map_get_set_other by exact Ek.
      apply map_get_set_same.
  - apply map_get_set_same.
  - intros k H1 H2. rewrite !map_get_set_other by assumption. reflexivity.
Qed.

(** X11. A write whose data JSON gives back files the same text under the
    key of the entry and under the key [paytracker_cache_latest], and
    leaves every other key of the persistent storage as it was. *)
Theorem set_writes_entry_and_latest (env : Env) (d : ref)
    (url : option jsstring) (st st1 : State) :
  set E options env d url st = Some st1 ->
  JSON_parse_data E (JSON_stringify_data (deref (objects st) d))
    = Some (deref (objects st) d) ->
  let text := written_text env url (deref (objects st) d) in
  let entryKey := storageKey ++ lit "_" ++ key_of E (objects st) env d url in
  let latestKey := storageKey ++ lit "_latest" in
  getStorage entryKey (local st1) = Some text /\
  getStorage latestKey (local st1) = Some text /\
  forall k, k <> entryKey -> k <> latestKey ->
    getStorage k (local st1) = getStorage k (local st).
Proof. exact (@set_writes_entry_and_latest_aux env d url st st1). Qed.

Lemma storage_keys_after_set (k1 k2 t : jsstring) (s : jsmap jsstring) :
  getStorageKeys s = [] ->
  startsWith storageKey k1 = true -> startsWith storageKey k2 = true ->
  exists tl,
    getStorageKeys (setStorage k2 t (setStorage k1 t s)) = k1 :: tl.
Proof.
  unfold getStorageKeys, setStorage. intros Hs H1 H2.
  assert (Hn : forall k, startsWith storageKey k = true ->
                         ~ In k (List.map fst s)).
  { intros k Hk Hin.
    assert (In k (filter (startsWith storageKey) (List.map fst s)))
      by (apply filter_In; auto).
    rewrite Hs in H. destruct H. }
  rewrite (map_set_new k1 t s (Hn k1 H1)).
  destruct (Js.eqb k1 k2) eqn:Ek.
  - apply eqb_eq in Ek. subst k2. exists [].
    rewrite map_set_keys
      by (rewrite map_app, in_app_iff; right; left; reflexivity).
    rewrite map_app, filter_app, Hs. cbn [List.map fst filter app].
    rewrite H1. reflexivity.
  - apply eqb_neq in Ek. exists [k2].
    rewrite map_set_new.
    + rewrite !map_app, !filter_app, Hs. cbn [List.map fst filter app].
      rewrite H1, H2. reflexivity.
    + rewrite map_app, in_app_iff. intros [Hin|[Hin|[]]].
      * apply (Hn k2 H2 Hin).
      * simpl in Hin. congruence.
Qed.

(** X12. What is written can be read in a new session.  With compression
    off, on a persistent storage that holds no key of the store yet, a
    write without a URL followed by a read without a URL on an empty
    memory tier, within the time to live, returns data equal to what was
    written. *)
Theorem read_in_new_session (env env' : Env) (d : ref) (st : State)
    (h : heap) :
  o_enableCompression options = false ->
  getStorageKeys (local st) = [] ->
  JSON_parse_data E (JSON_stringify_data (deref (objects st) d))
    = Some (deref (objects st) d) ->
  (let entry := {| data := deref (objects st) d; timestamp := now env;
                   url := Some (currentUrl_of env None);
                   hash := Some (generateContentHash (deref (objects st) d))
                |} in
   JSON_parse_entry E (JSON_stringify_entry entry) = Some entry) ->
  (now env' - now env <= ttl_ms options)%Z ->
  exists st1 r st2,
    set E options env d None st = Some st1 /\
    get E options env' None
      {| objects := h; memoryCache := []; local := local st1 |}
    = (Some r, st2) /\
    deref (objects st2) r = deref (objects st) d.
Proof.
  intros Hc Hk Hp Hpe Httl. cbv zeta in Hpe.
  destruct (@set_succeeds E options env d None st _ Hp) as (st1 & Hset & _).
  pose proof (set_local _ _ _ _ Hset Hp) as Hl.
  destruct (@storage_keys_after_set
              (storageKey ++ lit "_" ++ key_of E (objects st) env d None)
              (storageKey ++ lit "_latest")
              (written_text env None (deref (objects st) d))
              (local st) Hk) as (tl & Hkeys); [reflexivity|reflexivity|].
  rewrite <- Hl in Hkeys.
  destruct (@set_writes_entry_and_latest_aux env d None st st1 Hset Hp)
    as (Hg & _).
  exists st1, (length h).
  eexists. split; [exact Hset|].
  unfold get. cbn [memoryCache find local]. rewrite Hkeys.
  cbn [get_persistent url_given local].
  replace (startsWith storageKey
             (storageKey ++ lit "_" ++ key_of E (objects st) env d None))
    with true by reflexivity.
  rewrite Hg.
  assert (Ht : written_text env None (deref (objects st) d)
               = JSON_stringify_entry
                   {| data := deref (objects st) d; timestamp := now env;
                      url := Some (currentUrl_of env None);
                      hash := Some (generateContentHash
                                      (deref (objects st) d)) |}).
  { unfold written_text, compress. rewrite Hc. reflexivity. }
  rewrite Ht.
  replace (truthy (JSON_stringify_entry _)) with true by reflexivity.
  unfold decompress. rewrite Hc. cbn [negb]. rewrite Hpe.
  unfold isExpired, url_matches. cbn [timestamp url_given negb].
  replace (ttl_ms options <? now env' - now env)%Z with false
    by (symmetry; apply Z.ltb_ge; lia).
  rewrite orb_true_r. cbn [negb andb alloc objects].
  split; [reflexivity|].
  cbn [objects data]. unfold deref at 1. rewrite app_nth2 by lia.
  rewrite Nat.sub_diag. reflexivity.
Qed.

End WriteFacts.

Lemma set_writes_entry_and_latest_witness :
  let text := written_text exported_options (no_tab_at 1000) page_url
                (deref (objects three_objects) 0) in
  let entryKey :=
    storageKey ++ lit "_" ++
    key_of engine3 (objects three_objects) (no_tab_at 1000) 0 page_url in
  let latestKey := storageKey ++ lit "_latest" in
  getStorage entryKey (local after_john) = Some text /\
  getStorage latestKey (local after_john) = Some text /\
  forall k, k <> entryKey -> k <> latestKey ->
    getStorage k (local after_john) = getStorage k (local three_objects).
Proof.
  apply (@set_writes_entry_and_latest engine3 exported_options
           (no_tab_at 1000) 0 page_url three_objects after_john).
  - exact after_john_run.
  - vm_compute. reflexivity.
Defined.

Lemma read_in_new_session_witness :
  exists st1 r st2,
    set engine_empty plain_options (no_tab_at written_at) 0 None empty_store
    = Some st1 /\
    get engine_empty plain_options (no_tab_at (written_at + 1000)) None
      {| objects := []; memoryCache := []; local := local st1 |}
    = (Some r, st2) /\
    deref (objects st2) r = deref (objects empty_store) 0.
Proof.
  apply (@read_in_new_session engine_empty plain_options
           (no_tab_at written_at) (no_tab_at (written_at + 1000)) 0
           empty_store []).
  - reflexivity.
  - reflexivity.
  - vm_compute. reflexivity.
  - vm_compute. reflexivity.
  - vm_compute. discriminate.
Defined.

(** ** What [cleanup] removes from the persistent storage *)

Section CleanupFacts.

Variable E : Engine.
Variable options : Options.

Lemma cleanup_fold_keeps env k : forall keys s,
  (forall s', getStorage k s' = getStorage k s ->
     cleanup_key E options env s' k = s') ->
  getStorage k (fold_left (cleanup_key E options env) keys s)
  = getStorage k s.
Proof.
  induction keys as [|key keys IH]; intros s Hk; [reflexivity|].
  cbn [fold_left].
  destruct (Js.eqb k key) eqn:Ek.
  - apply eqb_eq in Ek. subst key. rewrite (Hk s eq_refl).
    apply IH. exact Hk.
  - apply eqb_neq in Ek.
    pose proof (@cleanup_key_other E options env s key k Ek) as Ho.
    rewrite IH; [exact Ho|].
    intros s' Hs'. apply Hk. rewrite Hs'. exact Ho.
Qed.

(** X13. [cleanup] removes from the persistent storage exactly the keys of
    the store whose text does not decode or decodes to an expired entry:
    such a key is gone afterwards, and every other key, of the store or
    not, keeps its text. *)
Theorem cleanup_removes_exactly_stale (env : Env) (st : State)
    (k : jsstring) :
  (forall text,
     In k (getStorageKeys (local st)) ->
     getStorage k (local st) = Some text -> truthy text = true ->
     stale E options (now env) text ->
     getStorage k (local (cleanup E options env st)) = None) /\
  (~ In k (getStorageKeys (local st)) \/
   (forall text, getStorage k (local st) = Some text ->
      truthy text = false \/
      exists entry, decode E options text = Some entry /\
                    isExpired options (now env) entry = false) ->
   getStorage k (local (cleanup E options env st))
   = getStorage k (local st)).
Proof.
  split.
  - intros text Hin Hg Ht Hs.
    apply (@cleanup_persistent E options env st k text); assumption.
  - intros H. unfold cleanup. cbn [local].
    destruct H as [Hnot|Hlive].
    + generalize (local st) at 2 3 as s. revert Hnot.
      generalize (getStorageKeys (local st)) as keys.
      induction keys as [|key keys IH]; intros Hnot s; [reflexivity|].
      cbn [fold_left]. rewrite IH.
      * apply cleanup_key_other. intros ->. apply Hnot. left. reflexivity.
      * intros Hin. apply Hnot. right. exact Hin.
    + apply cleanup_fold_keeps. intros s' Hs'.
      unfold cleanup_key. rewrite Hs'.
      destruct (getStorage k (local st)) as [text|] eqn:Hg; [|reflexivity].
      destruct (Hlive text eq_refl) as [Ht|(entry & Hd & Hx)].
      * rewrite Ht. reflexivity.
      * destruct (truthy text); [|reflexivity].
        unfold decode in Hd.
        destruct (decompress E options text) as [t|]; [|discriminate].
        rewrite Hd, Hx. reflexivity.
Qed.

End CleanupFacts.

(** ** Which entries the memory tier gives up *)



Section EvictionOrder.

Variable options : Options.
Variable D : Type.


End EvictionOrder.




(** ** Clearing the store *)

Lemma filter_twice {A} (f g : A -> bool) : forall l,
  filter f (filter g l) = filter (fun x => g x && f x) l.
Proof.
  induction l as [|a l IH]; [reflexivity|]. simpl.
  destruct (g a); simpl; [destruct (f a)|]; rewrite IH; reflexivity.
Qed.

Lemma remove_each (keep : jsstring -> bool) : forall keys (s : jsmap jsstring),
  fold_left (fun s key => if keep key then s else removeStorage key s) keys s
  = filter (fun kv => negb (existsb (fun key => negb (keep key) &&
                                                Js.eqb (fst kv) key) keys)) s.
Proof.
  induction keys as [|key keys IH]; intros s; cbn [fold_left existsb].
  - induction s as [|kv s IHs]; [reflexivity|]. simpl. f_equal. exact IHs.
  - rewrite IH. destruct (keep key); cbn [negb andb orb].
    + reflexivity.
    + unfold removeStorage, map_delete. rewrite filter_twice.
      apply filter_ext. intros kv. rewrite negb_orb. reflexivity.
Qed.

Lemma getStorage_filter (g : jsstring -> bool) k : forall (s : jsmap jsstring),
  g k = true ->
  getStorage k (filter (fun kv => g (fst kv)) s) = getStorage k s.
Proof.
  unfold getStorage. intros s Hg.
  induction s as [|[k' v] s IH]; [reflexivity|]. simpl.
  destruct (g k') eqn:G; simpl.
  - rewrite IH. reflexivity.
  - destruct (Js.eqb k' k) eqn:Ek; [|exact IH].
    apply eqb_eq in Ek. subst. congruence.
Qed.

Lemma existsb_false {A} (f : A -> bool) l :
  (forall x, In x l -> f x = false) -> existsb f l = false.
Proof.
  induction l as [|a l IH]; intros H; [reflexivity|]. simpl.
  rewrite (H a) by (left; reflexivity). apply IH.
  intros x Hx. apply H. right. exact Hx.
Qed.

Section ClearFacts.

Variable E : Engine.
Variable options : Options.

Lemma get_persistent_skips env url currentUrl : forall keys st,
  (forall key, In key keys ->
     (if url_given url then includes (before_question currentUrl) key
      else startsWith storageKey key) = false) ->
  get_persistent E options env url currentUrl keys st = (None, st).
Proof.
  induction keys as [|key keys IH]; intros st H; [reflexivity|].
  cbn [get_persistent]. rewrite (H key) by (left; reflexivity).
  apply IH. intros k Hk. apply H. right. exact Hk.
Qed.

(** X15. [clear()] empties the store: the memory tier is empty, no key of
    the store is left in the persistent storage, the keys of others are
    untouched, and every [get] that follows answers [null]. *)
Theorem clear_empties_the_store (st : State) :
  let st' := clear None st in
  memoryCache st' = [] /\
  getStorageKeys (local st') = [] /\
  (forall k, startsWith storageKey k = false ->
     getStorage k (local st') = getStorage k (local st)) /\
  (forall env url, get E options env url st' = (None, st')).
Proof.
  cbv zeta. unfold clear. cbn [url_given memoryCache local].
  pose proof (remove_each (fun _ => false) (getStorageKeys (local st))
                (local st)) as Hr.
  cbn beta iota in Hr. cbn [negb andb] in Hr.
  set (s' := fold_left (fun s key => removeStorage key s)
               (getStorageKeys (local st)) (local st)) in *.
  assert (Hkeys : getStorageKeys s' = []).
  { unfold getStorageKeys. apply filter_nil_all. intros k Hin.
    destruct (startsWith storageKey k) eqn:Sk; [|reflexivity].
    exfalso. rewrite Hr in Hin. apply in_map_iff in Hin.
    destruct Hin as (kv & <- & Hkv). apply filter_In in Hkv.
    destruct Hkv as [Hkv Hx]. apply negb_true_iff in Hx.
    assert (Hy : existsb (fun key => Js.eqb (fst kv) key)
                   (getStorageKeys (local st)) = true).
    { apply existsb_exists. exists (fst kv). split; [|apply eqb_refl].
      unfold getStorageKeys. apply filter_In. split; [|exact Sk].
      apply in_map. exact Hkv. }
    congruence. }
  split; [reflexivity|]. split; [exact Hkeys|]. split.
  - intros k Hk. rewrite Hr.
    apply (@getStorage_filter
             (fun k0 => negb (existsb (fun key => Js.eqb k0 key)
                                (getStorageKeys (local st)))) k).
    apply negb_true_iff. apply existsb_false. intros key Hin.
    apply eqb_neq. intros ->. unfold getStorageKeys in Hin.
    apply filter_In in Hin. destruct Hin as [_ Hin]. congruence.
  - intros env url. unfold get. cbn [memoryCache find local].
    rewrite Hkeys. reflexivity.
Qed.

(** The entry is filed for the address [u]. *)
Definition filed_for (u : jsstring) (e : CacheEntry ref) : bool :=
  match Storage.url e with
  | Some eu => Js.eqb eu u
  | None => false
  end.

Lemma map_get_unique {V} (m : jsmap V) k v :
  NoDup (List.map fst m) -> In (k, v) m -> map_get k m = Some v.
Proof.
  induction m as [|[k' v'] m IH]; intros Hnd Hin; [destruct Hin|].
  simpl in Hnd. inversion Hnd as [|? ? Hx Hnd']; subst. simpl.
  destruct Hin as [Heq|Hin].
  - inversion Heq; subst. rewrite eqb_refl. reflexivity.
  - destruct (Js.eqb k' k) eqn:Ek; [|apply IH; assumption].
    apply eqb_eq in Ek. subst k'. exfalso. apply Hx.
    change k with (fst (k, v)). apply in_map. exact Hin.
Qed.

Lemma clear_memory (u : jsstring) (m : jsmap (CacheEntry ref)) :
  NoDup (List.map fst m) ->
  fold_left (fun m0 key => map_delete key m0)
    (filter (fun key =>
               match map_get key m with
               | Some entry => filed_for u entry
               | None => false
               end)
            (List.map fst m)) m
  = filter (fun kv => negb (filed_for u (snd kv))) m.
Proof.
  intros Hnd.
  set (keys := filter _ (List.map fst m)).
  assert (Hd : forall (ks : list jsstring) (m0 : jsmap (CacheEntry ref)),
             fold_left (fun m0 key => map_delete key m0) ks m0
             = filter (fun kv => negb (existsb (Js.eqb (fst kv)) ks)) m0).
  { induction ks as [|k ks IH]; intros m0; cbn [fold_left existsb].
    - induction m0 as [|kv m0 IHm]; [reflexivity|]. simpl. f_equal.
      exact IHm.
    - rewrite IH. unfold map_delete. rewrite filter_twice.
      apply filter_ext. intros kv. rewrite negb_orb. reflexivity. }
  rewrite Hd. apply filter_ext_in. intros [k e] Hin. cbn [fst snd].
  f_equal.
  pose proof (map_get_unique _ _ _ Hnd Hin) as Hg.
  destruct (filed_for u e) eqn:Fe.
  - apply existsb_exists. exists k. split; [|apply eqb_refl].
    unfold keys. apply filter_In. split.
    + change k with (fst (k, e)). apply in_map. exact Hin.
    + rewrite Hg. exact Fe.
  - apply existsb_false. intros k' Hk'. unfold keys in Hk'.
    apply filter_In in Hk'. destruct Hk' as [_ Hk'].
    destruct (Js.eqb k k') eqn:Ek; [|reflexivity].
    apply eqb_eq in Ek. subst k'. rewrite Hg in Hk'. congruence.
Qed.

(** X16. [clear(url)] drops from the memory tier exactly the entries filed
    for that address, keeps the others in their order, and leaves alone
    every key of the persistent storage that does not include the address
    up to its query.  The [get(url)] that follows answers [null]. *)
Theorem clear_url_then_get_is_null (env : Env) (u : jsstring) (st : State) :
  truthy u = true -> NoDup (List.map fst (memoryCache st)) ->
  let st' := clear (Some u) st in
  memoryCache st'
    = filter (fun kv => negb (filed_for u (snd kv))) (memoryCache st) /\
  (forall k, includes (before_question u) k = false ->
     getStorage k (local st') = getStorage k (local st)) /\
  get E options env (Some u) st' = (None, st').
Proof.
  intros Hu Hnd. cbv zeta. unfold clear. cbn [url_given]. rewrite Hu.
  cbn [memoryCache local].
  pose proof (@clear_memory u (memoryCache st) Hnd) as Hm. unfold filed_for in Hm at 1.
  pose proof (remove_each (fun key => negb (includes (before_question u) key))
                (getStorageKeys (local st)) (local st)) as Hr.
  cbn beta in Hr.
  assert (Hfold :
    fold_left (fun s key => if includes (before_question u) key
                            then removeStorage key s else s)
      (getStorageKeys (local st)) (local st)
    = fold_left (fun s key => if negb (includes (before_question u) key)
                              then s else removeStorage key s)
        (getStorageKeys (local st)) (local st)).
  { generalize (local st) at 2 4 as s.
    generalize (getStorageKeys (local st)) as keys.
    induction keys as [|k keys IH]; intros s; [reflexivity|].
    cbn [fold_left]. rewrite IH.
    destruct (includes (before_question u) k); reflexivity. }
  rewrite Hfold, Hr, Hm. clear Hfold Hr Hm.
  split; [reflexivity|]. split.
  - intros k Hk.
    apply (@getStorage_filter
             (fun k0 => negb (existsb
                (fun key => negb (negb (includes (before_question u) key)) &&
                            Js.eqb k0 key) (getStorageKeys (local st)))) k).
    apply negb_true_iff. apply existsb_false. intros key Hin.
    destruct (Js.eqb k key) eqn:Ek; [|apply andb_false_r].
    apply eqb_eq in Ek. subst key. rewrite Hk. reflexivity.
  - unfold get. cbn [memoryCache local url_or]. unfold or_else.
    rewrite Hu.
    rewrite find_none_all.
    + apply get_persistent_skips. cbn [url_given]. rewrite Hu.
      intros key Hin.
      destruct (includes (before_question u) key) eqn:Ik; [|reflexivity].
      exfalso. unfold getStorageKeys in Hin. apply filter_In in Hin.
      destruct Hin as [Hin Sk]. apply in_map_iff in Hin.
      destruct Hin as (kv & <- & Hkv). apply filter_In in Hkv.
      destruct Hkv as [Hkv Hx]. apply negb_true_iff in Hx.
      assert (Hy : existsb
                (fun key => negb (negb (includes (before_question u) key)) &&
                            Js.eqb (fst kv) key)
                (getStorageKeys (local st)) = true).
      { apply existsb_exists. exists (fst kv). split.
        - unfold getStorageKeys. apply filter_In. split; [|exact Sk].
          apply in_map. exact Hkv.
        - rewrite Ik, eqb_refl. reflexivity. }
      unfold getStorageKeys in Hy. congruence.
    + intros kv Hin. apply filter_In in Hin. destruct Hin as [_ Hf].
      apply negb_true_iff in Hf. unfold url_matches.
      unfold filed_for in Hf. rewrite Hf. cbn [url_given]. rewrite Hu.
      reflexivity.
Qed.

End ClearFacts.

Definition page : jsstring :=
  lit "https://app.paytracker.com/transactions?page=1".

Lemma clear_url_then_get_is_null_witness :
  let st' := clear (Some page) after_john in
  memoryCache st'
    = filter (fun kv => negb (filed_for page (snd kv)))
        (memoryCache after_john) /\
  (forall k, includes (before_question page) k = false ->
     getStorage k (local st') = getStorage k (local after_john)) /\
  get engine3 exported_options (no_tab_at 2000) (Some page) st' = (None, st').
Proof.
  apply (@clear_url_then_get_is_null engine3 exported_options
           (no_tab_at 2000) page after_john).
  - reflexivity.
  - vm_compute. repeat constructor. intros [].
Defined.

(** ** utils.ts: values of a CSV file *)

Lemma includes_head p s : startsWith p s = true -> includes p s = true.
Proof. intros H. destruct s; simpl in *; rewrite H; reflexivity. Qed.

Lemma doubled_quotes_injective : forall a b : jsstring,
  flat_map (fun c => if N.eqb 34 c then dquote ++ dquote else [c]) a
  = flat_map (fun c => if N.eqb 34 c then dquote ++ dquote else [c]) b ->
  a = b.
Proof.
  unfold dquote.
  induction a as [|x a IH]; intros [|y b] H; cbn [flat_map] in H.
  - reflexivity.
  - destruct (N.eqb 34 y); cbn [app] in H; discriminate.
  - destruct (N.eqb 34 x); cbn [app] in H; discriminate.
  - destruct (N.eqb 34 x) eqn:Ex; destruct (N.eqb 34 y) eqn:Ey;
      cbn [app] in H.
    + apply N.eqb_eq in Ex, Ey. subst. inversion H as [H']. f_equal.
      apply IH. exact H'.
    + inversion H as [[H1 H2]].
      destruct b as [|z b]; cbn [flat_map] in H2.
      * discriminate.
      * apply N.eqb_neq in Ey. congruence.
    + inversion H as [[H1 H2]].
      apply N.eqb_neq in Ex. congruence.
    + inversion H. subst. f_equal. apply IH. assumption.
Qed.

(** X17. [escapeCSVValue] loses nothing: two values with the same escaped
    form are the same value.  A value without comma, double quote and
    line feed is its own escaped form; any other is wrapped in double
    quotes, with each double quote of the value written twice. *)
Theorem escapeCSVValue_injective :
  (forall a b, escapeCSVValue a = escapeCSVValue b -> a = b) /\
  (forall v, escapeCSVValue v = v \/
     escapeCSVValue v
     = dquote ++
       flat_map (fun c => if N.eqb 34 c then dquote ++ dquote else [c]) v ++
       dquote).
Proof.
  assert (Hshape : forall v,
    (escapeCSVValue v = v /\ includes dquote v = false) \/
    escapeCSVValue v
    = dquote ++
      flat_map (fun c => if N.eqb 34 c then dquote ++ dquote else [c]) v ++
      dquote).
  { intros v. unfold escapeCSVValue, re_quote.
    rewrite replace_all_charset.
    destruct (includes (lit ",") v); [right; reflexivity|].
    destruct (includes dquote v); [right; reflexivity|].
    destruct (includes [10%N] v); [right; reflexivity|].
    left. split; reflexivity. }
  split.
  - intros a b H.
    destruct (Hshape a) as [[Ha Hqa]|Ha]; destruct (Hshape b) as [[Hb Hqb]|Hb].
    + congruence.
    + rewrite Ha, Hb in H. subst a.
      rewrite includes_head in Hqa; [discriminate|reflexivity].
    + rewrite Ha, Hb in H. subst b.
      rewrite includes_head in Hqb; [discriminate|reflexivity].
    + rewrite Ha, Hb in H. inversion H as [H'].
      apply app_inj_tail in H'. destruct H' as [H' _].
      apply doubled_quotes_injective. exact H'.
  - intros v. destruct (Hshape v) as [[Hv _]|Hv]; auto.
Qed.

(** ** utils.ts: the search filter *)

Section SearchFacts.

Variable toLowerCase : jsstring -> jsstring.

(** X18. The search judges each record on its own: filtering a list is
    filtering its parts, so the records found keep their order and are
    records of the list; a term of white space only finds every record;
    and filtering what was found by the same term changes nothing. *)
Theorem filterTransactions_narrows (term : jsstring) :
  (forall a b,
     filterTransactions toLowerCase (a ++ b) term
     = filterTransactions toLowerCase a term ++
       filterTransactions toLowerCase b term) /\
  (forall ts tx, In tx (filterTransactions toLowerCase ts term) ->
     In tx ts) /\
  (forall ts, trim term = [] ->
     filterTransactions toLowerCase ts term = ts) /\
  (forall ts,
     filterTransactions toLowerCase
       (filterTransactions toLowerCase ts term) term
     = filterTransactions toLowerCase ts term).
Proof.
  unfold filterTransactions. repeat split.
  - intros a b. destruct (truthy (trim term)); cbn [negb];
      [apply filter_app|reflexivity].
  - intros ts tx. destruct (truthy (trim term)); cbn [negb]; [|auto].
    intros H. apply filter_In in H. apply H.
  - intros ts H. rewrite H. reflexivity.
  - intros ts. destruct (truthy (trim term)); cbn [negb]; [|reflexivity].
    rewrite filter_twice. apply filter_ext. intros tx.
    apply andb_diag.
Qed.

End SearchFacts.

(** ** utils.ts: the age of the cache *)

(** X19. For a date that is not in the future, the hours and minutes that
    [formatCacheAge] prints are the age rounded down to the minute: the
    minutes are below sixty and the hours are not negative, and the text
    names the hours only when there is at least one. *)
Theorem formatCacheAge_rounds_down (now date : Z) :
  (date <= now)%Z ->
  let h := ageHours now date in
  let m := ageMinutes now date in
  (0 <= h)%Z /\ (0 <= m < 60)%Z /\
  (h * 3600000 + m * 60000 <= now - date
   < h * 3600000 + (m + 1) * 60000)%Z /\
  formatCacheAge now date
  = if (h =? 0)%Z then number_text m ++ lit "m ago"
    else number_text h ++ lit "h " ++ number_text m ++ lit "m ago".
Proof.
  intros Hle. cbv zeta. unfold formatCacheAge, ageHours, ageMinutes.
  change (1000 * 60 * 60)%Z with 3600000%Z.
  change (1000 * 60)%Z with 60000%Z.
  set (age := (now - date)%Z). assert (Hage : (0 <= age)%Z) by (unfold age; lia).
  rewrite Z.rem_mod_nonneg by lia.
  pose proof (Z.div_mod age 3600000 ltac:(lia)) as Hdm.
  pose proof (Z.mod_pos_bound age 3600000 ltac:(lia)) as Hmb.
  pose proof (Z.div_pos age 3600000 Hage ltac:(lia)) as Hh.
  set (h := (age / 3600000)%Z) in *. set (r := (age mod 3600000)%Z) in *.
  pose proof (Z.div_mod r 60000 ltac:(lia)) as Hdm2.
  pose proof (Z.mod_pos_bound r 60000 ltac:(lia)) as Hmb2.
  pose proof (Z.div_pos r 60000 ltac:(lia) ltac:(lia)) as Hm.
  assert (Hm60 : (r / 60000 < 60)%Z)
    by (apply Z.div_lt_upper_bound; lia).
  set (m := (r / 60000)%Z) in *.
  split; [lia|]. split; [lia|]. split; [lia|].
  destruct (Z.eqb_spec h 0) as [->|Hn].
  - reflexivity.
  - replace (0 <? h)%Z with true by (symmetry; apply Z.ltb_lt; lia).
    reflexivity.
Qed.

Lemma formatCacheAge_rounds_down_witness :
  formatCacheAge 1700007259000 1700000000000 = lit "2h 0m ago" /\
  formatCacheAge 1700001800000 1700000000000 = lit "30m ago".
Proof.
  split.
  - destruct (@formatCacheAge_rounds_down 1700007259000 1700000000000)
      as (_ & _ & _ & H); [lia|]. exact H.
  - destruct (@formatCacheAge_rounds_down 1700001800000 1700000000000)
      as (_ & _ & _ & H); [lia|]. exact H.
Defined.

(** ** utils.ts: the instance markers *)



(** ** utils.ts: cleaning up what was extracted *)

Lemma trim_start_stops : forall s, stops white_space (trim_start s).
Proof.
  induction s as [|c s IH]; simpl; [exact I|].
  destruct (white_space c) eqn:W; [exact IH|]. simpl. exact W.
Qed.

Lemma trim_start_fixed s : stops white_space s -> trim_start s = s.
Proof. destruct s as [|c s]; simpl; [reflexivity|]. intros ->. reflexivity. Qed.

Lemma trim_start_suffix : forall s, exists p, s = p ++ trim_start s.
Proof.
  induction s as [|c s (p & IH)]; simpl; [exists []; reflexivity|].
  destruct (white_space c).
  - exists (c :: p). simpl. f_equal. exact IH.
  - exists []. reflexivity.
Qed.

Lemma trim_idempotent s : trim (trim s) = trim s.
Proof.
  unfold trim.
  set (a := trim_start s).
  set (b := trim_start (rev a)).
  assert (Ha : stops white_space a) by apply trim_start_stops.
  assert (Hb : stops white_space b) by apply trim_start_stops.
  destruct (trim_start_suffix (rev a)) as (p & Hp). fold b in Hp.
  assert (Hr : stops white_space (rev b)).
  { apply (f_equal (@rev code)) in Hp.
    rewrite rev_involutive, rev_app_distr in Hp.
    destruct (rev b) as [|c r] eqn:Er; [exact I|].
    rewrite Hp in Ha. simpl in Ha |- *. exact Ha. }
  rewrite (@trim_start_fixed _ Hr), rev_involutive, (@trim_start_fixed _ Hb).
  reflexivity.
Qed.

(** The record as an object with four string properties. *)
Definition as_object (tx : Transaction) : option AnyTransaction :=
  Some {| any_customer := Some (JString (customer tx));
          any_date := Some (JString (date tx));
          any_amount := Some (JString (amount tx));
          any_transactionId := Some (JString (transactionId tx)) |}.

(** An object whose four properties are the given strings. *)
Definition object_of (c d a i : jsstring) : option AnyTransaction :=
  Some {| any_customer := Some (JString c);
          any_date := Some (JString d);
          any_amount := Some (JString a);
          any_transactionId := Some (JString i) |}.

Lemma valid_is_object_of x :
  isValidTransactionData x = true ->
  exists c d a i, x = object_of c d a i.
Proof.
  destruct x as [[c d a i]|]; [|discriminate]. simpl.
  destruct c as [[c|]|]; try discriminate.
  destruct d as [[d|]|]; try discriminate.
  destruct a as [[a|]|]; try discriminate.
  destruct i as [[i|]|]; try discriminate.
  intros _. exists c, d, a, i. reflexivity.
Qed.

(** X21. [sanitizeTransactionData] goes through the list element by
    element and keeps the order: an object whose four properties are
    strings gives one record, made of these four strings trimmed; any
    other element gives nothing.  What it returns it returns unchanged
    when it is given it again. *)
Theorem sanitizeTransactionData_keeps_valid_trimmed :
  (forall l1 l2,
     sanitizeTransactionData (l1 ++ l2)
     = sanitizeTransactionData l1 ++ sanitizeTransactionData l2) /\
  (forall c d a i,
     sanitizeTransactionData [object_of c d a i]
     = [{| customer := trim c; date := trim d; amount := trim a;
           transactionId := trim i |}]) /\
  (forall x,
     (forall c d a i, x <> object_of c d a i) ->
     sanitizeTransactionData [x] = []) /\
  (forall transactions,
     sanitizeTransactionData
       (List.map as_object (sanitizeTransactionData transactions))
     = sanitizeTransactionData transactions).
Proof.
  split; [|split; [|split]].
  - intros l1 l2. unfold sanitizeTransactionData.
    rewrite filter_app, map_app. reflexivity.
  - intros c d a i. reflexivity.
  - intros x Hx. unfold sanitizeTransactionData. cbn [filter].
    destruct (isValidTransactionData x) eqn:V; [|reflexivity].
    apply valid_is_object_of in V. destruct V as (c & d & a & i & ->).
    exfalso. apply (Hx c d a i). reflexivity.
  - intros transactions.
    assert (Htrim : forall tx,
       In tx (sanitizeTransactionData transactions) ->
       trim (customer tx) = customer tx /\ trim (date tx) = date tx /\
       trim (amount tx) = amount tx /\
       trim (transactionId tx) = transactionId tx).
    { intros tx H. unfold sanitizeTransactionData in H.
      apply in_map_iff in H. destruct H as (o & <- & _).
      destruct o as [d|]; cbn [customer date amount transactionId];
        repeat split; try apply trim_idempotent; reflexivity. }
    revert Htrim. generalize (sanitizeTransactionData transactions) as out.
    induction out as [|tx out IH]; intros Htrim; [reflexivity|].
    unfold sanitizeTransactionData in *. cbn [List.map filter].
    cbn [as_object isValidTransactionData is_string any_customer any_date
         any_amount any_transactionId andb List.map string_of].
    destruct (Htrim tx (or_introl eq_refl)) as (H1 & H2 & H3 & H4).
    rewrite H1, H2, H3, H4. f_equal.
    + destruct tx; reflexivity.
    + apply IH. intros tx' Hin. apply Htrim. right. exact Hin.
Qed.

(** ** The popup component: from one window to the other *)

(** X22. Detaching hands the view over: when the popup has transactions,
    the detached window that opens starts with the transactions, the
    search term and the two modes of the popup, whatever it would have
    had otherwise. *)
Theorem detached_window_takes_over (ui ui0 : Ui) (s : SyncData)
    (cached : option (list Transaction)) :
  transactions ui <> [] ->
  mount true (detachWindow_sync ui s) cached ui0
  = {| transactions := transactions ui; searchTerm := searchTerm ui;
       privacyMode := privacyMode ui; cloverMode := cloverMode ui;
       fromCache := true |}.
Proof.
  intros Hne. unfold mount, detachWindow_sync, mount_sync.
  destruct (transactions ui) as [|tx l] eqn:Et; [congruence|].
  cbn [length Nat.ltb Nat.leb syncDataBetweenModes popupModeData
       lastSyncMode is_mode surface_eqb snapshot has_transactions
       md_transactions andb].
  rewrite Et. cbn [adopt transactions length Nat.eqb].
  unfold adopt, snapshot, transactions_of, defined_or, or_else.
  cbn [md_transactions md_searchTerm md_privacyMode md_cloverMode].
  rewrite Et. destruct (searchTerm ui); reflexivity.
Qed.

Definition popup_view : Ui :=
  {| transactions := d_john; searchTerm := lit "john";
     privacyMode := true; cloverMode := false; fromCache := false |}.

Definition first_view : Ui :=
  {| transactions := []; searchTerm := []; privacyMode := false;
     cloverMode := false; fromCache := false |}.

Definition nothing_synced : SyncData :=
  {| lastSyncMode := None; popupModeData := None;
     detachedModeData := None |}.

Lemma detached_window_takes_over_witness :
  mount true (detachWindow_sync popup_view nothing_synced) None first_view
  = {| transactions := d_john; searchTerm := lit "john";
       privacyMode := true; cloverMode := false; fromCache := true |}.
Proof.
  apply (@detached_window_takes_over popup_view first_view nothing_synced
           None).
  discriminate.
Defined.

(** X23. Reattaching does not hand the view back through the snapshot of
    the detached window, which [reattachWindow] removes as soon as it has
    written it: the popup that opens next, starting without transactions,
    shows the transactions the popup had when it was detached. *)
Theorem reattached_popup_shows_its_own_snapshot (uiPopup uiDetached ui0 : Ui)
    (s : SyncData) (cached : option (list Transaction)) :
  transactions uiPopup <> [] -> transactions ui0 = [] ->
  let s' := reattachWindow_sync uiDetached (detachWindow_sync uiPopup s) in
  detachedModeData s' = None /\
  mount_sync false s' ui0 = ui0 /\
  transactions (mount false s' cached ui0) = transactions uiPopup.
Proof.
  intros Hne H0. cbv zeta.
  unfold mount, reattachWindow_sync, detachWindow_sync, mount_sync.
  destruct (transactions uiPopup) as [|tx l] eqn:Et; [congruence|].
  cbn [length Nat.ltb Nat.leb syncDataBetweenModes popupModeData
       detachedModeData lastSyncMode].
  split; [reflexivity|]. split; [reflexivity|].
  rewrite H0. cbn [length Nat.eqb loadCachedData negb snapshot
                   md_transactions transactions].
  exact Et.
Qed.

Definition detached_view : Ui :=
  {| transactions := d_jane; searchTerm := [];
     privacyMode := true; cloverMode := false; fromCache := false |}.

Lemma reattached_popup_shows_its_own_snapshot_witness :
  let s' := reattachWindow_sync detached_view
              (detachWindow_sync popup_view nothing_synced) in
  detachedModeData s' = None /\
  mount_sync false s' first_view = first_view /\
  transactions (mount false s' (Some d_jane) first_view) = d_john.
Proof.
  apply (@reattached_popup_shows_its_own_snapshot popup_view detached_view
           first_view nothing_synced (Some d_jane)).
  - discriminate.
  - reflexivity.
Defined.

(** ** Invariants of the store *)

Lemma filter_keys_NoDup {V} (f : jsstring * V -> bool) : forall (m : jsmap V),
  NoDup (List.map fst m) -> NoDup (List.map fst (filter f m)).
Proof.
  induction m as [|kv m IH]; intros H; [constructor|].
  simpl in H. inversion H as [|? ? Hx Hnd]; subst. simpl.
  destruct (f kv); [|apply IH; exact Hnd].
  simpl. constructor; [|apply IH; exact Hnd].
  intros Hin. apply Hx. apply in_map_iff in Hin.
  destruct Hin as (y & Hy & Hin). apply filter_In in Hin.
  rewrite <- Hy. apply in_map. apply Hin.
Qed.

Lemma map_set_NoDup {V} (k : jsstring) (v : V) (m : jsmap V) :
  NoDup (List.map fst m) -> NoDup (List.map fst (map_set k v m)).
Proof.
  intros H.
  destruct (in_dec (list_eq_dec N.eq_dec) k (List.map fst m)) as [Hin|Hout].
  - rewrite map_set_keys by exact Hin. exact H.
  - rewrite (map_set_new k v m Hout), map_app.
    apply NoDup_app; [exact H|repeat constructor; intros []|].
    intros x Hx [<-|[]]. exact (Hout Hx).
Qed.

Lemma delete_keys {V} : forall (ks : list jsstring) (m : jsmap V),
  fold_left (fun m0 key => map_delete key m0) ks m
  = filter (fun kv => negb (existsb (Js.eqb (fst kv)) ks)) m.
Proof.
  induction ks as [|k ks IH]; intros m; cbn [fold_left existsb].
  - induction m as [|kv m IHm]; [reflexivity|]. simpl. f_equal. exact IHm.
  - rewrite IH. unfold map_delete. rewrite filter_twice.
    apply filter_ext. intros kv. rewrite negb_orb. reflexivity.
Qed.

Lemma cleanupMemoryCache_NoDup {D} options now (m : jsmap (CacheEntry D)) :
  NoDup (List.map fst m) ->
  NoDup (List.map fst (cleanupMemoryCache options now m)).
Proof.
  intros H. unfold cleanupMemoryCache.
  destruct (_ <? _)%Z.
  - match goal with
    | |- context [fold_left _ ?del ?m1] =>
        assert (Hd : fold_left (fun m0 kv => map_delete (fst kv) m0) del m1
                     = filter (kept del) m1) by exact (delete_each del m1)
    end.
    rewrite Hd. apply filter_keys_NoDup. apply filter_keys_NoDup. exact H.
  - apply filter_keys_NoDup. exact H.
Qed.

Section Invariants.

Variable E : Engine.
Variable options : Options.

(** X24. The memory tier never holds two entries under one key: no call
    of [set], [get], [cleanup] or [clear] makes it. *)
Theorem memory_keys_stay_distinct (env : Env) (d : ref)
    (url : option jsstring) (st : State) :
  NoDup (List.map fst (memoryCache st)) ->
  (forall st', set E options env d url st = Some st' ->
     NoDup (List.map fst (memoryCache st'))) /\
  NoDup (List.map fst (memoryCache (snd (get E options env url st)))) /\
  NoDup (List.map fst (memoryCache (cleanup E options env st))) /\
  NoDup (List.map fst (memoryCache (clear url st))).
Proof.
  intros H. repeat split.
  - intros st' Hs. apply set_effect in Hs.
    destruct Hs as (clone & _ & _ & ->).
    apply cleanupMemoryCache_NoDup. apply map_set_NoDup. exact H.
  - destruct (get E options env url st) as [[r|] st'] eqn:G.
    + cbn [snd]. unfold get in G.
      destruct (find _ (memoryCache st)) as [[k e]|].
      * inversion G; subst. exact H.
      * apply get_persistent_found in G.
        destruct G as (k & e & -> & _). apply map_set_NoDup. exact H.
    + pose proof (get_leaves_storage_aux E options env url st)
        as (_ & _ & Hn).
      rewrite G in Hn. cbn [fst snd] in Hn |- *. rewrite Hn by reflexivity.
      exact H.
  - apply cleanupMemoryCache_NoDup. exact H.
  - unfold clear. destruct (url_given url); cbn [memoryCache].
    + rewrite delete_keys. apply filter_keys_NoDup. exact H.
    + constructor.
Qed.

End Invariants.

Lemma memory_keys_stay_distinct_witness :
  (forall st',
     set engine3 exported_options (no_tab_at 2000) 1 page_url after_john
     = Some st' ->
     NoDup (List.map fst (memoryCache st'))) /\
  NoDup (List.map fst (memoryCache
    (snd (get engine3 exported_options (no_tab_at 2000) page_url
            after_john)))) /\
  NoDup (List.map fst (memoryCache
    (cleanup engine3 exported_options (no_tab_at 2000) after_john))) /\
  NoDup (List.map fst (memoryCache (clear page_url after_john))).
Proof.
  apply (@memory_keys_stay_distinct engine3 exported_options
           (no_tab_at 2000) 1 page_url after_john).
  vm_compute. repeat constructor. intros [].
Defined.

Section CleanupTwice.

Variable E : Engine.
Variable options : Options.

Lemma cleanup_key_only_removes env k t : forall s key,
  getStorage k (cleanup_key E options env s key) = Some t ->
  getStorage k s = Some t.
Proof.
  intros s key. unfold cleanup_key.
  destruct (getStorage key s) as [text|]; [|auto].
  destruct (truthy text); [|auto].
  assert (Hrm : getStorage k (removeStorage key s) = Some t ->
                getStorage k s = Some t).
  { unfold getStorage, removeStorage. rewrite map_get_delete.
    destruct (Js.eqb k key); [discriminate|auto]. }
  destruct (decompress E options text); [|exact Hrm].
  destruct (JSON_parse_entry E _); [|exact Hrm].
  destruct (isExpired options (now env) _); [exact Hrm|auto].
Qed.

Lemma cleanup_fold_only_removes env k t : forall keys s,
  getStorage k (fold_left (cleanup_key E options env) keys s) = Some t ->
  getStorage k s = Some t.
Proof.
  induction keys as [|key keys IH]; intros s H; [exact H|].
  cbn [fold_left] in H. apply IH in H.
  apply (@cleanup_key_only_removes env k t s key H).
Qed.

Lemma fold_left_fixed {A B} (f : A -> B -> A) (a : A) : forall l,
  (forall b, In b l -> f a b = a) -> fold_left f l a = a.
Proof.
  induction l as [|b l IH]; intros H; [reflexivity|].
  cbn [fold_left]. rewrite (H b) by (left; reflexivity).
  apply IH. intros b' Hb'. apply H. right. exact Hb'.
Qed.

Lemma map_get_in {V} (k : jsstring) (v : V) : forall (m : jsmap V),
  map_get k m = Some v -> In k (List.map fst m).
Proof.
  induction m as [|[k' v'] m IH]; simpl; [discriminate|].
  destruct (Js.eqb k' k) eqn:Ek.
  - apply eqb_eq in Ek. auto.
  - intros H. right. apply IH. exact H.
Qed.

(** X25. Cleaning up twice is cleaning up once: at one reading of the
    clock, [cleanup] leaves a store on which a second [cleanup] changes
    nothing. *)
Theorem cleanup_twice (env : Env) (st : State) :
  (0 <= cap options)%Z ->
  cleanup E options env (cleanup E options env st)
  = cleanup E options env st.
Proof.
  intros Hcap. unfold cleanup at 1 3. cbn [objects].
  f_equal.
  - cbn [memoryCache cleanup]. apply cleanupMemoryCache_id.
    + intros kv Hin. apply (@cleanupMemoryCache_keeps options _ (now env) (memoryCache st) kv Hin).
    + apply cleanupMemoryCache_bound. exact Hcap.
  - change (fold_left (cleanup_key E options env)
              (getStorageKeys (local st)) (local st))
      with (local (cleanup E options env st)).
    set (s1 := local (cleanup E options env st)).
    assert (Hs1 : s1 = local (cleanup E options env st)) by reflexivity.
    clearbody s1.
    apply fold_left_fixed. intros k Hk.
    unfold cleanup_key.
    destruct (getStorage k s1) as [text|] eqn:G; [|reflexivity].
    destruct (truthy text) eqn:T; [|reflexivity].
    assert (G0 : getStorage k (local st) = Some text).
    { rewrite Hs1 in G. unfold cleanup in G. cbn [local] in G.
      apply (@cleanup_fold_only_removes env k text _ _ G). }
    assert (Hin : In k (getStorageKeys (local st))).
    { unfold getStorageKeys in Hk |- *. apply filter_In in Hk.
      apply filter_In. split; [|apply Hk].
      apply (@map_get_in _ k text _ G0). }
    destruct (decompress E options text) as [t|] eqn:Dt.
    + destruct (JSON_parse_entry E t) as [entry|] eqn:Pe.
      * destruct (isExpired options (now env) entry) eqn:Ex; [|reflexivity].
        exfalso.
        assert (Hs : stale E options (now env) text)
          by (unfold stale, decode; rewrite Dt, Pe; exact Ex).
        pose proof (@cleanup_persistent E options env st k text Hin G0 T Hs)
          as Hnone.
        rewrite <- Hs1 in Hnone. congruence.
      * exfalso.
        assert (Hs : stale E options (now env) text)
          by (unfold stale, decode; rewrite Dt, Pe; exact I).
        pose proof (@cleanup_persistent E options env st k text Hin G0 T Hs)
          as Hnone.
        rewrite <- Hs1 in Hnone. congruence.
    + exfalso.
      assert (Hs : stale E options (now env) text)
        by (unfold stale, decode; rewrite Dt; exact I).
      pose proof (@cleanup_persistent E options env st k text Hin G0 T Hs)
        as Hnone.
      rewrite <- Hs1 in Hnone. congruence.
Qed.

End CleanupTwice.

Lemma cleanup_twice_witness :
  cleanup engine_empty exported_options (no_tab_at read_at)
    (cleanup engine_empty exported_options (no_tab_at read_at)
       after_empty_write)
  = cleanup engine_empty exported_options (no_tab_at read_at)
      after_empty_write.
Proof.
  apply (@cleanup_twice engine_empty exported_options (no_tab_at read_at)
           after_empty_write).
  vm_compute. discriminate.
Defined.


(** ** What the statistics report *)

Lemma max_double_large : (8640000000000000 < max_double)%Z.
Proof. vm_compute. reflexivity. Qed.

Lemma number_of_spec t :
  (number_of t = Infinity /\ (max_double < t)%Z) \/
  (number_of t = NegInfinity /\ (t < - max_double)%Z) \/
  (number_of t = Finite t /\ (- max_double <= t <= max_double)%Z).
Proof.
  unfold number_of.
  destruct (Z.ltb_spec max_double t) as [H|H]; [left; split; auto|].
  destruct (Z.ltb_spec t (- max_double)) as [H'|H'].
  - right. left. split; auto.
  - right. right. split; [reflexivity|lia].
Qed.

Lemma number_leb_refl a : number_leb a a = true.
Proof. destruct a; simpl; auto. apply Z.leb_refl. Qed.

Lemma number_leb_trans a b c :
  number_leb a b = true -> number_leb b c = true -> number_leb a c = true.
Proof.
  destruct a, b, c; simpl; intros H1 H2; try reflexivity; try discriminate.
  apply Z.leb_le. apply Z.leb_le in H1, H2. lia.
Qed.

Lemma number_leb_total a b :
  number_leb a b = false -> number_leb b a = true.
Proof.
  destruct a, b; simpl; intros H; try reflexivity; try discriminate.
  apply Z.leb_le. apply Z.leb_gt in H. lia.
Qed.

Lemma oldest_fold (l : list (CacheEntry ref)) : forall acc,
  let o := fold_left
             (fun oldest entry =>
                Math_min oldest (number_of (timestamp entry))) l acc in
  number_leb o acc = true /\
  (forall e, In e l -> number_leb o (number_of (timestamp e)) = true) /\
  (o = acc \/ exists e, In e l /\ o = number_of (timestamp e)).
Proof.
  cbv zeta. induction l as [|x l IH]; intros acc; cbn [fold_left].
  - split; [apply number_leb_refl|]. split; [intros e []|left; reflexivity].
  - destruct (IH (Math_min acc (number_of (timestamp x)))) as (H1 & H2 & H3).
    assert (Hl : number_leb (Math_min acc (number_of (timestamp x))) acc
                 = true).
    { unfold Math_min. destruct (number_leb acc (number_of (timestamp x))) eqn:L.
      - apply number_leb_refl.
      - apply number_leb_total. exact L. }
    assert (Hr : number_leb (Math_min acc (number_of (timestamp x)))
                   (number_of (timestamp x)) = true).
    { unfold Math_min. destruct (number_leb acc (number_of (timestamp x))) eqn:L.
      - exact L.
      - apply number_leb_refl. }
    split; [exact (number_leb_trans _ _ _ H1 Hl)|]. split.
    + intros e [<-|He]; [exact (number_leb_trans _ _ _ H1 Hr)|].
      apply H2. exact He.
    + destruct H3 as [H3|(e & He & Hte)].
      * rewrite H3. unfold Math_min. destruct (number_leb acc (number_of (timestamp x))).
        -- left. reflexivity.
        -- right. exists x. split; [left; reflexivity|reflexivity].
      * right. exists e. split; [right; exact He|exact Hte].
Qed.

Lemma newest_fold (l : list (CacheEntry ref)) : forall acc,
  let n := fold_left
             (fun newest entry =>
                Math_max newest (number_of (timestamp entry))) l acc in
  number_leb acc n = true /\
  (forall e, In e l -> number_leb (number_of (timestamp e)) n = true) /\
  (n = acc \/ exists e, In e l /\ n = number_of (timestamp e)).
Proof.
  cbv zeta. induction l as [|x l IH]; intros acc; cbn [fold_left].
  - split; [apply number_leb_refl|]. split; [intros e []|left; reflexivity].
  - destruct (IH (Math_max acc (number_of (timestamp x)))) as (H1 & H2 & H3).
    assert (Hl : number_leb acc (Math_max acc (number_of (timestamp x)))
                 = true).
    { unfold Math_max. destruct (number_leb acc (number_of (timestamp x))) eqn:L.
      - exact L.
      - apply number_leb_refl. }
    assert (Hr : number_leb (number_of (timestamp x))
                   (Math_max acc (number_of (timestamp x))) = true).
    { unfold Math_max. destruct (number_leb acc (number_of (timestamp x))) eqn:L.
      - apply number_leb_refl.
      - apply number_leb_total. exact L. }
    split; [exact (number_leb_trans _ _ _ Hl H1)|]. split.
    + intros e [<-|He]; [exact (number_leb_trans _ _ _ Hr H1)|].
      apply H2. exact He.
    + destruct H3 as [H3|(e & He & Hte)].
      * rewrite H3. unfold Math_max. destruct (number_leb acc (number_of (timestamp x))).
        -- right. exists x. split; [left; reflexivity|reflexivity].
        -- left. reflexivity.
      * right. exists e. split; [right; exact He|exact Hte].
Qed.

Lemma new_Date_valid n t :
  new_Date n = Valid_Date t ->
  n = Finite t /\ (Z.abs t <= 8640000000000000)%Z.
Proof.
  destruct n as [|z|]; simpl; try discriminate.
  destruct (Z.leb_spec (Z.abs z) 8640000000000000) as [Hb|Hb];
    [|discriminate].
  intros Hv. inversion Hv; subst. auto.
Qed.

Section StatsFacts.

Variable stringify_length : heap -> CacheEntry ref -> nat.

(** X26. The statistics count the entries of the memory tier and the keys
    of the store in the persistent storage.  The oldest date is missing
    exactly when every time stamp of the tier reads as [Infinity] (so when
    the tier is empty), the newest date exactly when no time stamp is
    positive.  A valid date that is reported is a time stamp of the tier,
    the least one for the oldest and the greatest one for the newest.  On
    a tier that is not empty and whose time stamps are positive time
    values, both dates are reported and valid. *)
Theorem getStats_reports_extremes (st : State) :
  let s := getStats stringify_length st in
  memoryEntries s = length (memoryCache st) /\
  persistentEntries s = length (getStorageKeys (local st)) /\
  (oldestEntry s = None <->
   forall kv, In kv (memoryCache st) ->
     (max_double < timestamp (snd kv))%Z) /\
  (newestEntry s = None <->
   forall kv, In kv (memoryCache st) -> (timestamp (snd kv) <= 0)%Z) /\
  (forall o, oldestEntry s = Some (Valid_Date o) ->
     (exists kv, In kv (memoryCache st) /\ timestamp (snd kv) = o) /\
     forall kv, In kv (memoryCache st) -> (o <= timestamp (snd kv))%Z) /\
  (forall n, newestEntry s = Some (Valid_Date n) ->
     (exists kv, In kv (memoryCache st) /\ timestamp (snd kv) = n) /\
     forall kv, In kv (memoryCache st) -> (timestamp (snd kv) <= n)%Z) /\
  ((forall kv, In kv (memoryCache st) ->
      (0 < timestamp (snd kv) <= 8640000000000000)%Z) ->
   memoryCache st <> [] ->
   exists o n,
     oldestEntry s = Some (Valid_Date o) /\
     newestEntry s = Some (Valid_Date n) /\ (o <= n)%Z).
Proof.
  cbv zeta. unfold getStats.
  cbn [memoryEntries persistentEntries oldestEntry newestEntry].
  pose proof max_double_large as Hmax.
  destruct (oldest_fold (List.map snd (memoryCache st)) Infinity)
    as (_ & O2 & O3).
  destruct (newest_fold (List.map snd (memoryCache st)) (Finite 0))
    as (N1 & N2 & N3).
  match goal with
  | |- context [fold_left ?f (List.map snd (memoryCache st)) Infinity] =>
      set (o := fold_left f (List.map snd (memoryCache st)) Infinity) in *
  end.
  match goal with
  | |- context [fold_left ?f (List.map snd (memoryCache st)) (Finite 0)] =>
      set (n := fold_left f (List.map snd (memoryCache st)) (Finite 0)) in *
  end.
  assert (O2' : forall kv, In kv (memoryCache st) ->
                  number_leb o (number_of (timestamp (snd kv))) = true)
    by (intros kv Hin; apply O2; apply in_map; exact Hin).
  assert (N2' : forall kv, In kv (memoryCache st) ->
                  number_leb (number_of (timestamp (snd kv))) n = true)
    by (intros kv Hin; apply N2; apply in_map; exact Hin).
  assert (O3' : o = Infinity \/
                exists kv, In kv (memoryCache st) /\
                           o = number_of (timestamp (snd kv))).
  { destruct O3 as [H|(e & He & Hte)]; [left; exact H|right].
    apply in_map_iff in He. destruct He as (kv & <- & Hkv). eauto. }
  assert (N3' : n = Finite 0 \/
                exists kv, In kv (memoryCache st) /\
                           n = number_of (timestamp (snd kv))).
  { destruct N3 as [H|(e & He & Hte)]; [left; exact H|right].
    apply in_map_iff in He. destruct He as (kv & <- & Hkv). eauto. }
  clear O2 O3 N2 N3. clearbody o n.
  split; [reflexivity|]. split; [reflexivity|].
  split; [|split; [|split; [|split]]].
  - split.
    + intros Ho kv Hin. specialize (O2' kv Hin).
      assert (o = Infinity) by (destruct o; [discriminate|discriminate|auto]).
      subst o.
      destruct (number_of_spec (timestamp (snd kv))) as [[_ H]|[[E _]|[E _]]];
        [exact H| |]; rewrite E in O2'; discriminate.
    + intros Hall.
      destruct O3' as [->|(kv & Hin & ->)]; [reflexivity|].
      specialize (Hall kv Hin).
      destruct (number_of_spec (timestamp (snd kv))) as [[E _]|[[_ H]|[_ H]]];
        [rewrite E; reflexivity|lia|lia].
  - split.
    + intros Hn kv Hin. specialize (N2' kv Hin).
      destruct (number_leb n (Finite 0)) eqn:L; [|discriminate].
      pose proof (number_leb_trans _ _ _ N2' L) as Ht.
      destruct (number_of_spec (timestamp (snd kv)))
        as [[E _]|[[_ H]|[E _]]].
      * rewrite E in Ht. discriminate.
      * lia.
      * rewrite E in Ht. simpl in Ht. apply Z.leb_le in Ht. exact Ht.
    + intros Hall.
      assert (L : number_leb n (Finite 0) = true).
      { destruct N3' as [->|(kv & Hin & ->)]; [reflexivity|].
        specialize (Hall kv Hin).
        destruct (number_of_spec (timestamp (snd kv)))
          as [[_ H]|[[E _]|[E _]]]; [lia| |]; rewrite E; simpl;
          [reflexivity|apply Z.leb_le; exact Hall]. }
      rewrite L. reflexivity.
  - intros t Ht.
    assert (Hd : new_Date o = Valid_Date t /\ o <> Infinity).
    { destruct o; inversion Ht; split; auto; discriminate. }
    destruct Hd as [Hd Hni]. apply new_Date_valid in Hd.
    destruct Hd as [-> Hb]. split.
    + destruct O3' as [H|(kv & Hin & H)]; [discriminate|].
      exists kv. split; [exact Hin|].
      destruct (number_of_spec (timestamp (snd kv)))
        as [[E _]|[[E _]|[E _]]]; rewrite E in H; congruence.
    + intros kv Hin. specialize (O2' kv Hin).
      destruct (number_of_spec (timestamp (snd kv)))
        as [[_ H]|[[E _]|[E _]]].
      * lia.
      * rewrite E in O2'. discriminate.
      * rewrite E in O2'. simpl in O2'. apply Z.leb_le in O2'. exact O2'.
  - intros t Ht.
    destruct (number_leb n (Finite 0)) eqn:L; [discriminate|].
    cbn [negb] in Ht. inversion Ht as [Hd]. apply new_Date_valid in Hd.
    destruct Hd as [-> Hb]. simpl in L. apply Z.leb_gt in L. split.
    + destruct N3' as [H|(kv & Hin & H)]; [inversion H; lia|].
      exists kv. split; [exact Hin|].
      destruct (number_of_spec (timestamp (snd kv)))
        as [[E _]|[[E _]|[E _]]]; rewrite E in H; congruence.
    + intros kv Hin. specialize (N2' kv Hin).
      destruct (number_of_spec (timestamp (snd kv)))
        as [[E _]|[[_ H]|[E _]]].
      * rewrite E in N2'. discriminate.
      * lia.
      * rewrite E in N2'. simpl in N2'. apply Z.leb_le in N2'. exact N2'.
  - intros Hall Hne.
    assert (Hfin : forall kv, In kv (memoryCache st) ->
              number_of (timestamp (snd kv)) = Finite (timestamp (snd kv))).
    { intros kv Hin. specialize (Hall kv Hin).
      destruct (number_of_spec (timestamp (snd kv)))
        as [[_ H]|[[_ H]|[E _]]]; [lia|lia|exact E]. }
    destruct (memoryCache st) as [|kv0 m] eqn:Em; [congruence|].
    assert (H0 : In kv0 (kv0 :: m)) by (left; reflexivity).
    pose proof (O2' kv0 H0) as Ho0. pose proof (N2' kv0 H0) as Hn0.
    rewrite (Hfin kv0 H0) in Ho0, Hn0.
    destruct O3' as [->|(kvo & Hino & ->)]; [discriminate|].
    rewrite (Hfin kvo Hino) in Ho0 |- *.
    assert (Hnn : exists kvn, In kvn (kv0 :: m) /\
                              n = Finite (timestamp (snd kvn))).
    { destruct N3' as [->|(kvn & Hinn & ->)].
      - simpl in Hn0. apply Z.leb_le in Hn0.
        specialize (Hall kv0 H0). lia.
      - exists kvn. split; [exact Hinn|]. apply Hfin. exact Hinn. }
    destruct Hnn as (kvn & Hinn & ->).
    simpl in Ho0, Hn0. apply Z.leb_le in Ho0, Hn0.
    pose proof (Hall kvo Hino) as Bo. pose proof (Hall kvn Hinn) as Bn.
    exists (timestamp (snd kvo)), (timestamp (snd kvn)).
    cbn [new_Date number_leb].
    replace (Z.abs (timestamp (snd kvo)) <=? 8640000000000000)%Z with true
      by (symmetry; apply Z.leb_le; lia).
    replace (Z.abs (timestamp (snd kvn)) <=? 8640000000000000)%Z with true
      by (symmetry; apply Z.leb_le; lia).
    replace (timestamp (snd kvn) <=? 0)%Z with false
      by (symmetry; apply Z.leb_gt; lia).
    cbn [negb]. repeat split; lia.
Qed.

End StatsFacts.

(** On the exported instance, the read that answers with the entry of
    [after_empty_write] files it with the time stamp it read: the tier is
    not empty, no oldest date is reported, and the newest date is
    invalid. *)
Lemma getStats_after_read_of_packed_entry :
  let st := snd (get engine_empty exported_options (no_tab_at read_at) None
                   after_empty_write) in
  length (memoryCache st) = 1 /\
  oldestEntry (getStats (fun _ _ => 0) st) = None /\
  newestEntry (getStats (fun _ _ => 0) st) = Some Invalid_Date.
Proof. vm_compute. repeat split; reflexivity. Qed.
